(** * Infinite 3D cards carousel: position engine, colour extractor and
    gradient animator

    A shallow embedding of the two variants of the carousel script kept in the
    repository: [script-entry.js], with two-colour palettes (module
    [ScriptEntry]), and the variant with four-colour palettes (module
    [FourColour]).
    The code the two files share word for word (safe modulo, card layout,
    wrap-around positions, the animation tick, the colour conversions, the
    histogram) is embedded once; what differs (blur exemption, pick selection,
    palette rendering, gradient retarget) is embedded per variant.

    Numbers.  A JavaScript number is modelled by [number]: a rational, one of
    the two infinities, or NaN.  Arithmetic on rationals is exact (no binary64
    or Float32Array rounding) and the negative zero is identified with zero;
    everything else (division by zero, [%] with a zero divisor, comparisons
    with NaN) follows the language.  [Math.pow] has no rational counterpart,
    so it is a parameter of the functions that call it.  The colour code only
    ever divides by non-zero quantities and is written over [Q] directly. *)

From Stdlib Require Import QArith Qround Qabs Qminmax Qpower Lqa ZArith List Lia Bool.
From Stdlib Require Import Strings.Byte Sorting.Sorted.
Import ListNotations.
Open Scope Q_scope.

(** ** JavaScript numbers *)

Inductive number : Type :=
| Num (q : Q)
| Infinity
| NegInfinity
| NaN.

Declare Scope js_scope.
Delimit Scope js_scope with js.
Bind Scope js_scope with number.

Definition Qltb (a b : Q) : bool := negb (Qle_bool b a).

(** Rounding toward zero, and the remainder [n - m * trunc (n / m)] that [%]
    computes on finite operands: it takes the sign of the dividend. *)
Definition Qtrunc (q : Q) : Z :=
  if Qle_bool 0 q then Qfloor q else Qceiling q.

Definition Qrem (n m : Q) : Q := n - m * inject_Z (Qtrunc (n / m)).

Definition of_Z (z : Z) : number := Num (inject_Z z).

Definition neg (a : number) : number :=
  match a with
  | Num x => Num (- x)
  | Infinity => NegInfinity
  | NegInfinity => Infinity
  | NaN => NaN
  end.

Definition add (a b : number) : number :=
  match a, b with
  | NaN, _ | _, NaN => NaN
  | Num x, Num y => Num (x + y)
  | Infinity, NegInfinity | NegInfinity, Infinity => NaN
  | Infinity, _ | _, Infinity => Infinity
  | NegInfinity, _ | _, NegInfinity => NegInfinity
  end.

Definition sub (a b : number) : number :=
  match a, b with
  | NaN, _ | _, NaN => NaN
  | Num x, Num y => Num (x - y)
  | Infinity, Infinity | NegInfinity, NegInfinity => NaN
  | Infinity, _ | _, NegInfinity => Infinity
  | NegInfinity, _ | _, Infinity => NegInfinity
  end.

(** The product of an infinity with a finite factor [x]. *)
Definition scale_inf (positive : bool) (x : Q) : number :=
  if Qeq_bool x 0 then NaN
  else if Bool.eqb positive (Qltb 0 x) then Infinity else NegInfinity.

Definition mul (a b : number) : number :=
  match a, b with
  | NaN, _ | _, NaN => NaN
  | Num x, Num y => Num (x * y)
  | Num x, Infinity | Infinity, Num x => scale_inf true x
  | Num x, NegInfinity | NegInfinity, Num x => scale_inf false x
  | Infinity, Infinity | NegInfinity, NegInfinity => Infinity
  | Infinity, NegInfinity | NegInfinity, Infinity => NegInfinity
  end.

Definition div (a b : number) : number :=
  match a, b with
  | NaN, _ | _, NaN => NaN
  | Num x, Num y =>
      if Qeq_bool y 0 then scale_inf true x else Num (x / y)
  | Num _, (Infinity | NegInfinity) => Num 0
  | Infinity, Num y => if Qle_bool 0 y then Infinity else NegInfinity
  | NegInfinity, Num y => if Qle_bool 0 y then NegInfinity else Infinity
  | (Infinity | NegInfinity), (Infinity | NegInfinity) => NaN
  end.

(** The [%] operator. *)
Definition rem (a b : number) : number :=
  match a, b with
  | Num x, Num y => if Qeq_bool y 0 then NaN else Num (Qrem x y)
  | Num x, (Infinity | NegInfinity) => Num x
  | _, _ => NaN
  end.

Definition lt (a b : number) : bool :=
  match a, b with
  | Num x, Num y => Qltb x y
  | NegInfinity, (Num _ | Infinity) => true
  | Num _, Infinity => true
  | _, _ => false
  end.

Definition strict_eq (a b : number) : bool :=
  match a, b with
  | Num x, Num y => Qeq_bool x y
  | Infinity, Infinity | NegInfinity, NegInfinity => true
  | _, _ => false
  end.

Definition truthy (a : number) : bool :=
  match a with
  | Num x => negb (Qeq_bool x 0)
  | NaN => false
  | _ => true
  end.

(** [a || b] on numbers. *)
Definition or_else (a b : number) : number := if truthy a then a else b.

Definition Math_abs (a : number) : number :=
  match a with
  | Num x => Num (Qabs x)
  | NaN => NaN
  | _ => Infinity
  end.

Definition Math_max (a b : number) : number :=
  match a, b with
  | NaN, _ | _, NaN => NaN
  | _, _ => if lt a b then b else a
  end.

Definition Math_min (a b : number) : number :=
  match a, b with
  | NaN, _ | _, NaN => NaN
  | _, _ => if lt b a then b else a
  end.

(** [Math.round] rounds half-way cases up. *)
Definition Qround_half_up (q : Q) : Z := Qfloor (q + 0.5).

Definition Math_round (a : number) : number :=
  match a with
  | Num x => of_Z (Qround_half_up x)
  | _ => a
  end.

Notation "a + b" := (add a b) : js_scope.
Notation "a - b" := (sub a b) : js_scope.
Notation "a * b" := (mul a b) : js_scope.
Notation "a / b" := (div a b) : js_scope.
Notation "a %% b" := (rem a b) (at level 40, left associativity) : js_scope.
Notation "- a" := (neg a) : js_scope.
Notation "a <? b" := (lt a b) (at level 70, no associativity) : js_scope.
Notation "a >? b" := (lt b a) (at level 70, no associativity) : js_scope.
Notation "a === b" := (strict_eq a b) (at level 70, no associativity) : js_scope.
Notation "a || b" := (or_else a b) : js_scope.

(** ** Safe modulo *)

Definition mod_ (n m : number) : number := (((n %% m) + m) %% m)%js.

(** ** Carousel state *)

(** The transform string [translate3d(x px,-50%,z px) rotateY(ry deg)
    scale(s)], by its four numbers. *)
Record transform3d : Type := mkTransform {
  translateX : number;
  translateZ : number;
  rotateY : number;
  scale : number
}.

(** What a frame writes on a card's element: transform, stacking order and
    the blur radius (before its two-decimal rendering). *)
Record style : Type := mkStyle {
  transform : transform3d;
  zIndex : number;
  blur : number
}.

(** The globals of the layout and physics sections.  [items] holds the base
    offset [x] of every card; [styles] is what the last frame wrote on the
    cards' elements. *)
Record carousel : Type := mkCarousel {
  items : list number;
  positions : list number;
  styles : list style;
  lastTime : number;
  VW_HALF : number;
  CARD_W : number;
  CARD_H : number;
  STEP : number;
  TRACK : number;
  SCROLL_X : number;
  vX : number
}.

Definition GAP : number := Num 28.
Definition FRICTION : Q := 0.9.
Definition MAX_ROTATION : number := Num 28.
Definition MAX_DEPTH : number := Num 140.

Definition length_of {A} (l : list A) : number := of_Z (Z.of_nat (length l)).

(** ** Layout, wrap-around positions and the animation tick

    The code below is the same in both variants up to the constants
    [MIN_SCALE], [SCALE_RANGE], the blur coefficient and the test [isCore]
    that exempts cards from the blur; these, [Math.pow] and the gradient
    retarget of the variant are the parameters of the section.  The retarget
    works on the variant's gradient state, reads [items.length] and the
    clock, and cannot touch the carousel globals. *)

Module Carousel.
Section Variant.

Variable Math_pow : number -> number -> number.
Variables MIN_SCALE SCALE_RANGE BLUR_COEF : number.
Variable isCore : Z -> Z -> number -> number -> bool.
Variable gradient : Type.
Variable activeIndex : gradient -> Z.
Variable setActiveGradient : number -> nat -> Z -> gradient -> gradient.

(** [items.forEach((it, i) => it.x = i * STEP)] on [n] cards. *)
Definition layout (n : nat) (step : number) : list number :=
  map (fun i => (of_Z (Z.of_nat i) * step)%js) (seq 0 n).

(** [measure], given the bounding rectangle of the first card. *)
Definition measure (width height : number) (c : carousel) : carousel :=
  match items c with
  | [] => c
  | _ :: _ =>
      let card_w := (width || CARD_W c)%js in
      let card_h := (height || CARD_H c)%js in
      let step := (card_w + GAP)%js in
      {| items := layout (length (items c)) step;
         positions := repeat (Num 0) (length (items c));
         styles := styles c;
         lastTime := lastTime c;
         VW_HALF := VW_HALF c;
         CARD_W := card_w;
         CARD_H := card_h;
         STEP := step;
         TRACK := (length_of (items c) * step)%js;
         SCROLL_X := SCROLL_X c;
         vX := vX c |}
  end.

Definition clamp_unit (a : number) : number :=
  Math_max (Num (-1)) (Math_min (Num 1) a).

Definition transformForScreenX (vw_half screenX : number)
  : transform3d * number :=
  let norm := clamp_unit (screenX / vw_half)%js in
  let absNorm := Math_abs norm in
  let invNorm := (Num 1 - absNorm)%js in
  let ry := (- norm * MAX_ROTATION)%js in
  let tz := (invNorm * MAX_DEPTH)%js in
  let scale := (MIN_SCALE + invNorm * SCALE_RANGE)%js in
  ({| translateX := screenX; translateZ := tz; rotateY := ry; scale := scale |},
   tz).

(** The wrapped position of a card whose base offset is [x]. *)
Definition wrap (track scroll_x x : number) : number :=
  let half := (track / Num 2)%js in
  let pos := (x - scroll_x)%js in
  let pos := if (pos <? - half)%js then (pos + track)%js else pos in
  let pos := if (pos >? half)%js then (pos - track)%js else pos in
  pos.

(** The first loop of [updateCarouselTransforms], from card [i] on:
    [best] is the pair [(closestIdx, closestDist)] so far.  It returns the
    positions written and the final pair. *)
Fixpoint wrapLoop (track scroll_x : number) (its : list number) (i : Z)
  (best : Z * number) : list number * (Z * number) :=
  match its with
  | [] => ([], best)
  | x :: rest =>
      let pos := wrap track scroll_x x in
      let dist := Math_abs pos in
      let best' := if (dist <? snd best)%js then (i, dist) else best in
      let '(ps, r) := wrapLoop track scroll_x rest (i + 1)%Z best' in
      (pos :: ps, r)
  end.

(** The style the second loop writes on card [i], at position [pos]. *)
Definition cardStyle (vw_half : number) (closestIdx : Z)
  (prevIdx nextIdx : number) (i : Z) (pos : number) : style :=
  let norm := clamp_unit (pos / vw_half)%js in
  let '(tr, z) := transformForScreenX vw_half pos in
  let blur :=
    if isCore i closestIdx prevIdx nextIdx then Num 0
    else (BLUR_COEF * Math_pow (Math_abs norm) (Num 1.1))%js in
  {| transform := tr;
     zIndex := (Num 1000 + Math_round z)%js;
     blur := blur |}.

Fixpoint styleLoop (vw_half : number) (closestIdx : Z)
  (prevIdx nextIdx : number) (ps : list number) (i : Z) : list style :=
  match ps with
  | [] => []
  | pos :: rest =>
      cardStyle vw_half closestIdx prevIdx nextIdx i pos
      :: styleLoop vw_half closestIdx prevIdx nextIdx rest (i + 1)%Z
  end.

(** The index the frame reports as nearest to the centre. *)
Definition closestIdx_of (c : carousel) : Z :=
  fst (snd (wrapLoop (TRACK c) (SCROLL_X c) (items c) 0%Z (-1, Infinity)%Z)).

Definition updateCarouselTransforms (now : number) (c : carousel)
  (g : gradient) : carousel * gradient :=
  let '(ps, (closestIdx, _)) :=
    wrapLoop (TRACK c) (SCROLL_X c) (items c) 0%Z (-1, Infinity)%Z in
  let len := length_of (items c) in
  let prevIdx := ((of_Z closestIdx - Num 1 + len) %% len)%js in
  let nextIdx := ((of_Z closestIdx + Num 1) %% len)%js in
  let c' :=
    {| items := items c;
       positions := ps;
       styles := styleLoop (VW_HALF c) closestIdx prevIdx nextIdx ps 0%Z;
       lastTime := lastTime c;
       VW_HALF := VW_HALF c;
       CARD_W := CARD_W c;
       CARD_H := CARD_H c;
       STEP := STEP c;
       TRACK := TRACK c;
       SCROLL_X := SCROLL_X c;
       vX := vX c |} in
  (c',
   if (closestIdx =? activeIndex g)%Z then g
   else setActiveGradient now (length (items c)) closestIdx g).

(** The velocity after one frame of friction with the snap to zero. *)
Definition decayed (v dt : number) : number :=
  let decay := Math_pow (Num FRICTION) (dt * Num 60)%js in
  let v := (v * decay)%js in
  if (Math_abs v <? Num 0.02)%js then Num 0 else v.

(** One animation frame at time stamp [t]. *)
Definition tick (t now : number) (c : carousel) (g : gradient)
  : carousel * gradient :=
  let dt := if truthy (lastTime c)
            then ((t - lastTime c) / Num 1000)%js else Num 0 in
  let c' :=
    {| items := items c;
       positions := positions c;
       styles := styles c;
       lastTime := t;
       VW_HALF := VW_HALF c;
       CARD_W := CARD_W c;
       CARD_H := CARD_H c;
       STEP := STEP c;
       TRACK := TRACK c;
       SCROLL_X := mod_ (SCROLL_X c + vX c * dt)%js (TRACK c);
       vX := decayed (vX c) dt |} in
  updateCarouselTransforms now c' g.

(** The resize handler, given the new bounding rectangle of the first card
    and the new [window.innerWidth]. *)
Definition onResize (width height innerWidth now : number) (c : carousel)
  (g : gradient) : carousel * gradient :=
  let prevStep := (STEP c || Num 1)%js in
  let ratio := (SCROLL_X c / (length_of (items c) * prevStep))%js in
  let m := measure width height c in
  let c' :=
    {| items := items m;
       positions := positions m;
       styles := styles m;
       lastTime := lastTime m;
       VW_HALF := (innerWidth * Num 0.5)%js;
       CARD_W := CARD_W m;
       CARD_H := CARD_H m;
       STEP := STEP m;
       TRACK := TRACK m;
       SCROLL_X := mod_ (ratio * TRACK m)%js (TRACK m);
       vX := vX m |} in
  updateCarouselTransforms now c' g.

(** The animation loop: [tick] reschedules itself, so the frames run one
    after the other on the time stamps the scheduler hands them (paired here
    with the clock reading [performance.now()] of that frame). *)
Fixpoint frames (stamps : list (number * number)) (c : carousel)
  (g : gradient) : carousel * gradient :=
  match stamps with
  | [] => (c, g)
  | (t, now) :: rest =>
      let '(c', g') := tick t now c g in frames rest c' g'
  end.

End Variant.

(** The globals once [createCards] has made [n] cards, with the variant's
    initial [CARD_W] and the window's inner width. *)
Definition created (n : nat) (card_w innerWidth : number) : carousel :=
  {| items := repeat (Num 0) n;
     positions := [];
     styles := [];
     lastTime := Num 0;
     VW_HALF := (innerWidth * Num 0.5)%js;
     CARD_W := card_w;
     CARD_H := Num 400;
     STEP := (card_w + GAP)%js;
     TRACK := Num 0;
     SCROLL_X := Num 0;
     vX := Num 0 |}.

End Carousel.

(** ** Colour utilities *)

Definition rgb : Type := (Z * Z * Z)%type.

Definition Qmax3 (a b c : Q) : Q := Qmax (Qmax a b) c.
Definition Qmin3 (a b c : Q) : Q := Qmin (Qmin a b) c.

(** [clamp(v, a, b) = Math.max(a, Math.min(b, v))]. *)
Definition clamp (v a b : Q) : Q := Qmax a (Qmin b v).

Definition rgbToHsl (r g b : Q) : Q * Q * Q :=
  let r := r / 255 in
  let g := g / 255 in
  let b := b / 255 in
  let max := Qmax3 r g b in
  let min := Qmin3 r g b in
  let l := (max + min) / 2 in
  if Qeq_bool max min then (0 * 360, 0, l)
  else
    let d := max - min in
    let s := if Qltb 0.5 l then d / (2 - max - min) else d / (max + min) in
    let h :=
      if Qeq_bool max r then (g - b) / d + (if Qltb g b then 6 else 0)
      else if Qeq_bool max g then (b - r) / d + 2
      else (r - g) / d + 4 in
    let h := h / 6 in
    (h * 360, s, l).

Definition hue2rgb (p q t : Q) : Q :=
  let t := if Qltb t 0 then t + 1 else t in
  let t := if Qltb 1 t then t - 1 else t in
  if Qltb t (1 / 6) then p + (q - p) * 6 * t
  else if Qltb t (1 / 2) then q
  else if Qltb t (2 / 3) then p + (q - p) * (2 / 3 - t) * 6
  else p.

Definition hslToRgb (h s l : Q) : rgb :=
  let h := Qrem (Qrem h 360 + 360) 360 in
  let h := h / 360 in
  let '(r, g, b) :=
    if Qeq_bool s 0 then (l, l, l)
    else
      let q := if Qltb l 0.5 then l * (1 + s) else l + s - l * s in
      let p := 2 * l - q in
      (hue2rgb p q (h + 1 / 3), hue2rgb p q h, hue2rgb p q (h - 1 / 3)) in
  (Qround_half_up (r * 255), Qround_half_up (g * 255),
   Qround_half_up (b * 255)).

(** A palette object: [c1] and [c2] always, [c3] and [c4] when present. *)
Record palette : Type := mkPalette {
  c1 : rgb;
  c2 : rgb;
  c3 : option rgb;
  c4 : option rgb
}.

Definition fallbackFromIndex (idx : Z) : palette :=
  let h := Qrem (inject_Z idx * 37) 360 in
  let s := 0.65 in
  {| c1 := hslToRgb h s 0.52; c2 := hslToRgb h s 0.72;
     c3 := None; c4 := None |}.

(** ** The hue/saturation histogram *)

Definition H_BINS : Z := 36.
Definition S_BINS : Z := 5.
Definition SIZE : Z := H_BINS * S_BINS.

(** The four accumulator arrays, [SIZE] entries each. *)
Record bins : Type := mkBins {
  wSum : list Q;
  rSum : list Q;
  gSum : list Q;
  bSum : list Q
}.

Definition zeros : list Q := repeat 0 (Z.to_nat SIZE).

Definition emptyBins : bins :=
  {| wSum := zeros; rSum := zeros; gSum := zeros; bSum := zeros |}.

(** [arr[i]], read only at indices within the array. *)
Definition at_ (arr : list Q) (i : Z) : Q := nth (Z.to_nat i) arr 0.

(** [arr[i] += v] for [i] within the array. *)
Fixpoint add_at (i : nat) (v : Q) (arr : list Q) : list Q :=
  match arr, i with
  | [], _ => []
  | x :: rest, O => (x + v) :: rest
  | x :: rest, S j => x :: add_at j v rest
  end.

Definition byteQ (b : byte) : Q := inject_Z (Z.of_N (Byte.to_N b)).

(** The tests under which the sampling loop skips a pixel. *)
Definition skipped (r g b a : byte) : bool :=
  let alpha := byteQ a / 255 in
  if Qltb alpha 0.05 then true
  else
    let '(_, s, l) := rgbToHsl (byteQ r) (byteQ g) (byteQ b) in
    Qltb l 0.10 || Qltb 0.92 l || Qltb s 0.08.

(** The body of the sampling loop on one RGBA pixel. *)
Definition addPixel (r g b a : byte) (acc : bins) : bins :=
  let alpha := byteQ a / 255 in
  if Qltb alpha 0.05 then acc
  else
    let '(h, s, l) := rgbToHsl (byteQ r) (byteQ g) (byteQ b) in
    if Qltb l 0.10 || Qltb 0.92 l || Qltb s 0.08 then acc
    else
      let w := alpha * (s * s) * (1 - Qabs (l - 0.5) * 0.6) in
      let hi :=
        Z.max 0 (Z.min (H_BINS - 1) (Qfloor (h / 360 * inject_Z H_BINS))) in
      let si :=
        Z.max 0 (Z.min (S_BINS - 1) (Qfloor (s * inject_Z S_BINS))) in
      let bidx := Z.to_nat (hi * S_BINS + si) in
      {| wSum := add_at bidx w (wSum acc);
         rSum := add_at bidx (byteQ r * w) (rSum acc);
         gSum := add_at bidx (byteQ g * w) (gSum acc);
         bSum := add_at bidx (byteQ b * w) (bSum acc) |}.

(** [for (let i = 0; i < data.length; i += 4)] over the image data, four
    bytes at a time. *)
Fixpoint sample (data : list byte) (acc : bins) : bins :=
  match data with
  | r :: g :: b :: a :: rest => sample rest (addPixel r g b a acc)
  | _ => acc
  end.

Definition binIndices : list Z := map Z.of_nat (seq 0 (Z.to_nat SIZE)).

(** [Math.floor(i / S_BINS) * (360 / H_BINS)]. *)
Definition hueOf (i : Z) : Q :=
  inject_Z (Qfloor (inject_Z i / inject_Z S_BINS)) * (360 / inject_Z H_BINS).

Definition hueDist (a b : Q) : Q :=
  let d := Qabs (a - b) in
  Qmin d (360 - d).

Definition avgRGB (acc : bins) (idx : Z) : rgb :=
  let w := if Qeq_bool (at_ (wSum acc) idx) 0 then 1e-6 else at_ (wSum acc) idx in
  (Qround_half_up (at_ (rSum acc) idx / w),
   Qround_half_up (at_ (gSum acc) idx / w),
   Qround_half_up (at_ (bSum acc) idx / w)).

Definition rgbQ (c : rgb) : Q * Q * Q :=
  let '(r, g, b) := c in (inject_Z r, inject_Z g, inject_Z b).

(** ** Gradient state

    [bgCtx] tells whether the background canvas has a 2D context and [gsap]
    whether the tweening library is loaded.  A tween started by
    [gsap.to(gradCurrent, ...)] is recorded in [tweens] with its target and
    duration; the library then moves [gradCurrent] on its own clock. *)

Record tween (channels : Type) : Type := mkTween {
  target : channels;
  duration : Q
}.
Arguments mkTween {channels}.
Arguments target {channels}.
Arguments duration {channels}.

Record gradient (channels : Type) : Type := mkGradient {
  bgCtx : bool;
  gsap : bool;
  activeIndex : Z;
  gradPalette : list palette;
  gradCurrent : channels;
  bgFastUntil : number;
  tweens : list (tween channels)
}.
Arguments mkGradient {channels}.
Arguments bgCtx {channels}.
Arguments gsap {channels}.
Arguments activeIndex {channels}.
Arguments gradPalette {channels}.
Arguments gradCurrent {channels}.
Arguments bgFastUntil {channels}.
Arguments tweens {channels}.

(** The test that opens [setActiveGradient]:
    [!bgCtx || idx < 0 || idx >= items.length || idx === activeIndex]. *)
Definition retargetRefused {channels} (len : nat) (idx : Z)
  (g : gradient channels) : bool :=
  negb (bgCtx g) || (idx <? 0)%Z || (idx >=? Z.of_nat len)%Z
  || (idx =? activeIndex g)%Z.

(** [gradPalette[idx] || fallback]. *)
Definition paletteAt (pals : list palette) (idx : Z) (default : palette)
  : palette :=
  match nth_error pals (Z.to_nat idx) with
  | Some pal => pal
  | None => default
  end.

Definition red (c : rgb) : Z := fst (fst c).
Definition green (c : rgb) : Z := snd (fst c).
Definition blue (c : rgb) : Z := snd c.

(** ** The two-colour variant, [script-entry.js] *)

Module ScriptEntry.

Definition CARD_W0 : number := Num 300.
Definition MIN_SCALE : number := Num 0.92.
Definition SCALE_RANGE : number := Num 0.1.
Definition BLUR_COEF : number := Num 2.

(** [i === closestIdx || i === prevIdx || i === nextIdx]. *)
Definition isCore (i closestIdx : Z) (prevIdx nextIdx : number) : bool :=
  orb (orb (i =? closestIdx)%Z (strict_eq (of_Z i) prevIdx))
      (strict_eq (of_Z i) nextIdx).

(** The loop that finds the primary bin: the pair [(pIdx, pW)]. *)
Definition primary (acc : bins) : Z * Q :=
  fold_left
    (fun best i =>
       if Qltb (snd best) (at_ (wSum acc) i) then (i, at_ (wSum acc) i)
       else best)
    binIndices ((-1)%Z, 0).

(** The loop that finds the secondary bin: the pair [(sIdx, sW)]. *)
Definition secondary (acc : bins) (pHue : Q) : Z * Q :=
  fold_left
    (fun best i =>
       let w := at_ (wSum acc) i in
       if Qle_bool w 0 then best
       else
         let h := hueOf i in
         let dh := Qabs (h - pHue) in
         let dh := Qmin dh (360 - dh) in
         if Qle_bool 25 dh && Qltb (snd best) w then (i, w) else best)
    binIndices ((-1)%Z, 0).

(** [extractColors] on the image data read back from the canvas; [None]
    stands for an exception thrown while drawing or reading. *)
Definition extractColors (data : option (list byte)) (idx : Z) : palette :=
  match data with
  | None => fallbackFromIndex idx
  | Some data =>
      let acc := sample data emptyBins in
      let '(pIdx, pW) := primary acc in
      if (pIdx <? 0)%Z || Qle_bool pW 0 then fallbackFromIndex idx
      else
        let pHue := hueOf pIdx in
        let '(sIdx, sW) := secondary acc pHue in
        let '(pr, pg, pb) := rgbQ (avgRGB acc pIdx) in
        let '(h1, s1, _) := rgbToHsl pr pg pb in
        let s1 := Qmax 0.45 (Qmin 1 (s1 * 1.15)) in
        let c1 := hslToRgb h1 s1 0.5 in
        let c2 :=
          if (sIdx >=? 0)%Z && Qle_bool (pW * 0.6) sW then
            let '(sr, sg, sb) := rgbQ (avgRGB acc sIdx) in
            let '(h2, s2, _) := rgbToHsl sr sg sb in
            let s2 := Qmax 0.45 (Qmin 1 (s2 * 1.05)) in
            hslToRgb h2 s2 0.72
          else hslToRgb h1 s1 0.72 in
        {| c1 := c1; c2 := c2; c3 := None; c4 := None |}
  end.

(** [buildPalette], given the image data of every card. *)
Definition buildPalette (imgs : list (option (list byte))) : list palette :=
  map (fun '(i, img) => extractColors img (Z.of_nat i))
      (combine (seq 0 (length imgs)) imgs).

(** The six channels of [gradCurrent]. *)
Record channels : Type := mkChannels {
  r1 : Q; g1 : Q; b1 : Q;
  r2 : Q; g2 : Q; b2 : Q
}.

Definition initialChannels : channels :=
  {| r1 := 240; g1 := 240; b1 := 240; r2 := 235; g2 := 235; b2 := 235 |}.

Definition defaultPalette : palette :=
  {| c1 := (240, 240, 240)%Z; c2 := (235, 235, 235)%Z;
     c3 := None; c4 := None |}.

Definition setActiveGradient (now : number) (len : nat) (idx : Z)
  (g : gradient channels) : gradient channels :=
  if retargetRefused len idx g then g
  else
    let pal := paletteAt (gradPalette g) idx defaultPalette in
    let to :=
      {| r1 := inject_Z (red (c1 pal));
         g1 := inject_Z (green (c1 pal));
         b1 := inject_Z (blue (c1 pal));
         r2 := inject_Z (red (c2 pal));
         g2 := inject_Z (green (c2 pal));
         b2 := inject_Z (blue (c2 pal)) |} in
    if gsap g then
      {| bgCtx := bgCtx g; gsap := gsap g;
         activeIndex := idx;
         gradPalette := gradPalette g;
         gradCurrent := gradCurrent g;
         bgFastUntil := (now + Num 800)%js;
         tweens := tweens g ++ [mkTween to 0.45] |}
    else
      {| bgCtx := bgCtx g; gsap := gsap g;
         activeIndex := idx;
         gradPalette := gradPalette g;
         gradCurrent := to;
         bgFastUntil := bgFastUntil g;
         tweens := tweens g |}.

(** The gradient globals when the script starts. *)
Definition initialGradient (ctx tweening : bool) : gradient channels :=
  {| bgCtx := ctx; gsap := tweening;
     activeIndex := -1;
     gradPalette := [];
     gradCurrent := initialChannels;
     bgFastUntil := Num 0;
     tweens := [] |}.

Definition created (n : nat) (innerWidth : number) : carousel :=
  Carousel.created n CARD_W0 innerWidth.

Definition measure := Carousel.measure.

Definition updateCarouselTransforms (Math_pow : number -> number -> number) :=
  Carousel.updateCarouselTransforms Math_pow MIN_SCALE SCALE_RANGE BLUR_COEF
    isCore (gradient channels) activeIndex setActiveGradient.

Definition frames (Math_pow : number -> number -> number) :=
  Carousel.frames Math_pow MIN_SCALE SCALE_RANGE BLUR_COEF
    isCore (gradient channels) activeIndex setActiveGradient.

Definition tick (Math_pow : number -> number -> number) :=
  Carousel.tick Math_pow MIN_SCALE SCALE_RANGE BLUR_COEF
    isCore (gradient channels) activeIndex setActiveGradient.

Definition onResize (Math_pow : number -> number -> number) :=
  Carousel.onResize Math_pow MIN_SCALE SCALE_RANGE BLUR_COEF
    isCore (gradient channels) activeIndex setActiveGradient.

End ScriptEntry.

(** ** The four-colour variant *)

Module FourColour.

Definition CARD_W0 : number := Num 320.
Definition MIN_SCALE : number := Num 0.8.
Definition SCALE_RANGE : number := Num 0.20.
Definition BLUR_COEF : number := Num 3.

(** [i === closestIdx]. *)
Definition isCore (i closestIdx : Z) (prevIdx nextIdx : number) : bool :=
  (i =? closestIdx)%Z.

(** The bins of positive weight, in increasing index order. *)
Definition nonEmpty (acc : bins) : list Z :=
  filter (fun i => Qltb 0 (at_ (wSum acc) i)) binIndices.

(** [indices.sort((a, b) => wSum[b] - wSum[a])]: the stable sort by
    decreasing weight, as an insertion sort. *)
Fixpoint insert (w : list Q) (i : Z) (sorted : list Z) : list Z :=
  match sorted with
  | [] => [i]
  | j :: rest =>
      if Qltb (at_ w i) (at_ w j) then j :: insert w i rest
      else i :: sorted
  end.

Definition sortByWeight (w : list Q) (indices : list Z) : list Z :=
  fold_right (insert w) [] indices.

Definition minHueGap : Q := 32.

(** [ok] of the selection loop: no hue already picked lies within
    [minHueGap] of the hue of bin [i]. *)
Definition spaced (picks : list Z) (i : Z) : bool :=
  forallb (fun p => negb (Qltb (hueDist (hueOf i) (hueOf p)) minHueGap)) picks.

(** The selection loop over the sorted indices still to visit. *)
Fixpoint pickLoop (w : list Q) (refWeight : Q) (indices picks : list Z)
  : list Z :=
  match indices with
  | [] => picks
  | i :: rest =>
      if (4 <=? length picks)%nat then picks
      else if Qltb (at_ w i) (refWeight * 0.22) then picks
      else pickLoop w refWeight rest
             (if spaced picks i then picks ++ [i] else picks)
  end.

(** The picks of a histogram with at least one non-empty bin. *)
Definition picksOf (acc : bins) : list Z :=
  let indices := sortByWeight (wSum acc) (nonEmpty acc) in
  let top := at_ (wSum acc) (nth 0 indices 0%Z) in
  let refWeight := if Qeq_bool top 0 then 1e-6 else top in
  pickLoop (wSum acc) refWeight indices [].

Definition toRGBFromIdx (acc : bins) (i : Z) (L : Q) : rgb :=
  let '(r, g, b) := rgbQ (avgRGB acc i) in
  let '(h, s, _) := rgbToHsl r g b in
  let s := clamp (s * 0.92) 0.30 0.78 in
  hslToRgb h s L.

(** [extractColors] on the image data read back from the canvas; [None]
    stands for an exception thrown while drawing or reading. *)
Definition extractColors (data : option (list byte)) (idx : Z) : palette :=
  match data with
  | None => fallbackFromIndex idx
  | Some data =>
      let acc := sample data emptyBins in
      match nonEmpty acc with
      | [] => fallbackFromIndex idx
      | _ :: _ =>
          match picksOf acc with
          | [] => fallbackFromIndex idx
          | pIdx :: more =>
              let sIdx := nth 0 more pIdx in
              let tIdx := nth 1 more pIdx in
              let uIdx := nth 2 more pIdx in
              {| c1 := toRGBFromIdx acc pIdx 0.50;
                 c2 := toRGBFromIdx acc sIdx 0.68;
                 c3 := Some (toRGBFromIdx acc tIdx 0.60);
                 c4 := Some (toRGBFromIdx acc uIdx 0.72) |}
          end
      end
  end.

Definition mixW (c : Z) (t : Q) : Z :=
  Qround_half_up (inject_Z c + (255 - inject_Z c) * t).

Definition mixRGB (c : rgb) (t : Q) : rgb :=
  (mixW (red c) t, mixW (green c) t, mixW (blue c) t).

(** [buildPalette], given the image data of every card. *)
Definition buildPalette (imgs : list (option (list byte))) : list palette :=
  map (fun '(i, img) =>
         let pal := extractColors img (Z.of_nat i) in
         match c3 pal, c4 pal with
         | Some _, Some _ => pal
         | _, _ =>
             {| c1 := c1 pal; c2 := c2 pal;
                c3 := Some (mixRGB (c1 pal) 0.10);
                c4 := Some (mixRGB (c2 pal) 0.15) |}
         end)
      (combine (seq 0 (length imgs)) imgs).

(** The twelve channels of [gradCurrent]. *)
Record channels : Type := mkChannels {
  r1 : Q; g1 : Q; b1 : Q;
  r2 : Q; g2 : Q; b2 : Q;
  r3 : Q; g3 : Q; b3 : Q;
  r4 : Q; g4 : Q; b4 : Q
}.

Definition initialChannels : channels :=
  {| r1 := 240; g1 := 240; b1 := 240;
     r2 := 235; g2 := 235; b2 := 235;
     r3 := 248; g3 := 248; b3 := 248;
     r4 := 245; g4 := 245; b4 := 245 |}.

Definition defaultPalette : palette :=
  {| c1 := (240, 240, 240)%Z; c2 := (235, 235, 235)%Z;
     c3 := Some (248, 248, 248)%Z; c4 := Some (245, 245, 245)%Z |}.

(** [pal.c3 ? pal.c3[k] : Math.round(pal.c1[k] + (255 - pal.c1[k]) * t)],
    for the three channels at once. *)
Definition accent (slot : option rgb) (base : rgb) (t : Q) : rgb :=
  match slot with
  | Some c => c
  | None => mixRGB base t
  end.

Definition setActiveGradient (now : number) (len : nat) (idx : Z)
  (g : gradient channels) : gradient channels :=
  if retargetRefused len idx g then g
  else
    let pal := paletteAt (gradPalette g) idx defaultPalette in
    let a3 := accent (c3 pal) (c1 pal) 0.10 in
    let a4 := accent (c4 pal) (c2 pal) 0.15 in
    let to :=
      {| r1 := inject_Z (red (c1 pal));
         g1 := inject_Z (green (c1 pal));
         b1 := inject_Z (blue (c1 pal));
         r2 := inject_Z (red (c2 pal));
         g2 := inject_Z (green (c2 pal));
         b2 := inject_Z (blue (c2 pal));
         r3 := inject_Z (red a3);
         g3 := inject_Z (green a3);
         b3 := inject_Z (blue a3);
         r4 := inject_Z (red a4);
         g4 := inject_Z (green a4);
         b4 := inject_Z (blue a4) |} in
    if gsap g then
      {| bgCtx := bgCtx g; gsap := gsap g;
         activeIndex := idx;
         gradPalette := gradPalette g;
         gradCurrent := gradCurrent g;
         bgFastUntil := (now + Num 800)%js;
         tweens := tweens g ++ [mkTween to 0.55] |}
    else
      {| bgCtx := bgCtx g; gsap := gsap g;
         activeIndex := idx;
         gradPalette := gradPalette g;
         gradCurrent := to;
         bgFastUntil := bgFastUntil g;
         tweens := tweens g |}.

(** The gradient globals when the script starts. *)
Definition initialGradient (ctx tweening : bool) : gradient channels :=
  {| bgCtx := ctx; gsap := tweening;
     activeIndex := -1;
     gradPalette := [];
     gradCurrent := initialChannels;
     bgFastUntil := Num 0;
     tweens := [] |}.

Definition created (n : nat) (innerWidth : number) : carousel :=
  Carousel.created n CARD_W0 innerWidth.

Definition measure := Carousel.measure.

Definition updateCarouselTransforms (Math_pow : number -> number -> number) :=
  Carousel.updateCarouselTransforms Math_pow MIN_SCALE SCALE_RANGE BLUR_COEF
    isCore (gradient channels) activeIndex setActiveGradient.

Definition frames (Math_pow : number -> number -> number) :=
  Carousel.frames Math_pow MIN_SCALE SCALE_RANGE BLUR_COEF
    isCore (gradient channels) activeIndex setActiveGradient.

Definition tick (Math_pow : number -> number -> number) :=
  Carousel.tick Math_pow MIN_SCALE SCALE_RANGE BLUR_COEF
    isCore (gradient channels) activeIndex setActiveGradient.

Definition onResize (Math_pow : number -> number -> number) :=
  Carousel.onResize Math_pow MIN_SCALE SCALE_RANGE BLUR_COEF
    isCore (gradient channels) activeIndex setActiveGradient.

End FourColour.

(** ** Auxiliary definitions for the statements *)

(** The wrapped position on rationals: what [Carousel.wrap] computes on
    finite operands. *)
Definition wrapQ (L s x : Q) : Q :=
  let half := L / 2 in
  let pos := x - s in
  let pos := if Qltb pos (- half) then pos + L else pos in
  if Qltb half pos then pos - L else pos.

(** Every RGBA pixel of the image data passes the test [p]. *)
Fixpoint allPixels (p : byte -> byte -> byte -> byte -> bool)
  (data : list byte) : bool :=
  match data with
  | r :: g :: b :: a :: rest => p r g b a && allPixels p rest
  | _ => true
  end.

(** Every pixel is skipped by the sampling loop; is fully transparent; is
    gray. *)
Definition allSkipped : list byte -> bool := allPixels skipped.

Definition allTransparent : list byte -> bool :=
  allPixels (fun _ _ _ a => Byte.eqb a x00).

Definition allGray : list byte -> bool :=
  allPixels (fun r g b _ => Byte.eqb r g && Byte.eqb g b).

(** A run of retarget calls, each with its clock reading and its index. *)
Definition retargets {channels : Type}
  (setActiveGradient : number -> nat -> Z -> gradient channels
                       -> gradient channels)
  (len : nat) (calls : list (number * Z)) (g : gradient channels)
  : gradient channels :=
  fold_left (fun g '(now, idx) => setActiveGradient now len idx g) calls g.

(** A rational stand-in for [Math.pow], exact at integer exponents: the
    exponent is rounded up to an integer. *)
Definition powCeil (b e : number) : number :=
  match b, e with
  | Num x, Num y => Num (x ^ Qceiling y)
  | _, _ => NaN
  end.

(** The elapsed time a frame at [t] computes from the last time stamp. *)
Definition elapsed (last t : number) : number :=
  if truthy last then ((t - last) / Num 1000)%js else Num 0.

(** What the frame needs of the state it starts from: a finite track length
    [L] and finite offset, velocity and last time stamp. *)
Definition settled (L : Q) (c : carousel) : Prop :=
  TRACK c = Num L
  /\ exists s v last,
       SCROLL_X c = Num s /\ vX c = Num v /\ lastTime c = Num last.

(** An infinity or NaN. *)
Definition nonfinite (n : number) : Prop :=
  match n with
  | Num _ => False
  | _ => True
  end.

(** A base offset within the track, and a position within half a track of
    the centre. *)
Definition based (L : Q) (x : number) : Prop :=
  exists q, x = Num q /\ 0 <= q /\ q < L.

Definition centred (L : Q) (p : number) : Prop :=
  exists q, p = Num q /\ - (L / 2) <= q /\ q <= L / 2.

(** Finite time stamps, each with the clock reading of its frame. *)
Definition stamped (stamps : list (Q * number)) : list (number * number) :=
  map (fun '(t, now) => (Num t, now)) stamps.

(** Time stamps that never run backwards, from [last] on. *)
Fixpoint ascending (last : Q) (stamps : list (Q * number)) : Prop :=
  match stamps with
  | [] => True
  | (t, _) :: rest => last <= t /\ ascending t rest
  end.

(** The velocity alone along a run of frames: [v] is the velocity and [last]
    the time stamp of the frame before. *)
Fixpoint coast (Math_pow : number -> number -> number) (v last : number)
  (stamps : list (number * number)) : number :=
  match stamps with
  | [] => v
  | (t, _) :: rest =>
      coast Math_pow (Carousel.decayed Math_pow v (elapsed last t)) t rest
  end.

(** The entries of an array with their indices, counted from [i]. *)
Fixpoint indexedFrom {A : Type} (i : Z) (l : list A) : list (Z * A) :=
  match l with
  | [] => []
  | a :: rest => (i, a) :: indexedFrom (i + 1)%Z rest
  end.

(** [prevIdx] and [nextIdx] of a frame whose nearest card is [closestIdx],
    among [len] cards. *)
Definition prevIdx_of (closestIdx : Z) (len : number) : number :=
  ((of_Z closestIdx - Num 1 + len) %% len)%js.

Definition nextIdx_of (closestIdx : Z) (len : number) : number :=
  ((of_Z closestIdx + Num 1) %% len)%js.

(** Two bins whose hues are at least [minHueGap] apart. *)
Definition apart (p q : Z) : Prop :=
  FourColour.minHueGap <= hueDist (hueOf p) (hueOf q).

(** What the selection loop maintains of the picks made so far. *)
Definition wellPicked (w : list Q) (refWeight : Q) (pool picks : list Z)
  : Prop :=
  ForallOrdPairs apart picks
  /\ Forall (fun p => In p pool /\ refWeight * 0.22 <= at_ w p) picks
  /\ (length picks <= 4)%nat.

(** Bin [a] weighs at least as much as bin [b]. *)
Definition heavier (w : list Q) (a b : Z) : Prop := at_ w b <= at_ w a.

(** A colour rendered as the specification words it: converted to hue and
    saturation, the saturation scaled by [k] and clamped into [[lo, hi]], and
    painted at lightness [L]. *)
Definition rendered (c : rgb) (k lo hi L : Q) : rgb :=
  let '(r, g, b) := rgbQ c in
  let '(h, s, _) := rgbToHsl r g b in
  hslToRgb h (clamp (s * k) lo hi) L.

(** ** Sample inputs *)

(** Four cards 300 px wide in a window 600 px wide (two-colour variant), and
    ten cards 320 px wide in a window 1200 px wide (four-colour variant),
    both once measured. *)
Definition fourCards : carousel :=
  ScriptEntry.measure (Num 300) (Num 400) (ScriptEntry.created 4 (Num 600)).

Definition tenCards : carousel :=
  FourColour.measure (Num 320) (Num 400) (FourColour.created 10 (Num 1200)).

(** The ten cards after a fling: velocity 5, last frame at 1000 ms. *)
Definition flung : carousel :=
  {| items := items tenCards;
     positions := positions tenCards;
     styles := styles tenCards;
     lastTime := Num 1000;
     VW_HALF := VW_HALF tenCards;
     CARD_W := CARD_W tenCards;
     CARD_H := CARD_H tenCards;
     STEP := STEP tenCards;
     TRACK := TRACK tenCards;
     SCROLL_X := SCROLL_X tenCards;
     vX := Num 5 |}.

(** [n] frames one sixtieth of a second apart, after [t] (in ms). *)
Fixpoint sixtieths (n : nat) (t : Q) : list (Q * number) :=
  match n with
  | O => []
  | S m => let t' := Qred (t + (50 # 3)) in (t', Num t') :: sixtieths m t'
  end.

(** One opaque pure red pixel; the same followed by an opaque orange one; a
    transparent pixel followed by a gray one. *)
Definition redPixel : list byte := [xff; x00; x00; xff].

Definition redOrange : list byte :=
  [xff; x00; x00; xff; xff; x80; x00; xff].

Definition clearGray : list byte :=
  [x12; x34; x56; x00; x80; x80; x80; xff].

(** ** Input handlers, resume, canvas and warm-up

    The rest of the code that works on the carousel globals: the wheel and
    pointer listeners, the restart of the animation loop, the sizing and the
    throttle of the background canvas, and the warm-up pass. *)

Definition Math_floor (a : number) : number :=
  match a with
  | Num x => of_Z (Qfloor x)
  | _ => a
  end.

Definition Math_ceil (a : number) : number :=
  match a with
  | Num x => of_Z (Qceiling x)
  | _ => a
  end.

(** The assignments [SCROLL_X = s], [vX = v] and [lastTime = t]. *)
Definition withScroll (c : carousel) (s : number) : carousel :=
  {| items := items c; positions := positions c; styles := styles c;
     lastTime := lastTime c; VW_HALF := VW_HALF c; CARD_W := CARD_W c;
     CARD_H := CARD_H c; STEP := STEP c; TRACK := TRACK c;
     SCROLL_X := s; vX := vX c |}.

Definition withVelocity (c : carousel) (v : number) : carousel :=
  {| items := items c; positions := positions c; styles := styles c;
     lastTime := lastTime c; VW_HALF := VW_HALF c; CARD_W := CARD_W c;
     CARD_H := CARD_H c; STEP := STEP c; TRACK := TRACK c;
     SCROLL_X := SCROLL_X c; vX := v |}.

Definition withLastTime (c : carousel) (t : number) : carousel :=
  {| items := items c; positions := positions c; styles := styles c;
     lastTime := t; VW_HALF := VW_HALF c; CARD_W := CARD_W c;
     CARD_H := CARD_H c; STEP := STEP c; TRACK := TRACK c;
     SCROLL_X := SCROLL_X c; vX := vX c |}.

(** The globals of the input section: the entry flag and the drag state. *)
Record pointer : Type := mkPointer {
  isEntering : bool;
  dragging : bool;
  lastX : number;
  lastT : number;
  lastDelta : number
}.

Definition DRAG_SENS : number := Num 1.0.

Module Input.

(** [WHEEL_SENS] of the two-colour and of the four-colour variant. *)
Definition WHEEL_SENS_two : number := Num 1.0.
Definition WHEEL_SENS_four : number := Num 0.6.

(** The wheel listener on an event with the deltas [deltaX] and [deltaY]. *)
Definition onWheel (WHEEL_SENS deltaX deltaY : number) (p : pointer)
  (c : carousel) : carousel :=
  if isEntering p then c
  else
    let delta :=
      if (Math_abs deltaX >? Math_abs deltaY)%js then deltaX else deltaY in
    withVelocity c (vX c + delta * WHEEL_SENS * Num 20)%js.

(** The [pointerdown] listener at [clientX], the clock reading [now]. *)
Definition onPointerDown (clientX now : number) (p : pointer) : pointer :=
  if isEntering p then p
  else
    {| isEntering := isEntering p; dragging := true;
       lastX := clientX; lastT := now; lastDelta := Num 0 |}.

(** The [pointermove] listener. *)
Definition onPointerMove (clientX now : number) (p : pointer) (c : carousel)
  : pointer * carousel :=
  if negb (dragging p) then (p, c)
  else
    let dx := (clientX - lastX p)%js in
    let dt := (Math_max (Num 1) (now - lastT p) / Num 1000)%js in
    ({| isEntering := isEntering p; dragging := dragging p;
        lastX := clientX; lastT := now; lastDelta := (dx / dt)%js |},
     withScroll c (mod_ (SCROLL_X c - dx * DRAG_SENS)%js (TRACK c))).

(** The [pointerup] listener. *)
Definition onPointerUp (p : pointer) (c : carousel) : pointer * carousel :=
  if negb (dragging p) then (p, c)
  else
    ({| isEntering := isEntering p; dragging := false;
        lastX := lastX p; lastT := lastT p; lastDelta := lastDelta p |},
     withVelocity c (- lastDelta p * DRAG_SENS)%js).

End Input.

(** [startCarousel] resets [lastTime]; the callback it schedules updates the
    transforms and runs a first frame at the time stamp [t].  [now] and
    [now'] are the clock readings of the two steps. *)
Section Resume.

Variable Math_pow : number -> number -> number.
Variables MIN_SCALE SCALE_RANGE BLUR_COEF : number.
Variable isCore : Z -> Z -> number -> number -> bool.
Variable gradient : Type.
Variable activeIndex : gradient -> Z.
Variable setActiveGradient : number -> nat -> Z -> gradient -> gradient.

Definition startCarousel (t now now' : number) (c : carousel) (g : gradient)
  : carousel * gradient :=
  let c0 := withLastTime c (Num 0) in
  let '(c1, g1) :=
    Carousel.updateCarouselTransforms Math_pow MIN_SCALE SCALE_RANGE
      BLUR_COEF isCore gradient activeIndex setActiveGradient now c0 g in
  Carousel.tick Math_pow MIN_SCALE SCALE_RANGE BLUR_COEF isCore gradient
    activeIndex setActiveGradient t now' c1 g1.

(** The loop of [warmupCompositing] from step [i] on, [n] steps to go: every
    step scrolls to [originalScrollX + i * stepSize] and updates.  The
    animation frames the loop awaits every third step are taken to run no
    other handler. *)
Fixpoint warmupLoop (n : nat) (i : Z) (originalScrollX stepSize now : number)
  (c : carousel) (g : gradient) : carousel * gradient :=
  match n with
  | O => (c, g)
  | S m =>
      let c' :=
        withScroll c
          (mod_ (originalScrollX + of_Z i * stepSize)%js (TRACK c)) in
      let '(c1, g1) :=
        Carousel.updateCarouselTransforms Math_pow MIN_SCALE SCALE_RANGE
          BLUR_COEF isCore gradient activeIndex setActiveGradient now c' g in
      warmupLoop m (i + 1)%Z originalScrollX stepSize now c1 g1
  end.

(** The number of turns of [for (let i = 0; i < numSteps; i++)]: none when
    [numSteps] is NaN or not positive; [None] when it is infinite and the
    loop does not end. *)
Definition turns (numSteps : number) : option nat :=
  match numSteps with
  | Num q => Some (Z.to_nat (Qceiling q))
  | Infinity => None
  | _ => Some O
  end.

(** [warmupCompositing]; [None] when its loop does not end. *)
Definition warmupCompositing (now : number) (c : carousel) (g : gradient)
  : option (carousel * gradient) :=
  let originalScrollX := SCROLL_X c in
  let stepSize := (STEP c * Num 0.5)%js in
  let numSteps := Math_ceil (TRACK c / stepSize)%js in
  match turns numSteps with
  | None => None
  | Some n =>
      let '(c1, g1) := warmupLoop n 0%Z originalScrollX stepSize now c g in
      Some
        (Carousel.updateCarouselTransforms Math_pow MIN_SCALE SCALE_RANGE
           BLUR_COEF isCore gradient activeIndex setActiveGradient now
           (withScroll c1 originalScrollX) g1)
  end.

End Resume.

(** The backing store of the background canvas. *)
Record canvas : Type := mkCanvas {
  width : number;
  height : number;
  ratio : number
}.

(** [Math.max(1, Math.min(2, window.devicePixelRatio || 1))]. *)
Definition pixelRatio (devicePixelRatio : number) : number :=
  Math_max (Num 1) (Math_min (Num 2) (devicePixelRatio || Num 1)%js).

(** [resizeBG] for a canvas with a context, given the logical size [w], [h]
    read from the page and the device pixel ratio. *)
Definition resizeBG (devicePixelRatio w h : number) (cv : canvas) : canvas :=
  let dpr := pixelRatio devicePixelRatio in
  let tw := Math_floor (w * dpr)%js in
  let th := Math_floor (h * dpr)%js in
  if negb (width cv === tw)%js || negb (height cv === th)%js
  then {| width := tw; height := th; ratio := dpr |}
  else cv.

(** The throttle that opens [drawBackground]: at the clock reading [now] it
    paints, and records the time in [lastBgDraw], unless the last paint is
    less than [minInterval] old.  The result is the new [lastBgDraw] and
    whether it painted. *)
Definition minInterval (now bgFastUntil : number) : number :=
  if (now <? bgFastUntil)%js then Num 16 else Num 33.

Definition drawBackground (now bgFastUntil lastBgDraw : number)
  : number * bool :=
  if (now - lastBgDraw <? minInterval now bgFastUntil)%js
  then (lastBgDraw, false)
  else (now, true).

(** Two carousel states that agree on everything a frame reads: all the
    globals but [positions] and [styles], which it overwrites. *)
Definition sameInputs (c1 c2 : carousel) : Prop :=
  items c1 = items c2 /\ lastTime c1 = lastTime c2
  /\ VW_HALF c1 = VW_HALF c2 /\ CARD_W c1 = CARD_W c2
  /\ CARD_H c1 = CARD_H c2 /\ STEP c1 = STEP c2 /\ TRACK c1 = TRACK c2
  /\ SCROLL_X c1 = SCROLL_X c2 /\ vX c1 = vX c2.

(** A colour with its three channels in [[0, 255]]. *)
Definition byteColour (c : rgb) : Prop :=
  (0 <= red c <= 255 /\ 0 <= green c <= 255 /\ 0 <= blue c <= 255)%Z.

(** What the sampling loop keeps true of its four arrays: [SIZE] entries
    each, no negative weight, and in every bin each channel sum between 0
    and 255 times the weight of the bin. *)
Definition histogram (acc : bins) : Prop :=
  length (wSum acc) = Z.to_nat SIZE
  /\ length (rSum acc) = Z.to_nat SIZE
  /\ length (gSum acc) = Z.to_nat SIZE
  /\ length (bSum acc) = Z.to_nat SIZE
  /\ forall i : Z,
       0 <= at_ (wSum acc) i
       /\ 0 <= at_ (rSum acc) i <= 255 * at_ (wSum acc) i
       /\ 0 <= at_ (gSum acc) i <= 255 * at_ (wSum acc) i
       /\ 0 <= at_ (bSum acc) i <= 255 * at_ (wSum acc) i.

(** What the scan for the primary bin holds after the bins [seen], [f]
    giving the weights: the lowest index among the bins of greatest weight,
    with that weight, or [(-1, 0)] when no bin has positive weight. *)
Definition leader (f : Z -> Q) (seen : list Z) (best : Z * Q) : Prop :=
  (best = ((-1)%Z, 0) /\ forall j, In j seen -> f j <= 0)
  \/ (In (fst best) seen /\ snd best = f (fst best) /\ 0 < snd best
      /\ (forall j, In j seen -> f j <= snd best)
      /\ (forall j, In j seen -> (j < fst best)%Z -> f j < snd best)).

(** A palette whose colours all have their channels in [[0, 255]]. *)
Definition bytePalette (p : palette) : Prop :=
  byteColour (c1 p) /\ byteColour (c2 p)
  /\ (forall c, c3 p = Some c -> byteColour c)
  /\ (forall c, c4 p = Some c -> byteColour c).

(** ** Gradient targets and the start-up sequence *)

(** The object [to] of [setActiveGradient], in each variant. *)
Definition twoColourTarget (pal : palette) : ScriptEntry.channels :=
  {| ScriptEntry.r1 := inject_Z (red (c1 pal));
     ScriptEntry.g1 := inject_Z (green (c1 pal));
     ScriptEntry.b1 := inject_Z (blue (c1 pal));
     ScriptEntry.r2 := inject_Z (red (c2 pal));
     ScriptEntry.g2 := inject_Z (green (c2 pal));
     ScriptEntry.b2 := inject_Z (blue (c2 pal)) |}.

Definition fourColourTarget (pal : palette) : FourColour.channels :=
  let a3 := FourColour.accent (c3 pal) (c1 pal) 0.10 in
  let a4 := FourColour.accent (c4 pal) (c2 pal) 0.15 in
  {| FourColour.r1 := inject_Z (red (c1 pal));
     FourColour.g1 := inject_Z (green (c1 pal));
     FourColour.b1 := inject_Z (blue (c1 pal));
     FourColour.r2 := inject_Z (red (c2 pal));
     FourColour.g2 := inject_Z (green (c2 pal));
     FourColour.b2 := inject_Z (blue (c2 pal));
     FourColour.r3 := inject_Z (red a3);
     FourColour.g3 := inject_Z (green a3);
     FourColour.b3 := inject_Z (blue a3);
     FourColour.r4 := inject_Z (red a4);
     FourColour.g4 := inject_Z (green a4);
     FourColour.b4 := inject_Z (blue a4) |}.

(** The assignment [gradPalette = ...] that ends [buildPalette]. *)
Definition withPalette {channels : Type} (g : gradient channels)
  (pals : list palette) : gradient channels :=
  {| bgCtx := bgCtx g; gsap := gsap g; activeIndex := activeIndex g;
     gradPalette := pals; gradCurrent := gradCurrent g;
     bgFastUntil := bgFastUntil g; tweens := tweens g |}.

(** The search of [init] for the card nearest the centre.  It is the scan of
    [updateCarouselTransforms], but it starts from index 0, not -1, and
    writes no position. *)
Definition initClosest (c : carousel) : Z :=
  fst (snd (Carousel.wrapLoop (TRACK c) (SCROLL_X c) (items c) 0%Z
              (0%Z, Infinity))).

(** [init] from [measure()] to [setActiveGradient(closestIdx)], on the
    globals [createCards] left: the first update, the palettes [pals] that
    [buildPalette] extracted, the search and the retarget.  The awaited
    loading and decoding of the images in between touch none of the globals
    modelled. *)
Section Init.

Variable Math_pow : number -> number -> number.
Variables MIN_SCALE SCALE_RANGE BLUR_COEF : number.
Variable isCore : Z -> Z -> number -> number -> bool.
Variable channels : Type.
Variable setActiveGradient :
  number -> nat -> Z -> gradient channels -> gradient channels.

Definition init (width height now now' : number) (pals : list palette)
  (c : carousel) (g : gradient channels) : carousel * gradient channels :=
  let m := Carousel.measure width height c in
  let '(c1, g1) :=
    Carousel.updateCarouselTransforms Math_pow MIN_SCALE SCALE_RANGE
      BLUR_COEF isCore (gradient channels) activeIndex setActiveGradient
      now m g in
  let g2 := withPalette g1 pals in
  (c1, setActiveGradient now' (length (items c1)) (initClosest c1) g2).

End Init.

(** ** Runs of input events and of background frames *)

Inductive event : Type :=
| Wheel (deltaX deltaY : number)
| PointerDown (clientX now : number)
| PointerMove (clientX now : number)
| PointerUp.

(** The listener an event reaches, on the input globals and the carousel;
    [handleAll] is a run of events, one listener after the other. *)
Definition handle (WHEEL_SENS : number) (e : event) (st : pointer * carousel)
  : pointer * carousel :=
  match e with
  | Wheel deltaX deltaY =>
      (fst st, Input.onWheel WHEEL_SENS deltaX deltaY (fst st) (snd st))
  | PointerDown clientX now =>
      (Input.onPointerDown clientX now (fst st), snd st)
  | PointerMove clientX now =>
      Input.onPointerMove clientX now (fst st) (snd st)
  | PointerUp => Input.onPointerUp (fst st) (snd st)
  end.

Definition handleAll (WHEEL_SENS : number) (events : list event)
  (st : pointer * carousel) : pointer * carousel :=
  fold_left (fun st e => handle WHEEL_SENS e st) events st.

(** The input globals when the script starts. *)
Definition initialPointer : pointer :=
  {| isEntering := true; dragging := false;
     lastX := Num 0; lastT := Num 0; lastDelta := Num 0 |}.

(** A drag: the pointer goes down at [x0] and moves through [moves]. *)
Definition dragEvents (x0 : Q) (now : number) (moves : list (Q * number))
  : list event :=
  PointerDown (Num x0) now
  :: map (fun '(x, t) => PointerMove (Num x) t) moves.

(** The background loop: [drawBackground] reschedules itself, so its calls
    run one after the other, each with its clock reading and the value of
    [bgFastUntil] it finds.  The result is the list of the clock readings at
    which it painted. *)
Fixpoint backgroundRun (calls : list (number * number))
  (lastBgDraw : number) : list number :=
  match calls with
  | [] => []
  | (now, fastUntil) :: rest =>
      let '(last, painted) := drawBackground now fastUntil lastBgDraw in
      if painted then now :: backgroundRun rest last
      else backgroundRun rest last
  end.

Definition finiteCalls (calls : list (Q * number)) : list (number * number) :=
  map (fun '(t, fastUntil) => (Num t, fastUntil)) calls.

(** ** The sampling canvas *)

(** [a >= b] on numbers. *)
Definition ge (a b : number) : bool :=
  match a, b with
  | NaN, _ | _, NaN => false
  | _, _ => negb (lt a b)
  end.

(** The size [tw], [th] of the canvas [extractColors] samples an image of
    [naturalWidth] by [naturalHeight] pixels on. *)
Definition sampleSize (naturalWidth naturalHeight : number)
  : number * number :=
  let MAX := Num 48 in
  let ratio :=
    if truthy naturalWidth && truthy naturalHeight
    then (naturalWidth / naturalHeight)%js else Num 1 in
  let tw :=
    if ge ratio (Num 1) then MAX
    else Math_max (Num 16) (Math_round (MAX * ratio)%js) in
  let th :=
    if ge ratio (Num 1) then Math_max (Num 16) (Math_round (MAX / ratio)%js)
    else MAX in
  (tw, th).

(** What a run of retargets keeps true of the gradient state [g] it has
    reached from [g0], for [len] cards: context, library and palettes are
    those of [g0]; and either nothing was accepted, or the active index is a
    card index and the colours of that card's palette are the ones the
    background has (without the tweening library) or the target of the last
    tween started (with it). *)
Definition follows {channels : Type} (target : palette -> channels)
  (default : palette) (dur : Q) (len : nat) (g0 g : gradient channels)
  : Prop :=
  bgCtx g = bgCtx g0 /\ gsap g = gsap g0 /\ gradPalette g = gradPalette g0
  /\ (g = g0
      \/ (bgCtx g0 = true /\ (0 <= activeIndex g < Z.of_nat len)%Z
          /\ let to :=
               target (paletteAt (gradPalette g0) (activeIndex g) default) in
             if gsap g0
             then gradCurrent g = gradCurrent g0
                  /\ exists earlier,
                       tweens g = tweens g0 ++ earlier ++ [mkTween to dur]
             else gradCurrent g = to /\ tweens g = tweens g0
                  /\ bgFastUntil g = bgFastUntil g0)).

(** Times each at least [gap] after the one before, starting from [last]. *)
Fixpoint paced (gap last : Q) (ts : list Q) : Prop :=
  match ts with
  | [] => True
  | t :: rest => gap <= t - last /\ paced gap t rest
  end.

(** What holds of the result [r] of a frame started with the gradient state
    [g]: the card reported nearest is none (-1) or one of the cards; with a
    canvas context that card, when there is one, is the active one; without a
    context, without a nearest card, or when the nearest card is the active
    one already, the gradient state is untouched; so it is with a single
    card once that card is active. *)
Definition tracksNearest {channels : Type} (g : gradient channels)
  (r : carousel * gradient channels) : Prop :=
  let k := Carousel.closestIdx_of (fst r) in
  (k = (-1)%Z \/ (0 <= k < Z.of_nat (length (items (fst r))))%Z)
  /\ (bgCtx g = true -> (0 <= k)%Z -> activeIndex (snd r) = k)
  /\ (bgCtx g = false \/ k = (-1)%Z \/ k = activeIndex g -> snd r = g)
  /\ (length (items (fst r)) = 1%nat -> activeIndex g = 0%Z -> snd r = g).

(** ** What [drawBackground] paints

    Every radial gradient [createRadialGradient(x, y, 0, x, y, r)] of a paint
    at the clock reading [now], on a canvas of logical size [w] by [h]: its
    centre and its radius.  [Math.cos] and [Math.sin] have no rational
    counterpart and are parameters. *)
Record blob : Type := mkBlob {
  centreX : number;
  centreY : number;
  radius : number
}.

Section Paint.

Variables Math_cos Math_sin : number -> number.

Definition twoColourBlobs (now w h : number) : list blob :=
  let time := (now * Num 0.0002)%js in
  let cx := (w * Num 0.5)%js in
  let cy := (h * Num 0.5)%js in
  let a1 := (Math_min w h * Num 0.35)%js in
  let a2 := (Math_min w h * Num 0.28)%js in
  let x1 := (cx + Math_cos time * a1)%js in
  let y1 := (cy + Math_sin (time * Num 0.8) * a1 * Num 0.4)%js in
  let x2 := (cx + Math_cos ((- time) * Num 0.9 + Num 1.2) * a2)%js in
  let y2 := (cy + Math_sin ((- time) * Num 0.7 + Num 0.7) * a2 * Num 0.5)%js in
  let r1 := (Math_max w h * Num 0.75)%js in
  let r2 := (Math_max w h * Num 0.65)%js in
  [ {| centreX := x1; centreY := y1; radius := r1 |};
    {| centreX := x2; centreY := y2; radius := r2 |} ].

Definition fourColourBlobs (now w h : number) : list blob :=
  let time := (now * Num 0.00032)%js in
  let cx := (w * Num 0.5)%js in
  let cy := (h * Num 0.5)%js in
  let a1 := (Math_min w h * Num 0.36)%js in
  let a2 := (Math_min w h * Num 0.30)%js in
  let a3 := (Math_min w h * Num 0.24)%js in
  let a4 := (Math_min w h * Num 0.20)%js in
  let a5 := (Math_min w h * Num 0.26)%js in
  let a6 := (Math_min w h * Num 0.22)%js in
  let swirl := (time * Num 0.35)%js in
  let drift := (time * Num 0.22)%js in
  let sway := Num 0.15 in
  let pulse := (Num 0.92 + Num 0.08 * Math_sin (time * Num 1.8))%js in
  let x1 :=
    (cx + Math_cos (time + swirl + drift) * a1
          * (Num 1 + sway * Num 0.5))%js in
  let y1 :=
    (cy + Math_sin (time * Num 0.8 + swirl * Num 0.9 + drift * Num 0.7)
          * a1 * Num 0.45 * (Num 1 + sway * Num 0.5))%js in
  let x2 :=
    (cx + Math_cos ((- time) * Num 0.9 + Num 1.2 + swirl * Num 0.6
                    + drift * Num 0.6)
          * a2 * (Num 1 + sway * Num 0.4))%js in
  let y2 :=
    (cy + Math_sin ((- time) * Num 0.7 + Num 0.7 + swirl * Num 0.5
                    + drift * Num 0.5)
          * a2 * Num 0.5 * (Num 1 + sway * Num 0.4))%js in
  let x3 :=
    (cx + Math_cos (time * Num 1.6 + swirl * Num 0.4 + Num 0.7
                    + drift * Num 1.1)
          * a3 * (Num 1 + sway * Num 0.3))%js in
  let y3 :=
    (cy + Math_sin (time * Num 1.2 + swirl * Num 0.3 + Num 1.7
                    + drift * Num 0.9)
          * a3 * Num 0.6 * (Num 1 + sway * Num 0.3))%js in
  let x4 :=
    (cx + Math_cos ((- time) * Num 1.3 + swirl * Num 1.0 + Num 2.2
                    + drift * Num 0.8)
          * a4 * (Num 1 + sway * Num 0.2))%js in
  let y4 :=
    (cy + Math_sin ((- time) * Num 1.5 + swirl * Num 0.8 + Num 0.9
                    + drift * Num 0.6)
          * a4 * Num 0.7 * (Num 1 + sway * Num 0.2))%js in
  let x5 :=
    (cx + Math_cos (time * Num 1.1 + swirl * Num 0.6 + Num 1.3
                    - drift * Num 0.7)
          * a5 * (Num 1 + sway * Num 0.25))%js in
  let y5 :=
    (cy + Math_sin (time * Num 0.9 + swirl * Num 0.7 + Num 0.3
                    - drift * Num 0.5)
          * a5 * Num 0.55 * (Num 1 + sway * Num 0.25))%js in
  let x6 :=
    (cx + Math_cos ((- time) * Num 1.4 + swirl * Num 0.4 + Num 2.7
                    + drift * Num 0.4)
          * a6 * (Num 1 + sway * Num 0.22))%js in
  let y6 :=
    (cy + Math_sin ((- time) * Num 1.1 + swirl * Num 0.5 + Num 1.1
                    + drift * Num 0.3)
          * a6 * Num 0.6 * (Num 1 + sway * Num 0.22))%js in
  let rBase := Math_max w h in
  let r1 := (rBase * (Num 0.70 + Num 0.06 * pulse))%js in
  let r2 :=
    (rBase * (Num 0.60 + Num 0.05 * Math_cos (time * Num 1.4 + Num 0.5)))%js in
  let r3 := (rBase * (Num 0.50 + Num 0.06 * Math_sin (time * Num 1.8)))%js in
  let r4 :=
    (rBase * (Num 0.44 + Num 0.05 * Math_cos (time * Num 1.3 + Num 1.1)))%js in
  let r5 :=
    (rBase * (Num 0.40 + Num 0.05 * Math_sin (time * Num 1.1 + Num 0.8)))%js in
  let r6 :=
    (rBase * (Num 0.36 + Num 0.05 * Math_cos (time * Num 1.5 + Num 0.2)))%js in
  [ {| centreX := x1; centreY := y1; radius := r1 |};
    {| centreX := x2; centreY := y2; radius := r2 |};
    {| centreX := x3; centreY := y3; radius := r3 |};
    {| centreX := x4; centreY := y4; radius := r4 |};
    {| centreX := x5; centreY := y5; radius := r5 |};
    {| centreX := x6; centreY := y6; radius := r6 |} ].

End Paint.

(** A gradient with finite parameters, its centre on the canvas of size [w]
    by [h] and a radius between 0.3 times and once the longer side. *)
Definition onCanvas (w h : Q) (b : blob) : Prop :=
  exists x y r,
    centreX b = Num x /\ centreY b = Num y /\ radius b = Num r
    /\ 0 <= x <= w /\ 0 <= y <= h
    /\ 0.3 * Qmax w h <= r <= Qmax w h.

(** Rational stand-ins for [Math.cos] and [Math.sin]: the point of the unit
    circle with parameter [t], [((1 - t^2) / (1 + t^2), 2 t / (1 + t^2))]. *)
Definition unitCos (a : number) : number :=
  match a with
  | Num t => Num ((1 - t * t) / (1 + t * t))
  | _ => NaN
  end.

Definition unitSin (a : number) : number :=
  match a with
  | Num t => Num (2 * t / (1 + t * t))
  | _ => NaN
  end.

(** * Results *)

(** ** Rational arithmetic *)

Ltac qinv_consts :=
  unfold Qdiv in *;
  repeat match goal with
  | |- context [Qinv (?n # ?d)] =>
      let v := eval cbv in (Qinv (n # d)) in
      lazymatch v with (_ # _) => change (Qinv (n # d)) with v end
  | H : context [Qinv (?n # ?d)] |- _ =>
      let v := eval cbv in (Qinv (n # d)) in
      lazymatch v with (_ # _) => change (Qinv (n # d)) with v in H end
  end.

Ltac qlra := qinv_consts; lra.

Lemma Qltb_lt (a b : Q) : Qltb a b = true <-> a < b.
Proof.
  unfold Qltb. rewrite negb_true_iff.
  destruct (Qle_bool b a) eqn:E.
  - apply Qle_bool_iff in E. split; [discriminate | lra].
  - split; [intros _ | reflexivity].
    apply Qnot_le_lt. intro H. apply Qle_bool_iff in H. congruence.
Qed.

Lemma Qltb_ge (a b : Q) : Qltb a b = false <-> b <= a.
Proof.
  unfold Qltb. rewrite negb_false_iff. apply Qle_bool_iff.
Qed.

Lemma Qeq_bool_false (a b : Q) : ~ a == b -> Qeq_bool a b = false.
Proof.
  intro H. destruct (Qeq_bool a b) eqn:E; [|reflexivity].
  apply Qeq_bool_iff in E. contradiction.
Qed.

(** Case analysis on every comparison in sight. *)
Ltac qcases :=
  repeat match goal with
  | |- context [Qltb ?a ?b] =>
      let E := fresh "E" in
      destruct (Qltb a b) eqn:E;
      [apply Qltb_lt in E | apply Qltb_ge in E]
  | H : context [Qltb ?a ?b] |- _ =>
      let E := fresh "E" in
      destruct (Qltb a b) eqn:E;
      [apply Qltb_lt in E | apply Qltb_ge in E]
  end.

Lemma Qrem_nonneg (n m : Q) :
  0 < m -> 0 <= n -> 0 <= Qrem n m /\ Qrem n m < m.
Proof.
  intros Hm Hn. unfold Qrem, Qtrunc.
  assert (Hq : 0 <= n / m) by (apply Qle_shift_div_l; lra).
  assert (E : Qle_bool 0 (n / m) = true) by (apply Qle_bool_iff; exact Hq).
  rewrite E.
  pose proof (Qfloor_le (n / m)) as Hlo.
  pose proof (Qlt_floor (n / m)) as Hhi.
  rewrite inject_Z_plus in Hhi. change (inject_Z 1) with 1 in Hhi.
  assert (En : n == n / m * m) by (field; lra).
  set (f := inject_Z (Qfloor (n / m))) in *.
  set (q := n / m) in *.
  split; nra.
Qed.

Lemma Qrem_nonpos (n m : Q) :
  0 < m -> n <= 0 -> - m < Qrem n m /\ Qrem n m <= 0.
Proof.
  intros Hm Hn. unfold Qrem, Qtrunc.
  assert (En : n == n / m * m) by (field; lra).
  assert (Hq : n / m <= 0) by (apply Qle_shift_div_r; lra).
  destruct (Qle_bool 0 (n / m)) eqn:E.
  - apply Qle_bool_iff in E.
    assert (Z0 : n / m == 0) by lra.
    rewrite (Qfloor_comp _ _ Z0). change (inject_Z (Qfloor 0)) with 0.
    set (q := n / m) in *. split; nra.
  - pose proof (Qle_ceiling (n / m)) as Hlo.
    pose proof (Qceiling_lt (n / m)) as Hhi.
    unfold Z.sub in Hhi. rewrite inject_Z_plus in Hhi.
    change (inject_Z (- (1))) with (-1) in Hhi.
    set (f := inject_Z (Qceiling (n / m))) in *.
    set (q := n / m) in *.
    assert (D : n - m * f == m * (q - f)) by (rewrite En at 1; ring).
    rewrite D. split; nra.
Qed.

Lemma Qrem_abs_lt (n m : Q) : 0 < m -> - m < Qrem n m /\ Qrem n m < m.
Proof.
  intros Hm. destruct (Qlt_le_dec n 0) as [H|H].
  - destruct (Qrem_nonpos n m Hm) as [A B]; [lra|]. split; lra.
  - destruct (Qrem_nonneg n m Hm H) as [A B]. split; lra.
Qed.

(** The safe modulo lands in [[0, L)] on every finite operand. *)
Lemma mod_in_range (n L : Q) :
  0 < L -> exists r, mod_ (Num n) (Num L) = Num r /\ 0 <= r /\ r < L.
Proof.
  intros HL. unfold mod_. cbn [rem add].
  rewrite Qeq_bool_false by lra. cbn [rem add]. rewrite Qeq_bool_false by lra.
  eexists; split; [reflexivity|].
  destruct (Qrem_abs_lt n L HL) as [A B].
  apply Qrem_nonneg; lra.
Qed.

(** With a zero divisor it is NaN, whatever the dividend. *)
Lemma mod_zero (n : number) : mod_ n (Num 0) = NaN.
Proof. destruct n; reflexivity. Qed.

(** So it is on a dividend that is not finite. *)
Lemma mod_nonfinite (n m : number) : nonfinite n -> mod_ n m = NaN.
Proof. destruct n, m; cbn; tauto. Qed.

(** ** Wrapped positions *)

Lemma wrap_finite (L s x : Q) :
  Carousel.wrap (Num L) (Num s) (Num x) = Num (wrapQ L s x).
Proof.
  unfold Carousel.wrap, wrapQ. cbn.
  destruct (Qltb (x - s) (- (L / 2))); cbn;
    match goal with
    | |- context [Qltb ?a ?b] => destruct (Qltb a b)
    end; reflexivity.
Qed.

Lemma wrapQ_range (L s x : Q) :
  0 < L ->
  (- (L / 2) <= wrapQ L s x /\ wrapQ L s x <= L / 2)
  <-> (- (3 / 2 * L) <= x - s /\ x - s <= 3 / 2 * L).
Proof.
  intros HL. unfold wrapQ. cbv zeta.
  qcases; (split; intros [? ?]; split; qlra).
Qed.

(** ** The frame: fields it leaves alone, offset and velocity it writes *)

Section CarouselFacts.

Variable Math_pow : number -> number -> number.
Variables MIN_SCALE SCALE_RANGE BLUR_COEF : number.
Variable isCore : Z -> Z -> number -> number -> bool.
Variable gradient : Type.
Variable activeIndex : gradient -> Z.
Variable setActiveGradient : number -> nat -> Z -> gradient -> gradient.

#[local] Abbreviation update :=
  (Carousel.updateCarouselTransforms Math_pow MIN_SCALE SCALE_RANGE BLUR_COEF
     isCore gradient activeIndex setActiveGradient).
#[local] Abbreviation tick :=
  (Carousel.tick Math_pow MIN_SCALE SCALE_RANGE BLUR_COEF
     isCore gradient activeIndex setActiveGradient).
#[local] Abbreviation frames :=
  (Carousel.frames Math_pow MIN_SCALE SCALE_RANGE BLUR_COEF
     isCore gradient activeIndex setActiveGradient).
#[local] Abbreviation onResize :=
  (Carousel.onResize Math_pow MIN_SCALE SCALE_RANGE BLUR_COEF
     isCore gradient activeIndex setActiveGradient).

Lemma wrapLoop_positions track s its :
  forall i best,
    fst (Carousel.wrapLoop track s its i best)
    = map (Carousel.wrap track s) its.
Proof.
  induction its as [|x rest IH]; intros i best; cbn; [reflexivity|].
  specialize (IH (i + 1)%Z
    (if (Math_abs (Carousel.wrap track s x) <? snd best)%js
     then (i, Math_abs (Carousel.wrap track s x)) else best)).
  destruct (Carousel.wrapLoop track s rest _ _) as [ps r].
  cbn in *. now rewrite IH.
Qed.

Lemma update_carousel now c g :
  let c' := fst (update now c g) in
  items c' = items c
  /\ positions c' = map (Carousel.wrap (TRACK c) (SCROLL_X c)) (items c)
  /\ TRACK c' = TRACK c /\ SCROLL_X c' = SCROLL_X c /\ vX c' = vX c
  /\ lastTime c' = lastTime c /\ VW_HALF c' = VW_HALF c.
Proof.
  unfold Carousel.updateCarouselTransforms.
  pose proof (wrapLoop_positions (TRACK c) (SCROLL_X c) (items c) 0%Z
                (-1, Infinity)%Z) as P.
  destruct (Carousel.wrapLoop _ _ _ _ _) as [ps [k d]].
  cbn in *. subst ps. repeat split.
Qed.

Lemma tick_carousel t now c g :
  let c' := fst (tick t now c g) in
  let dt := elapsed (lastTime c) t in
  items c' = items c
  /\ TRACK c' = TRACK c
  /\ lastTime c' = t
  /\ SCROLL_X c' = mod_ (SCROLL_X c + vX c * dt)%js (TRACK c)
  /\ vX c' = Carousel.decayed Math_pow (vX c) dt.
Proof.
  unfold Carousel.tick.
  match goal with
  | |- context [update now ?c1 g] =>
      pose proof (update_carousel now c1 g) as U
  end.
  cbn zeta in *. cbn [items TRACK SCROLL_X vX lastTime VW_HALF] in U.
  destruct U as (A & _ & B & C & D & E & _).
  repeat split; assumption.
Qed.

Lemma tick_positions t now c g :
  let c' := fst (tick t now c g) in
  positions c' = map (Carousel.wrap (TRACK c) (SCROLL_X c')) (items c).
Proof.
  unfold Carousel.tick.
  match goal with
  | |- context [update now ?c1 g] =>
      destruct (update_carousel now c1 g) as (_ & P & _ & S & _)
  end.
  cbn zeta. rewrite P, S. reflexivity.
Qed.

(** With a zero track length the frame writes NaN, whatever the state. *)
Lemma tick_zero_track t now c g :
  TRACK c = Num 0 -> SCROLL_X (fst (tick t now c g)) = NaN.
Proof.
  intros HT. destruct (tick_carousel t now c g) as (_ & _ & _ & E & _).
  rewrite E, HT. apply mod_zero.
Qed.

Lemma frames_coast stamps :
  forall c g,
    vX (fst (frames stamps c g)) = coast Math_pow (vX c) (lastTime c) stamps.
Proof.
  induction stamps as [|[t now] rest IH]; intros c g; cbn [Carousel.frames coast];
    [reflexivity|].
  destruct (tick_carousel t now c g) as (_ & _ & EL & _ & EV).
  destruct (tick t now c g) as [c' g']. cbn [fst] in *.
  rewrite IH, EL, EV. reflexivity.
Qed.

Lemma elapsed_finite (last t : Q) :
  exists dt, elapsed (Num last) (Num t) = Num dt
             /\ (last <= t -> 0 <= dt).
Proof.
  unfold elapsed. cbn.
  destruct (Qeq_bool last 0); cbn; eexists; (split; [reflexivity|]);
    intros; qlra.
Qed.

(** The offset a frame writes is in range as soon as the track length is
    positive and the operands are finite. *)
Lemma tick_offset_in_range (L s v last t : Q) now c g :
  0 < L ->
  TRACK c = Num L -> SCROLL_X c = Num s -> vX c = Num v ->
  lastTime c = Num last ->
  exists s', SCROLL_X (fst (tick (Num t) now c g)) = Num s'
             /\ 0 <= s' /\ s' < L.
Proof.
  intros HL HT HS HV HLast.
  destruct (tick_carousel (Num t) now c g) as (_ & _ & _ & E & _).
  rewrite E, HT, HS, HV, HLast.
  destruct (elapsed_finite last t) as (dt & -> & _).
  cbn [add mul]. now apply mod_in_range.
Qed.

Lemma decayed_finite (v dt d : Q) :
  Math_pow (Num FRICTION) (Num (dt * 60)) = Num d ->
  Carousel.decayed Math_pow (Num v) (Num dt)
  = if Qltb (Qabs (v * d)) 0.02 then Num 0 else Num (v * d).
Proof.
  intros E. unfold Carousel.decayed. cbn [mul]. rewrite E. cbn [mul Math_abs lt].
  reflexivity.
Qed.

Section FinitePower.

Hypothesis pow_finite :
  forall e, exists d, Math_pow (Num FRICTION) (Num e) = Num d.

Lemma tick_settled (L t : Q) now c g :
  0 < L -> settled L c ->
  settled L (fst (tick (Num t) now c g))
  /\ exists s', SCROLL_X (fst (tick (Num t) now c g)) = Num s'
                /\ 0 <= s' /\ s' < L.
Proof.
  intros HL (HT & s & v & last & HS & HV & HLast).
  destruct (tick_offset_in_range L s v last t now c g HL HT HS HV HLast)
    as (s' & Hs' & Hr).
  split; [|now exists s'].
  destruct (tick_carousel (Num t) now c g) as (_ & ET & EL & _ & EV).
  split; [now rewrite ET|].
  rewrite HV, HLast in EV.
  destruct (elapsed_finite last t) as (dt & Edt & _). rewrite Edt in EV.
  destruct (pow_finite (dt * 60)) as (d & Ed).
  rewrite (decayed_finite v dt d Ed) in EV.
  exists s'. destruct (Qltb (Qabs (v * d)) 0.02); eauto.
Qed.

Lemma frames_settled (L : Q) stamps :
  0 < L -> forall c g, settled L c ->
  settled L (fst (frames (stamped stamps) c g))
  /\ (stamps <> [] ->
      exists s', SCROLL_X (fst (frames (stamped stamps) c g)) = Num s'
                 /\ 0 <= s' /\ s' < L).
Proof.
  intros HL. induction stamps as [|[t now] rest IH]; intros c g Hc.
  - split; [exact Hc | congruence].
  - cbn [stamped map Carousel.frames].
    destruct (tick_settled L t now c g HL Hc) as (Hc' & Hs').
    destruct (tick (Num t) now c g) as [c' g'] eqn:E. cbn [fst] in *.
    destruct (IH c' g' Hc') as (A & B). fold (stamped rest).
    split; [exact A|]. intros _.
    destruct rest as [|p rest'].
    + exact Hs'.
    + apply B. discriminate.
Qed.

Lemma wrap_centred (L s x : Q) :
  0 < L -> 0 <= s < L -> based L (Num x) ->
  centred L (Carousel.wrap (Num L) (Num s) (Num x)).
Proof.
  intros HL Hs (q & E & Hq). injection E as <-.
  exists (wrapQ L s x). split; [apply wrap_finite|].
  apply wrapQ_range; [exact HL|]. split; qlra.
Qed.

Lemma tick_centred (L t : Q) now c g :
  0 < L -> settled L c -> Forall (based L) (items c) ->
  Forall (centred L) (positions (fst (tick (Num t) now c g))).
Proof.
  intros HL Hc Hitems.
  destruct (tick_settled L t now c g HL Hc) as (_ & s' & Es & Hs').
  rewrite tick_positions, Es. destruct Hc as (-> & _).
  apply Forall_map. eapply Forall_impl; [|exact Hitems].
  intros x Hx. destruct Hx as (q & -> & Hq).
  apply wrap_centred; [exact HL | split; apply Hs' | now exists q].
Qed.

Lemma frames_centred (L : Q) stamps :
  0 < L -> forall c g,
    settled L c -> Forall (based L) (items c) -> stamps <> [] ->
    Forall (centred L) (positions (fst (frames (stamped stamps) c g))).
Proof.
  intros HL. induction stamps as [|[t now] rest IH]; intros c g Hc Hitems Hne;
    [congruence|].
  cbn [stamped map Carousel.frames]. fold (stamped rest).
  pose proof (tick_centred L t now c g HL Hc Hitems) as Hpos.
  destruct (tick_settled L t now c g HL Hc) as (Hc' & _).
  destruct (tick_carousel (Num t) now c g) as (EI & _).
  destruct (tick (Num t) now c g) as [c' g'] eqn:E. cbn [fst] in *.
  destruct rest as [|p rest'].
  - exact Hpos.
  - apply IH; [exact Hc' | now rewrite EI | discriminate].
Qed.


End FinitePower.

(** The resize handler on no cards: the ratio is a division by zero, and
    the offset it writes is NaN. *)
Lemma onResize_no_cards (s st : Q) width height innerWidth now c g :
  items c = [] -> SCROLL_X c = Num s -> STEP c = Num st ->
  SCROLL_X (fst (onResize width height innerWidth now c g)) = NaN.
Proof.
  intros HI HS HST. unfold Carousel.onResize.
  match goal with
  | |- context [update now ?c1 g] =>
      destruct (update_carousel now c1 g) as (_ & _ & _ & E & _)
  end.
  rewrite E. cbn [SCROLL_X]. unfold Carousel.measure. rewrite HI, HS, HST.
  apply mod_nonfinite.
  unfold length_of, of_Z, or_else. cbn [length truthy].
  destruct (negb (Qeq_bool st 0)); cbn [mul div];
    (rewrite (Qeq_eq_bool _ 0) by (cbn; ring));
    unfold scale_inf; destruct (Qeq_bool s 0); cbn;
    try (destruct (TRACK c); cbn; tauto);
    destruct (Qltb 0 s); cbn;
    destruct (TRACK c) as [q| | |]; cbn; try tauto;
    unfold scale_inf; destruct (Qeq_bool q 0); cbn; try tauto;
    destruct (Qltb 0 q); cbn; tauto.
Qed.

(** C8 (the code at the failing input).  With no cards the track length is
    zero, and neither the frame nor the resize handler guards it: both set
    the scroll offset to NaN. *)
Theorem degenerate_track_offset_NaN (card_w innerWidth : number) :
  forall t now width height innerWidth' g,
    let c := Carousel.created 0 card_w innerWidth in
    TRACK c = Num 0
    /\ SCROLL_X (fst (tick t now c g)) = NaN
    /\ SCROLL_X (fst (onResize width height innerWidth' now c g)) = NaN.
Proof.
  intros t now width height innerWidth' g c. split; [reflexivity|]. split.
  - now apply tick_zero_track.
  - unfold Carousel.onResize.
    match goal with
    | |- context [update now ?c1 g] =>
        destruct (update_carousel now c1 g) as (_ & _ & _ & E & _)
    end.
    rewrite E. cbn [SCROLL_X]. apply mod_zero.
Qed.

Section UnitPower.

Hypothesis pow_unit :
  forall e, 0 <= e ->
    exists d, Math_pow (Num FRICTION) (Num e) = Num d /\ 0 <= d /\ d <= 1.

Lemma decayed_shrinks (v dt : Q) :
  0 <= dt ->
  exists d v',
    Math_pow (Num FRICTION) (Num (dt * 60)) = Num d /\ 0 <= d /\ d <= 1
    /\ Carousel.decayed Math_pow (Num v) (Num dt) = Num v'
    /\ (Qabs (v * d) < 0.02 -> v' = 0)
    /\ (0.02 <= Qabs (v * d) -> v' = v * d)
    /\ Qabs v' <= Qabs v
    /\ (Qabs v < 0.02 -> v' = 0).
Proof.
  intros Hdt. destruct (pow_unit (dt * 60)) as (d & Ed & Hd0 & Hd1); [lra|].
  assert (Hvd : Qabs (v * d) <= Qabs v).
  { rewrite Qabs_Qmult, (Qabs_pos d) by exact Hd0.
    pose proof (Qabs_nonneg v). nra. }
  exists d. rewrite (decayed_finite v dt d Ed).
  destruct (Qltb (Qabs (v * d)) 0.02) eqn:E;
    [apply Qltb_lt in E | apply Qltb_ge in E]; eexists;
    (repeat apply conj; try reflexivity; try assumption;
     try (intros; reflexivity); try (intros; exfalso; lra)).
  apply Qabs_nonneg.
Qed.

Lemma tick_velocity (v last t : Q) now c g :
  vX c = Num v -> lastTime c = Num last -> last <= t ->
  exists v', vX (fst (tick (Num t) now c g)) = Num v'
             /\ lastTime (fst (tick (Num t) now c g)) = Num t
             /\ Qabs v' <= Qabs v
             /\ (Qabs v < 0.02 -> v' = 0).
Proof.
  intros HV HL Hle.
  destruct (tick_carousel (Num t) now c g) as (_ & _ & EL & _ & EV).
  rewrite HV, HL in EV.
  destruct (elapsed_finite last t) as (dt & Edt & Hdt). rewrite Edt in EV.
  destruct (decayed_shrinks v dt (Hdt Hle))
    as (d & v' & _ & _ & _ & Ev' & _ & _ & Hmono & Hsnap).
  exists v'. rewrite EV, Ev'. auto.
Qed.

Lemma frames_velocity stamps :
  forall (v last : Q) c g,
    vX c = Num v -> lastTime c = Num last -> ascending last stamps ->
    exists v', vX (fst (frames (stamped stamps) c g)) = Num v'
               /\ Qabs v' <= Qabs v
               /\ (stamps <> [] -> Qabs v < 0.02 -> v' = 0).
Proof.
  induction stamps as [|[t now] rest IH]; intros v last c g HV HL Hasc.
  - exists v. cbn. split; [exact HV|]. split; [lra | congruence].
  - destruct Hasc as [Hle Hrest].
    cbn [stamped map Carousel.frames]. fold (stamped rest).
    destruct (tick_velocity v last t now c g HV HL Hle)
      as (v1 & HV1 & HL1 & Hmono & Hsnap).
    destruct (tick (Num t) now c g) as [c1 g1]. cbn [fst] in *.
    destruct (IH v1 t c1 g1 HV1 HL1 Hrest) as (v' & HV' & Hmono' & Hsnap').
    exists v'. split; [exact HV'|]. split; [lra|].
    intros _ Hv. specialize (Hsnap Hv). subst v1.
    destruct rest as [|p rest'].
    + cbn in HV'. congruence.
    + apply Hsnap'; [discriminate | reflexivity].
Qed.

(** C2.  The friction constant is 0.9; a frame multiplies the velocity by
    [Math.pow(FRICTION, dt * 60)], a factor in [[0, 1]], so its magnitude
    never grows; a product of magnitude below 0.02 is replaced by the number
    0 itself in the same frame; and a velocity already below 0.02 is exactly
    0 after the next frame and after every later one.  The factor being in
    [[0, 1]] for a non-negative exponent is the assumption [pow_unit] on
    [Math.pow]. *)
Theorem friction_monotone :
  (0 < FRICTION /\ FRICTION < 1)
  /\ (forall v dt, 0 <= dt ->
        exists d v',
          Math_pow (Num FRICTION) (Num (dt * 60)) = Num d /\ 0 <= d /\ d <= 1
          /\ Carousel.decayed Math_pow (Num v) (Num dt) = Num v'
          /\ (Qabs (v * d) < 0.02 -> v' = 0)
          /\ (0.02 <= Qabs (v * d) -> v' = v * d)
          /\ Qabs v' <= Qabs v
          /\ (Qabs v < 0.02 -> v' = 0))
  /\ (forall v last t now c g,
        vX c = Num v -> lastTime c = Num last -> last <= t ->
        vX (fst (tick (Num t) now c g))
        = Carousel.decayed Math_pow (Num v) (elapsed (Num last) (Num t))
        /\ exists v', vX (fst (tick (Num t) now c g)) = Num v'
                      /\ Qabs v' <= Qabs v
                      /\ (Qabs v < 0.02 -> v' = 0))
  /\ (forall stamps v last c g,
        vX c = Num v -> lastTime c = Num last -> ascending last stamps ->
        exists v', vX (fst (frames (stamped stamps) c g)) = Num v'
                   /\ Qabs v' <= Qabs v
                   /\ (stamps <> [] -> Qabs v < 0.02 -> v' = 0)).
Proof.
  repeat apply conj.
  - reflexivity.
  - reflexivity.
  - exact decayed_shrinks.
  - intros v last t now c g HV HL Hle. split.
    + destruct (tick_carousel (Num t) now c g) as (_ & _ & _ & _ & EV).
      now rewrite EV, HV, HL.
    + destruct (tick_velocity v last t now c g HV HL Hle)
        as (v' & A & _ & B & C).
      now exists v'.
  - intros stamps v last c g. apply frames_velocity.
Qed.

End UnitPower.

(** ** Nearest card *)

Lemma lt_Num_trans (a b : Q) (bound : number) :
  a < b -> lt (Num b) bound = true -> lt (Num a) bound = true.
Proof.
  intros Hab. destruct bound; cbn; try congruence.
  rewrite !Qltb_lt. lra.
Qed.

Lemma lt_Num_between (a b : Q) (bound : number) :
  lt (Num a) bound = true -> lt (Num b) bound = false -> a < b.
Proof.
  destruct bound; cbn; try congruence.
  rewrite Qltb_lt, Qltb_ge. lra.
Qed.

(** The scan of the first loop over finite positions: either no card beats
    the bound it started with, or it ends on the first card of least
    distance. *)
Lemma wrapLoop_best (L s : Q) (xs : list Q) :
  let dist j := Qabs (wrapQ L s (nth j xs 0)) in
  forall i bi bd,
    let r := snd (Carousel.wrapLoop (Num L) (Num s) (map Num xs) i (bi, bd)) in
    (r = (bi, bd)
     /\ forall j, (j < length xs)%nat -> lt (Num (dist j)) bd = false)
    \/ (exists k, (k < length xs)%nat
                  /\ r = ((i + Z.of_nat k)%Z, Num (dist k))
                  /\ lt (Num (dist k)) bd = true
                  /\ (forall j, (j < k)%nat -> dist k < dist j)
                  /\ (forall j, (j < length xs)%nat -> dist k <= dist j)).
Proof.
  induction xs as [|x rest IH]; intros dist i bi bd; subst dist; cbn zeta.
  - left. split; [reflexivity|]. cbn. intros j Hj. lia.
  - cbn [map Carousel.wrapLoop]. rewrite wrap_finite. cbn [Math_abs snd].
    set (d := Qabs (wrapQ L s x)).
    destruct (lt (Num d) bd) eqn:Hd.
    + specialize (IH (i + 1)%Z i (Num d)). cbn zeta in IH.
      destruct (Carousel.wrapLoop (Num L) (Num s) (map Num rest) _ _)
        as [ps r]. cbn [snd] in *. right.
      destruct IH as [[Er Hall] | (k & Hk & Er & Hlt & Hbefore & Hmin)].
      * exists 0%nat. subst r. cbn [length nth]. fold d.
        split; [lia|]. split; [f_equal; lia|]. split; [exact Hd|].
        split; [intros j Hj; lia|].
        intros [|j] Hj; cbn [nth]; fold d; [lra|].
        specialize (Hall j ltac:(cbn in Hj; lia)).
        cbn in Hall. apply Qltb_ge in Hall. exact Hall.
      * exists (S k). subst r. cbn [length nth]. cbn [lt] in Hlt.
        apply Qltb_lt in Hlt.
        split; [lia|]. split; [f_equal; lia|].
        split; [exact (lt_Num_trans _ _ _ Hlt Hd)|].
        split.
        -- intros [|j] Hj; cbn [nth]; fold d; [exact Hlt|].
           apply Hbefore. lia.
        -- intros [|j] Hj; cbn [nth]; fold d; [lra|].
           apply Hmin. cbn in Hj. lia.
    + specialize (IH (i + 1)%Z bi bd). cbn zeta in IH.
      destruct (Carousel.wrapLoop (Num L) (Num s) (map Num rest) _ _)
        as [ps r]. cbn [snd] in *.
      destruct IH as [[Er Hall] | (k & Hk & Er & Hlt & Hbefore & Hmin)].
      * left. split; [exact Er|].
        intros [|j] Hj; cbn [nth]; fold d; [exact Hd|].
        apply Hall. cbn in Hj. lia.
      * right. exists (S k). subst r. cbn [length nth].
        pose proof (lt_Num_between _ _ _ Hlt Hd) as Hkd.
        split; [lia|]. split; [f_equal; lia|]. split; [exact Hlt|].
        split.
        -- intros [|j] Hj; cbn [nth]; fold d; [exact Hkd|].
           apply Hbefore. lia.
        -- intros [|j] Hj; cbn [nth]; fold d; [lra|].
           apply Hmin. cbn in Hj. lia.
Qed.

(** C3.  On a non-empty list of cards with finite geometry, the frame
    reports the index of a card of least distance from the centre, the
    lowest such index, and retargets the gradient with it when it differs
    from the active index. *)
Theorem nearest_lowest_index (L s : Q) (xs : list Q) now c g :
  TRACK c = Num L -> SCROLL_X c = Num s -> items c = map Num xs ->
  xs <> [] ->
  let dist j := Qabs (wrapQ L s (nth j xs 0)) in
  exists k,
    (k < length xs)%nat
    /\ Carousel.closestIdx_of c = Z.of_nat k
    /\ positions (fst (update now c g)) = map (fun x => Num (wrapQ L s x)) xs
    /\ (forall j, (j < length xs)%nat -> dist k <= dist j)
    /\ (forall j, (j < k)%nat -> dist k < dist j)
    /\ snd (update now c g)
       = if (Z.of_nat k =? activeIndex g)%Z then g
         else setActiveGradient now (length xs) (Z.of_nat k) g.
Proof.
  intros HT HS HI Hne dist.
  pose proof (wrapLoop_best L s xs 0%Z (-1)%Z Infinity) as B. cbn zeta in B.
  pose proof (wrapLoop_positions (Num L) (Num s) (map Num xs) 0%Z
                (-1, Infinity)%Z) as P.
  unfold Carousel.closestIdx_of, Carousel.updateCarouselTransforms.
  rewrite HT, HS, HI.
  destruct (Carousel.wrapLoop (Num L) (Num s) (map Num xs) 0%Z _)
    as [ps [k d]]. cbn [fst snd] in *.
  destruct B as [[_ Hall] | (n & Hn & Er & _ & Hbefore & Hmin)].
  - exfalso. destruct xs as [|x rest]; [congruence|].
    specialize (Hall 0%nat ltac:(cbn; lia)). cbn in Hall. discriminate.
  - injection Er as -> ->. exists n. cbn [fst snd positions].
    split; [exact Hn|]. split; [reflexivity|].
    split.
    { rewrite P, map_map. apply map_ext. intros x. apply wrap_finite. }
    split; [exact Hmin|]. split; [exact Hbefore|].
    rewrite length_map. reflexivity.
Qed.

(** ** Blur *)

Lemma styleLoop_blur vw k prev next ps :
  forall i,
    map blur
      (Carousel.styleLoop Math_pow MIN_SCALE SCALE_RANGE BLUR_COEF isCore
         vw k prev next ps i)
    = map (fun '(j, pos) =>
             if isCore j k prev next then Num 0
             else (BLUR_COEF
                   * Math_pow (Math_abs (Carousel.clamp_unit (pos / vw)))
                       (Num 1.1))%js)
          (indexedFrom i ps).
Proof.
  induction ps as [|pos rest IH]; intros i; cbn [Carousel.styleLoop map indexedFrom];
    [reflexivity|].
  rewrite IH. reflexivity.
Qed.

Lemma update_blur now c g :
  let c' := fst (update now c g) in
  let k := Carousel.closestIdx_of c in
  let len := length_of (items c) in
  map blur (styles c')
  = map (fun '(j, pos) =>
           if isCore j k (prevIdx_of k len) (nextIdx_of k len) then Num 0
           else (BLUR_COEF
                 * Math_pow (Math_abs (Carousel.clamp_unit (pos / VW_HALF c)))
                     (Num 1.1))%js)
        (indexedFrom 0 (positions c')).
Proof.
  unfold Carousel.updateCarouselTransforms, Carousel.closestIdx_of.
  destruct (Carousel.wrapLoop _ _ _ _ _) as [ps [k d]].
  cbn [fst snd styles positions]. apply styleLoop_blur.
Qed.

End CarouselFacts.

(** C4 (as amended).  In every frame, with [n = clamp(pos / VW_HALF, -1, 1)]:
    the four-colour variant gives blur 0 to the card nearest the centre and
    [3 * |n|^1.1] to every other card; the two-colour variant gives blur 0 to
    the nearest card and to the cards at the previous and next index, and
    [2 * |n|^1.1] to the rest. *)
Theorem blur_exemption (Math_pow : number -> number -> number) now c :
  let k := Carousel.closestIdx_of c in
  let len := length_of (items c) in
  let n pos := Carousel.clamp_unit (pos / VW_HALF c)%js in
  (forall g,
     let c' := fst (FourColour.updateCarouselTransforms Math_pow now c g) in
     map blur (styles c')
     = map (fun '(j, pos) =>
              if (j =? k)%Z then Num 0
              else (Num 3 * Math_pow (Math_abs (n pos)) (Num 1.1))%js)
           (indexedFrom 0 (positions c')))
  /\ (forall g,
        let c' := fst (ScriptEntry.updateCarouselTransforms Math_pow now c g) in
        map blur (styles c')
        = map (fun '(j, pos) =>
                 if ((j =? k)%Z
                     || (of_Z j === prevIdx_of k len)%js
                     || (of_Z j === nextIdx_of k len)%js)%bool
                 then Num 0
                 else (Num 2 * Math_pow (Math_abs (n pos)) (Num 1.1))%js)
              (indexedFrom 0 (positions c'))).
Proof.
  split; intros g.
  - apply (update_blur Math_pow FourColour.MIN_SCALE FourColour.SCALE_RANGE
             FourColour.BLUR_COEF FourColour.isCore).
  - apply (update_blur Math_pow ScriptEntry.MIN_SCALE ScriptEntry.SCALE_RANGE
             ScriptEntry.BLUR_COEF ScriptEntry.isCore).
Qed.

(** ** What [measure] establishes *)

Lemma layout_based (n : nat) (st : Q) :
  0 < st ->
  Forall (based (inject_Z (Z.of_nat n) * st)) (Carousel.layout n (Num st)).
Proof.
  intros Hst. unfold Carousel.layout. apply Forall_map, Forall_forall.
  intros i Hi. apply in_seq in Hi.
  exists (inject_Z (Z.of_nat i) * st). split; [reflexivity|].
  assert (H0 : 0 <= inject_Z (Z.of_nat i)).
  { change 0 with (inject_Z 0). rewrite <- Zle_Qle. lia. }
  assert (H1 : inject_Z (Z.of_nat i) < inject_Z (Z.of_nat n)).
  { rewrite <- Zlt_Qlt. lia. }
  split; nra.
Qed.

(** Measuring at least one card of positive width lays the cards out within
    the track and makes the track length positive. *)
Lemma measure_based (w : Q) height c :
  0 < w -> items c <> [] ->
  let L := inject_Z (Z.of_nat (length (items c))) * (w + 28) in
  let m := Carousel.measure (Num w) height c in
  0 < L /\ TRACK m = Num L /\ Forall (based L) (items m)
  /\ SCROLL_X m = SCROLL_X c /\ vX m = vX c /\ lastTime m = lastTime c.
Proof.
  intros Hw Hne L m. subst L m. unfold Carousel.measure.
  destruct (items c) as [|x rest] eqn:E; [congruence|].
  unfold or_else. cbn [truthy]. rewrite (Qeq_bool_false w 0) by lra.
  cbn [negb items TRACK SCROLL_X vX lastTime add mul GAP length_of of_Z].
  split.
  - assert (H : 0 < inject_Z (Z.of_nat (length (x :: rest)))).
    { change 0 with (inject_Z 0). rewrite <- Zlt_Qlt. cbn [length]. lia. }
    nra.
  - split; [reflexivity|]. split; [|repeat split].
    apply layout_based. lra.
Qed.

(** ** Gradient retarget *)

Lemma refused_at_active {channels} len idx (g : gradient channels) :
  activeIndex g = idx -> retargetRefused len idx g = true.
Proof.
  intros <-. unfold retargetRefused. rewrite Z.eqb_refl. apply orb_true_r.
Qed.

Lemma refused_out_of_range {channels} len idx (g : gradient channels) :
  (idx < 0 \/ Z.of_nat len <= idx)%Z -> retargetRefused len idx g = true.
Proof.
  intros H. unfold retargetRefused.
  destruct H as [H|H].
  - apply Z.ltb_lt in H. rewrite H. now rewrite orb_true_r.
  - apply Z.geb_le in H. rewrite H. now rewrite orb_true_r.
Qed.

Lemma two_colour_refused now len idx g :
  retargetRefused len idx g = true ->
  ScriptEntry.setActiveGradient now len idx g = g.
Proof. intros R. unfold ScriptEntry.setActiveGradient. now rewrite R. Qed.

Lemma two_colour_accepted now len idx g :
  retargetRefused len idx g = false ->
  activeIndex (ScriptEntry.setActiveGradient now len idx g) = idx.
Proof.
  intros R. unfold ScriptEntry.setActiveGradient. rewrite R.
  now destruct (gsap g).
Qed.

Lemma four_colour_refused now len idx g :
  retargetRefused len idx g = true ->
  FourColour.setActiveGradient now len idx g = g.
Proof. intros R. unfold FourColour.setActiveGradient. now rewrite R. Qed.

Lemma four_colour_accepted now len idx g :
  retargetRefused len idx g = false ->
  activeIndex (FourColour.setActiveGradient now len idx g) = idx.
Proof.
  intros R. unfold FourColour.setActiveGradient. rewrite R.
  now destruct (gsap g).
Qed.

Lemma two_colour_retarget_twice now now' len idx g :
  ScriptEntry.setActiveGradient now' len idx
    (ScriptEntry.setActiveGradient now len idx g)
  = ScriptEntry.setActiveGradient now len idx g.
Proof.
  destruct (retargetRefused len idx g) eqn:R.
  - rewrite (two_colour_refused now len idx g R).
    exact (two_colour_refused now' len idx g R).
  - apply two_colour_refused, refused_at_active.
    now apply two_colour_accepted.
Qed.

Lemma four_colour_retarget_twice now now' len idx g :
  FourColour.setActiveGradient now' len idx
    (FourColour.setActiveGradient now len idx g)
  = FourColour.setActiveGradient now len idx g.
Proof.
  destruct (retargetRefused len idx g) eqn:R.
  - rewrite (four_colour_refused now len idx g R).
    exact (four_colour_refused now' len idx g R).
  - apply four_colour_refused, refused_at_active.
    now apply four_colour_accepted.
Qed.

(** C9.  In both variants a retarget with the index that is already active
    returns the state it was given: active index, channels, fast-window
    deadline and the list of started tweens are those of before.  So a second
    retarget with the same index changes nothing, whatever the first did. *)
Theorem retarget_same_index_noop :
  (forall now len (g : gradient ScriptEntry.channels),
     ScriptEntry.setActiveGradient now len (activeIndex g) g = g)
  /\ (forall now len (g : gradient FourColour.channels),
        FourColour.setActiveGradient now len (activeIndex g) g = g)
  /\ (forall now now' len idx g,
        ScriptEntry.setActiveGradient now' len idx
          (ScriptEntry.setActiveGradient now len idx g)
        = ScriptEntry.setActiveGradient now len idx g)
  /\ (forall now now' len idx g,
        FourColour.setActiveGradient now' len idx
          (FourColour.setActiveGradient now len idx g)
        = FourColour.setActiveGradient now len idx g).
Proof.
  repeat apply conj.
  - intros now len g. now apply two_colour_refused, refused_at_active.
  - intros now len g. now apply four_colour_refused, refused_at_active.
  - exact two_colour_retarget_twice.
  - exact four_colour_retarget_twice.
Qed.

Lemma retargets_out_of_range {channels}
  (set : number -> nat -> Z -> gradient channels -> gradient channels) len :
  (forall now idx g, (idx < 0 \/ Z.of_nat len <= idx)%Z -> set now len idx g = g) ->
  forall calls g,
    Forall (fun call => (snd call < 0 \/ Z.of_nat len <= snd call)%Z) calls ->
    retargets set len calls g = g.
Proof.
  intros Hset calls. induction calls as [|[now idx] rest IH]; intros g Hall.
  - reflexivity.
  - inversion Hall as [|? ? Hhd Htl]; subst. cbn in *.
    rewrite Hset by exact Hhd. now apply IH.
Qed.

(** C10.  In both variants a retarget with a negative index, or one at or
    beyond the number of cards, returns the state it was given; a run of such
    calls from the initial state leaves it as it was, with active index -1. *)
Theorem retarget_out_of_range_noop (len : nat) (idx : Z) :
  (idx < 0 \/ Z.of_nat len <= idx)%Z ->
  (forall now (g : gradient ScriptEntry.channels),
     ScriptEntry.setActiveGradient now len idx g = g)
  /\ (forall now (g : gradient FourColour.channels),
        FourColour.setActiveGradient now len idx g = g)
  /\ (forall ctx tweening calls,
        Forall (fun call => (snd call < 0 \/ Z.of_nat len <= snd call)%Z) calls ->
        let g := retargets ScriptEntry.setActiveGradient len calls
                   (ScriptEntry.initialGradient ctx tweening) in
        g = ScriptEntry.initialGradient ctx tweening
        /\ activeIndex g = (-1)%Z)
  /\ (forall ctx tweening calls,
        Forall (fun call => (snd call < 0 \/ Z.of_nat len <= snd call)%Z) calls ->
        let g := retargets FourColour.setActiveGradient len calls
                   (FourColour.initialGradient ctx tweening) in
        g = FourColour.initialGradient ctx tweening
        /\ activeIndex g = (-1)%Z).
Proof.
  intros Hidx.
  assert (S1 : forall now i (g : gradient ScriptEntry.channels),
             (i < 0 \/ Z.of_nat len <= i)%Z ->
             ScriptEntry.setActiveGradient now len i g = g).
  { intros now i g Hi. now apply two_colour_refused, refused_out_of_range. }
  assert (S2 : forall now i (g : gradient FourColour.channels),
             (i < 0 \/ Z.of_nat len <= i)%Z ->
             FourColour.setActiveGradient now len i g = g).
  { intros now i g Hi. now apply four_colour_refused, refused_out_of_range. }
  repeat apply conj.
  - intros now g. now apply S1.
  - intros now g. now apply S2.
  - intros ctx tweening calls Hall g. subst g.
    rewrite (retargets_out_of_range _ len S1 calls _ Hall). now split.
  - intros ctx tweening calls Hall g. subst g.
    rewrite (retargets_out_of_range _ len S2 calls _ Hall). now split.
Qed.

(** ** Sampling *)

Lemma addPixel_skipped r g b a acc :
  skipped r g b a = true -> addPixel r g b a acc = acc.
Proof.
  unfold skipped, addPixel.
  destruct (Qltb (byteQ a / 255) 0.05); [reflexivity|].
  destruct (rgbToHsl (byteQ r) (byteQ g) (byteQ b)) as [[h s] l].
  now intros ->.
Qed.

(** Induction over image data, four bytes at a time. *)
Lemma pixels_ind (P : list byte -> Prop) :
  (forall data, (length data < 4)%nat -> P data) ->
  (forall r g b a rest, P rest -> P (r :: g :: b :: a :: rest)) ->
  forall data, P data.
Proof.
  intros Hshort Hstep data.
  assert (H : forall n data, (length data <= n)%nat -> P data).
  { induction n as [|n IH]; intros d Hd.
    - apply Hshort. lia.
    - destruct d as [|r [|g [|b [|a rest]]]];
        try (apply Hshort; cbn; lia).
      apply Hstep, IH. cbn in Hd. lia. }
  now apply (H (length data)).
Qed.

Lemma sample_short data acc : (length data < 4)%nat -> sample data acc = acc.
Proof.
  destruct data as [|r [|g [|b [|a rest]]]]; cbn; intros H;
    try reflexivity; lia.
Qed.

Lemma allPixels_weaken (p q : byte -> byte -> byte -> byte -> bool) :
  (forall r g b a, p r g b a = true -> q r g b a = true) ->
  forall data, allPixels p data = true -> allPixels q data = true.
Proof.
  intros Hpq data. induction data as [data Hshort | r g b a rest IH]
    using pixels_ind.
  - destruct data as [|r [|g [|b [|a rest]]]]; cbn in *;
      try reflexivity; lia.
  - cbn. rewrite !andb_true_iff. intros [H1 H2]. split; auto.
Qed.

Lemma sample_allSkipped data :
  allSkipped data = true -> forall acc, sample data acc = acc.
Proof.
  unfold allSkipped.
  induction data as [data Hshort | r g b a rest IH] using pixels_ind;
    intros Hall acc.
  - now apply sample_short.
  - cbn in Hall. apply andb_true_iff in Hall as [H1 H2].
    cbn [sample]. rewrite (addPixel_skipped _ _ _ _ _ H1). now apply IH.
Qed.

Lemma transparent_skipped r g b a :
  Byte.eqb a x00 = true -> skipped r g b a = true.
Proof.
  intros H. apply Byte.byte_dec_bl in H. subst a. reflexivity.
Qed.

Lemma gray_skipped r g b a :
  Byte.eqb r g && Byte.eqb g b = true -> skipped r g b a = true.
Proof.
  rewrite andb_true_iff. intros [H1 H2].
  apply Byte.byte_dec_bl in H1, H2. subst g b.
  unfold skipped. destruct (Qltb (byteQ a / 255) 0.05); [reflexivity|].
  unfold rgbToHsl, Qmax3, Qmin3.
  set (x := byteQ r / 255).
  assert (E : Qeq_bool (Qmax (Qmax x x) x) (Qmin (Qmin x x) x) = true).
  { apply Qeq_eq_bool. rewrite !Q.max_id, !Q.min_id. reflexivity. }
  rewrite E. cbn. apply orb_true_r.
Qed.


(** ** Pick selection *)

Lemma hueDist_sym (a b : Q) : hueDist a b = hueDist b a.
Proof. unfold hueDist. now rewrite (Qabs_Qminus a b). Qed.

Lemma hueDist_self (a : Q) : hueDist a a == 0.
Proof.
  unfold hueDist. setoid_replace (a - a) with 0 by ring.
  reflexivity.
Qed.

Lemma apart_sym p q : apart p q -> apart q p.
Proof. unfold apart. now rewrite hueDist_sym. Qed.

Lemma apart_irrefl p : ~ apart p p.
Proof.
  unfold apart, FourColour.minHueGap. rewrite hueDist_self. lra.
Qed.

Lemma spaced_apart picks i :
  FourColour.spaced picks i = true -> Forall (fun p => apart p i) picks.
Proof.
  unfold FourColour.spaced. rewrite forallb_forall, Forall_forall.
  intros H p Hp. specialize (H p Hp).
  apply negb_true_iff, Qltb_ge in H. now apply apart_sym.
Qed.

Lemma ordPairs_snoc {A} (R : A -> A -> Prop) l x :
  ForallOrdPairs R l -> Forall (fun y => R y x) l ->
  ForallOrdPairs R (l ++ [x]).
Proof.
  induction 1 as [|a l Ha Hl IH]; intros Hx; cbn.
  - constructor; constructor.
  - inversion Hx as [|? ? Hax Hlx]; subst. constructor.
    + apply Forall_app. split; [exact Ha | now constructor].
    + now apply IH.
Qed.

Lemma pickLoop_wellPicked w refWeight pool indices :
  incl indices pool ->
  forall picks,
    wellPicked w refWeight pool picks ->
    wellPicked w refWeight pool
      (FourColour.pickLoop w refWeight indices picks).
Proof.
  induction indices as [|i rest IH]; intros Hincl picks Hp;
    cbn [FourColour.pickLoop].
  - exact Hp.
  - destruct (4 <=? length picks)%nat eqn:Hfull; [exact Hp|].
    destruct (Qltb (at_ w i) (refWeight * 0.22)) eqn:Hlight; [exact Hp|].
    apply IH; [intros x Hx; apply Hincl; now right|].
    destruct (FourColour.spaced picks i) eqn:Hsp; [|exact Hp].
    destruct Hp as (Hpairs & Hweights & Hlen).
    apply Nat.leb_gt in Hfull. apply Qltb_ge in Hlight.
    split; [|split].
    + apply ordPairs_snoc; [exact Hpairs | now apply spaced_apart].
    + apply Forall_app. split; [exact Hweights|].
      constructor; [|constructor]. split; [apply Hincl; now left | exact Hlight].
    + rewrite length_app. cbn. lia.
Qed.

(** ** The sort by decreasing weight *)

Lemma insert_In w i l x :
  In x (FourColour.insert w i l) <-> x = i \/ In x l.
Proof.
  induction l as [|j rest IH]; cbn.
  - intuition.
  - destruct (Qltb (at_ w i) (at_ w j)); cbn; rewrite ?IH; intuition.
Qed.

Lemma sortByWeight_In w l x :
  In x (FourColour.sortByWeight w l) <-> In x l.
Proof.
  induction l as [|i rest IH]; cbn; [reflexivity|].
  rewrite insert_In, IH. intuition.
Qed.

Lemma insert_sorted w i l :
  StronglySorted (heavier w) l ->
  StronglySorted (heavier w) (FourColour.insert w i l).
Proof.
  induction 1 as [|j rest Hs IH Hj]; cbn.
  - constructor; constructor.
  - destruct (Qltb (at_ w i) (at_ w j)) eqn:E;
      [apply Qltb_lt in E | apply Qltb_ge in E].
    + constructor; [exact IH|].
      apply Forall_forall. intros x Hx. apply insert_In in Hx as [->|Hx].
      * unfold heavier. lra.
      * rewrite Forall_forall in Hj. now apply Hj.
    + constructor; [now constructor|].
      constructor; [exact E|].
      rewrite Forall_forall in *. intros x Hx. specialize (Hj x Hx).
      unfold heavier in *. lra.
Qed.

Lemma sortByWeight_sorted w l :
  StronglySorted (heavier w) (FourColour.sortByWeight w l).
Proof.
  induction l as [|i rest IH]; cbn; [constructor|].
  now apply insert_sorted.
Qed.

(** The first of the sorted bins carries the largest weight of the whole
    histogram, and that weight is positive. *)
Lemma top_weight acc :
  FourColour.nonEmpty acc <> [] ->
  let top :=
    at_ (wSum acc)
      (nth 0 (FourColour.sortByWeight (wSum acc) (FourColour.nonEmpty acc))
         0%Z) in
  0 < top /\ forall i, In i binIndices -> at_ (wSum acc) i <= top.
Proof.
  intros Hne.
  pose proof (sortByWeight_sorted (wSum acc) (FourColour.nonEmpty acc)) as Hs.
  pose proof (sortByWeight_In (wSum acc) (FourColour.nonEmpty acc)) as Hin.
  destruct (FourColour.sortByWeight (wSum acc) (FourColour.nonEmpty acc))
    as [|h t].
  - exfalso. destruct (FourColour.nonEmpty acc) as [|i rest]; [congruence|].
    apply (Hin i). now left.
  - cbn [nth]. set (top := at_ (wSum acc) h).
    assert (Hpos : 0 < top).
    { assert (Hh : In h (FourColour.nonEmpty acc)) by (apply Hin; now left).
      apply filter_In in Hh as [_ Hh]. apply Qltb_lt in Hh. exact Hh. }
    split; [exact Hpos|].
    intros i Hi. destruct (Qltb 0 (at_ (wSum acc) i)) eqn:E.
    + assert (Hi' : In i (h :: t)).
      { apply Hin, filter_In. now split. }
      apply StronglySorted_inv in Hs as [_ Hs].
      destruct Hi' as [->|Hi']; [subst top; lra|].
      rewrite Forall_forall in Hs. exact (Hs i Hi').
    + apply Qltb_ge in E. lra.
Qed.

(** ** The secondary bin of the two-colour variant *)

Lemma fold_left_invariant {A B} (P : A -> Prop) (f : A -> B -> A) l :
  (forall a b, P a -> P (f a b)) -> forall a, P a -> P (fold_left f l a).
Proof.
  intros Hf. induction l as [|b rest IH]; intros a Ha; cbn; auto.
Qed.

Lemma secondary_spec acc pHue :
  let s := ScriptEntry.secondary acc pHue in
  (0 <= fst s)%Z ->
  25 <= hueDist (hueOf (fst s)) pHue
  /\ snd s = at_ (wSum acc) (fst s) /\ 0 < snd s.
Proof.
  unfold ScriptEntry.secondary.
  apply (fold_left_invariant
           (fun best : Z * Q =>
              (0 <= fst best)%Z ->
              25 <= hueDist (hueOf (fst best)) pHue
              /\ snd best = at_ (wSum acc) (fst best) /\ 0 < snd best)).
  - intros best i Hbest.
    destruct (Qle_bool (at_ (wSum acc) i) 0) eqn:E0; [exact Hbest|].
    match goal with
    | |- context [if ?b then _ else _] => destruct b eqn:E1
    end; [|exact Hbest].
    apply andb_true_iff in E1 as [E1 _]. apply Qle_bool_iff in E1.
    intros _. cbn [fst snd]. split; [exact E1|]. split; [reflexivity|].
    apply Qnot_le_lt. intros Hle. apply Qle_bool_iff in Hle. congruence.
  - cbn. lia.
Qed.

Lemma ordPairs_weaken {A} (R S : A -> A -> Prop) l :
  (forall a b, R a b -> S a b) -> ForallOrdPairs R l -> ForallOrdPairs S l.
Proof.
  intros HRS. induction 1 as [|a l Ha Hl IH]; constructor; [|exact IH].
  eapply Forall_impl; [apply HRS | exact Ha].
Qed.

Lemma pickLoop_extends w refWeight indices :
  forall picks,
    exists more,
      FourColour.pickLoop w refWeight indices picks = picks ++ more.
Proof.
  induction indices as [|i rest IH]; intros picks;
    cbn [FourColour.pickLoop].
  - exists []. now rewrite app_nil_r.
  - destruct (4 <=? length picks)%nat; [exists []; now rewrite app_nil_r|].
    destruct (Qltb (at_ w i) (refWeight * 0.22));
      [exists []; now rewrite app_nil_r|].
    destruct (FourColour.spaced picks i).
    + destruct (IH (picks ++ [i])) as (more & ->).
      exists (i :: more). now rewrite <- app_assoc.
    + apply IH.
Qed.

(** With a non-empty histogram the heaviest bin is always the first pick. *)
Lemma picksOf_first acc :
  FourColour.nonEmpty acc <> [] ->
  exists more,
    FourColour.picksOf acc
    = nth 0 (FourColour.sortByWeight (wSum acc) (FourColour.nonEmpty acc))
        0%Z :: more.
Proof.
  intros Hne. destruct (top_weight acc Hne) as [Hpos _].
  unfold FourColour.picksOf.
  pose proof (sortByWeight_In (wSum acc) (FourColour.nonEmpty acc)) as Hin.
  destruct (FourColour.sortByWeight (wSum acc) (FourColour.nonEmpty acc))
    as [|h t].
  - exfalso. destruct (FourColour.nonEmpty acc) as [|i rest]; [congruence|].
    apply (Hin i). now left.
  - cbn [nth] in *. set (top := at_ (wSum acc) h) in *.
    rewrite (Qeq_bool_false top 0) by lra.
    cbn [FourColour.pickLoop length Nat.leb].
    assert (E : Qltb top (top * 0.22) = false) by (apply Qltb_ge; lra).
    fold top. rewrite E. cbn [FourColour.spaced forallb app].
    destruct (pickLoop_extends (wSum acc) top t [h]) as (more & ->).
    now exists more.
Qed.

Lemma picksOf_wellPicked acc :
  let w := wSum acc in
  let top :=
    at_ w (nth 0 (FourColour.sortByWeight w (FourColour.nonEmpty acc)) 0%Z) in
  wellPicked w (if Qeq_bool top 0 then 1e-6 else top)
    (FourColour.nonEmpty acc) (FourColour.picksOf acc).
Proof.
  cbv zeta. unfold FourColour.picksOf. apply pickLoop_wellPicked.
  - intros x. apply sortByWeight_In.
  - split; [constructor|]. split; [constructor | cbn; lia].
Qed.


(** ** Rendering of the palette *)

Lemma clamp_range (v a b : Q) : a <= b -> a <= clamp v a b /\ clamp v a b <= b.
Proof.
  intros Hab. unfold clamp.
  destruct (Q.max_spec a (Qmin b v)) as [[H E]|[H E]];
    destruct (Q.min_spec b v) as [[H' E']|[H' E']];
    rewrite E; try rewrite E' in *; split; lra.
Qed.

Lemma four_colour_slot acc i L :
  FourColour.toRGBFromIdx acc i L = rendered (avgRGB acc i) 0.92 0.30 0.78 L.
Proof. reflexivity. Qed.

(** C6 (as amended).  An extraction that does not fall back paints every
    colour from the weighted-average colour of a selected bin, converted to
    hue and saturation.  The four-colour variant scales the saturation by 0.92,
    clamps it into [[0.30, 0.78]] and paints the four slots at lightness 0.50,
    0.68, 0.60 and 0.72, the slots without a pick of their own reusing the
    first pick.  The two-colour variant scales by 1.15 (by 1.05 for a
    secondary bin carrying at least 60% of the primary weight), clamps into
    [[0.45, 1]] and paints its two slots at lightness 0.5 and 0.72. *)
Theorem palette_rendering (data : list byte) (idx : Z) :
  let acc := sample data emptyBins in
  (FourColour.nonEmpty acc <> [] ->
   exists p more,
     FourColour.picksOf acc = p :: more
     /\ FourColour.extractColors (Some data) idx
        = {| c1 := rendered (avgRGB acc p) 0.92 0.30 0.78 0.50;
             c2 := rendered (avgRGB acc (nth 0 more p)) 0.92 0.30 0.78 0.68;
             c3 := Some (rendered (avgRGB acc (nth 1 more p))
                           0.92 0.30 0.78 0.60);
             c4 := Some (rendered (avgRGB acc (nth 2 more p))
                           0.92 0.30 0.78 0.72) |})
  /\ (forall s, 0.30 <= clamp (s * 0.92) 0.30 0.78
                /\ clamp (s * 0.92) 0.30 0.78 <= 0.78)
  /\ (let pIdx := fst (ScriptEntry.primary acc) in
      let pW := snd (ScriptEntry.primary acc) in
      let sIdx := fst (ScriptEntry.secondary acc (hueOf pIdx)) in
      let sW := snd (ScriptEntry.secondary acc (hueOf pIdx)) in
      (0 <= pIdx)%Z /\ 0 < pW ->
      ScriptEntry.extractColors (Some data) idx
      = {| c1 := rendered (avgRGB acc pIdx) 1.15 0.45 1 0.5;
           c2 := if (sIdx >=? 0)%Z && Qle_bool (pW * 0.6) sW
                 then rendered (avgRGB acc sIdx) 1.05 0.45 1 0.72
                 else rendered (avgRGB acc pIdx) 1.15 0.45 1 0.72;
           c3 := None; c4 := None |})
  /\ (forall s k, 0.45 <= clamp (s * k) 0.45 1 /\ clamp (s * k) 0.45 1 <= 1).
Proof.
  intros acc. repeat apply conj.
  - intros Hne. destruct (picksOf_first acc Hne) as (more & E).
    eexists _, more. split; [exact E|].
    unfold FourColour.extractColors. fold acc. rewrite E.
    destruct (FourColour.nonEmpty acc); [congruence | reflexivity].
  - intros s. apply clamp_range. lra.
  - cbv zeta. intros [Hidx Hw].
    unfold ScriptEntry.extractColors. fold acc.
    destruct (ScriptEntry.primary acc) as [pIdx pW]. cbn [fst snd] in *.
    assert (E1 : (pIdx <? 0)%Z = false) by (apply Z.ltb_ge; exact Hidx).
    assert (E2 : Qle_bool pW 0 = false).
    { destruct (Qle_bool pW 0) eqn:E; [|reflexivity].
      apply Qle_bool_iff in E. lra. }
    rewrite E1, E2. cbn [orb].
    destruct (ScriptEntry.secondary acc (hueOf pIdx)) as [sIdx sW].
    cbn [fst snd]. unfold rendered, clamp.
    destruct (rgbQ (avgRGB acc pIdx)) as [[pr pg] pb].
    destruct (rgbToHsl pr pg pb) as [[h1 s1] l1].
    destruct ((sIdx >=? 0)%Z && Qle_bool (pW * 0.6) sW); [|reflexivity].
    destruct (rgbQ (avgRGB acc sIdx)) as [[sr sg] sb].
    destruct (rgbToHsl sr sg sb) as [[h2 s2] l2]. reflexivity.
  - intros s k. apply clamp_range. lra.
Qed.

(** ** A stand-in for [Math.pow] *)

Lemma friction_power_unit (n : Z) :
  (0 <= n)%Z -> 0 <= FRICTION ^ n /\ FRICTION ^ n <= 1.
Proof.
  intros Hn. unfold FRICTION.
  assert (Hpos : 0 <= 0.9 ^ n) by (apply Qpower_0_le; lra).
  assert (Hinv : 1 <= (10 # 9) ^ n) by (apply Qpower_1_le; [lra | exact Hn]).
  assert (Hprod : 0.9 ^ n * (10 # 9) ^ n == 1).
  { rewrite <- Qmult_power.
    setoid_replace (0.9 * (10 # 9)) with 1 by reflexivity.
    apply Qpower_1. }
  split; [exact Hpos | nra].
Qed.

Lemma powCeil_unit (e : Q) :
  0 <= e ->
  exists d, powCeil (Num FRICTION) (Num e) = Num d /\ 0 <= d /\ d <= 1.
Proof.
  intros He. eexists. split; [reflexivity|].
  apply friction_power_unit.
  change 0%Z with (Qceiling 0). now apply Qceiling_resp_le.
Qed.

Lemma powCeil_finite (e : Q) :
  exists d, powCeil (Num FRICTION) (Num e) = Num d.
Proof. eexists. reflexivity. Qed.

(** ** Concrete runs *)

(** The two normalisations of the specification's scenarios. *)
Example mod_full_turn : mod_ (Num 3480) (Num 3480) = Num 0.
Proof. reflexivity. Qed.

Example mod_negative : mod_ (Num (-50)) (Num 3480) = Num 3430.
Proof. reflexivity. Qed.



(** C2, witness: the flung cards (velocity 5), two frames a sixtieth of a
    second apart. *)
Lemma friction_monotone_witness :
  (forall e, 0 <= e ->
     exists d, powCeil (Num FRICTION) (Num e) = Num d /\ 0 <= d /\ d <= 1)
  /\ exists v',
       vX (fst (FourColour.frames powCeil (stamped (sixtieths 2 1000)) flung
                  (FourColour.initialGradient true false)))
       = Num v'
       /\ Qabs v' <= Qabs 5.
Proof.
  split; [exact powCeil_unit|].
  destruct (friction_monotone powCeil FourColour.MIN_SCALE
              FourColour.SCALE_RANGE FourColour.BLUR_COEF FourColour.isCore
              (gradient FourColour.channels) activeIndex
              FourColour.setActiveGradient powCeil_unit)
    as (_ & _ & _ & F).
  destruct (F (sixtieths 2 1000) 5 1000 flung
              (FourColour.initialGradient true false))
    as (v' & E & Hle & _).
  - reflexivity.
  - reflexivity.
  - vm_compute. split; [discriminate|]. split; [discriminate | exact I].
  - exists v'. split; [exact E | exact Hle].
Defined.

(** The specification's scenario: velocity 5, frames a sixtieth of a second
    apart (where the stand-in is exact: the exponent is 1).  After 300 frames
    the velocity is the number 0. *)
Example fling_stops :
  vX (fst (FourColour.frames powCeil (stamped (sixtieths 300 1000)) flung
             (FourColour.initialGradient true false)))
  = Num 0.
Proof.
  unfold FourColour.frames. rewrite frames_coast. vm_compute. reflexivity.
Qed.

(** C3, witness: the four cards at scroll offset 0. *)
Lemma nearest_lowest_index_witness :
  exists k, (k < 4)%nat /\ Carousel.closestIdx_of fourCards = Z.of_nat k.
Proof.
  destruct (nearest_lowest_index powCeil ScriptEntry.MIN_SCALE
              ScriptEntry.SCALE_RANGE ScriptEntry.BLUR_COEF ScriptEntry.isCore
              (gradient ScriptEntry.channels) activeIndex
              ScriptEntry.setActiveGradient 1312 0 [0; 328; 656; 984]
              (Num 0) fourCards (ScriptEntry.initialGradient true false))
    as (k & Hk & E & _).
  - reflexivity.
  - reflexivity.
  - reflexivity.
  - discriminate.
  - exists k. split; [exact Hk | exact E].
Defined.

(** C4, counterexample.  Four cards, scroll offset 0, in the two-colour
    variant: card 0 is nearest; card 1, at position 328 with [n = 1], is not,
    and yet its blur is 0 where the formula gives 2 (and [Math.pow(1, 1.1)]
    is 1 for the library function as for the stand-in). *)
Lemma blur_exempts_neighbours :
  let c' := fst (ScriptEntry.updateCarouselTransforms powCeil (Num 0)
                   fourCards (ScriptEntry.initialGradient true false)) in
  Carousel.closestIdx_of fourCards = 0%Z
  /\ positions c' = [Num 0; Num 328; Num 656; Num (-328)]
  /\ map blur (styles c') = [Num 0; Num 0; Num 2; Num 0]
  /\ (ScriptEntry.BLUR_COEF
      * powCeil (Math_abs (Carousel.clamp_unit (Num 328 / VW_HALF fourCards)))
          (Num 1.1))%js
     = Num 2.
Proof. vm_compute. repeat split. Qed.


(** C6, counterexample.  One red pixel in the two-colour variant: the first
    colour is pure red, painted at saturation 1, where scaling by 0.92 and
    clamping into [[0.30, 0.78]] gives (227, 28, 28); and there is no third
    or fourth colour. *)
Lemma two_colour_saturation :
  let acc := sample redPixel emptyBins in
  fst (ScriptEntry.primary acc) = 4%Z
  /\ ScriptEntry.extractColors (Some redPixel) 0
     = {| c1 := (255, 0, 0)%Z; c2 := (255, 112, 112)%Z;
          c3 := None; c4 := None |}
  /\ rendered (avgRGB acc 4) 0.92 0.30 0.78 0.50 = (227, 28, 28)%Z
  /\ rendered (avgRGB acc 4) 1.15 0.45 1 0.5 = (255, 0, 0)%Z.
Proof. vm_compute. repeat split. Qed.

(** C6, witness: the red and the orange pixel in both variants. *)
Lemma palette_rendering_witness :
  FourColour.nonEmpty (sample redOrange emptyBins) <> []
  /\ exists p more,
       FourColour.picksOf (sample redOrange emptyBins) = p :: more
       /\ FourColour.extractColors (Some redOrange) 0
          = {| c1 := (227, 28, 28)%Z; c2 := (237, 110, 110)%Z;
               c3 := Some (233, 73, 73)%Z; c4 := Some (239, 128, 128)%Z |}.
Proof.
  assert (Hne : FourColour.nonEmpty (sample redOrange emptyBins) <> [])
    by (vm_compute; discriminate).
  split; [exact Hne|].
  destruct (palette_rendering redOrange 0) as (F & _).
  destruct (F Hne) as (p & more & E & _).
  exists p, more. split; [exact E | reflexivity].
Defined.


(** C8, the resize handler on no cards: the ratio is 0/0. *)
Example resize_ratio_NaN :
  (SCROLL_X (Carousel.created 0 (Num 300) (Num 600))
   / (length_of (items (Carousel.created 0 (Num 300) (Num 600)))
      * (STEP (Carousel.created 0 (Num 300) (Num 600)) || Num 1)))%js
  = NaN.
Proof. reflexivity. Qed.

(** C10, witness: index -1 and index 10 among ten cards. *)
Lemma retarget_out_of_range_noop_witness :
  ((-1 < 0 \/ Z.of_nat 10 <= -1)%Z
   /\ forall now (g : gradient FourColour.channels),
        FourColour.setActiveGradient now 10 (-1) g = g)
  /\ ((10 < 0 \/ Z.of_nat 10 <= 10)%Z
      /\ forall now (g : gradient ScriptEntry.channels),
           ScriptEntry.setActiveGradient now 10 10 g = g).
Proof.
  assert (H1 : (-1 < 0 \/ Z.of_nat 10 <= -1)%Z) by (left; reflexivity).
  assert (H2 : (10 < 0 \/ Z.of_nat 10 <= 10)%Z) by (right; discriminate).
  split; (split; [assumption|]).
  - destruct (retarget_out_of_range_noop 10 (-1) H1) as (_ & B & _). exact B.
  - destruct (retarget_out_of_range_noop 10 10 H2) as (A & _). exact A.
Defined.

(** * Further results *)

(** ** Safe modulo and shortest path *)

Lemma Qrem_congruent (n m : Q) :
  exists k, Qrem n m == n - inject_Z k * m.
Proof. exists (Qtrunc (n / m)). unfold Qrem. ring. Qed.

(** Two values of [[0, L)] that differ by a whole number of turns are equal. *)
Lemma turn_unique (L a b : Q) (k : Z) :
  0 < L -> 0 <= a < L -> 0 <= b < L -> a == b + inject_Z k * L -> a == b.
Proof.
  intros HL Ha Hb E.
  assert (Hk : k = 0%Z).
  { assert (H1 : (k < 1)%Z).
    { rewrite Zlt_Qlt. change (inject_Z 1) with 1. nra. }
    assert (H2 : (-1 < k)%Z).
    { rewrite Zlt_Qlt. change (inject_Z (-1)) with (-1). nra. }
    lia. }
  subst k. rewrite E. change (inject_Z 0) with 0. ring.
Qed.

Lemma mod_congruent (n L : Q) :
  0 < L ->
  exists r k, mod_ (Num n) (Num L) = Num r /\ 0 <= r < L
              /\ n == r + inject_Z k * L.
Proof.
  intros HL. destruct (mod_in_range n L HL) as (r & E & Hr).
  exists r. pose proof E as E0. unfold mod_ in E. cbn [rem add] in E.
  rewrite Qeq_bool_false in E by lra. cbn [rem add] in E.
  rewrite Qeq_bool_false in E by lra. injection E as E.
  destruct (Qrem_congruent n L) as (k1 & E1).
  destruct (Qrem_congruent (Qrem n L + L) L) as (k2 & E2).
  exists (k1 + k2 - 1)%Z. split; [exact E0|]. split; [exact Hr|].
  rewrite <- E, E2, E1. unfold Z.sub. rewrite !inject_Z_plus.
  change (inject_Z (- (1))) with (-1). ring.
Qed.

(** X1.  For a positive finite modulus [L], [mod(n, L)] is the one number of
    [[0, L)] that differs from [n] by a whole multiple of [L]: it leaves the
    numbers of [[0, L)] as they are, gives the same result for [n] and
    [n + k * L], and applying it twice is applying it once. *)
Theorem mod_canonical (n L : Q) :
  0 < L ->
  exists r,
    mod_ (Num n) (Num L) = Num r
    /\ 0 <= r < L
    /\ (exists k, n == r + inject_Z k * L)
    /\ (forall r' k, 0 <= r' < L -> n == r' + inject_Z k * L -> r' == r)
    /\ (0 <= n < L -> r == n)
    /\ (forall k, exists r',
          mod_ (Num (n + inject_Z k * L)) (Num L) = Num r' /\ r' == r)
    /\ (exists r', mod_ (mod_ (Num n) (Num L)) (Num L) = Num r' /\ r' == r).
Proof.
  intros HL. destruct (mod_congruent n L HL) as (r & k & E & Hr & Hk).
  exists r. split; [exact E|]. split; [exact Hr|].
  split; [now exists k|].
  assert (U : forall r' k', 0 <= r' < L -> n == r' + inject_Z k' * L ->
                            r' == r).
  { intros r' k' Hr' Hk'. apply (turn_unique L r' r (k - k')%Z HL Hr' Hr).
    unfold Z.sub. rewrite inject_Z_plus, inject_Z_opp. lra. }
  split; [exact U|]. split.
  - intros Hn. symmetry. apply (U n 0%Z Hn).
    change (inject_Z 0) with 0. ring.
  - split.
    + intros j. destruct (mod_congruent (n + inject_Z j * L) L HL)
        as (r' & k' & E' & Hr' & Hk').
      exists r'. split; [exact E'|].
      apply (U r' (k' - j)%Z Hr').
      unfold Z.sub. rewrite inject_Z_plus, inject_Z_opp. lra.
    + rewrite E. destruct (mod_congruent r L HL) as (r' & k' & E' & Hr' & Hk').
      exists r'. split; [exact E'|].
      apply (U r' (k + k')%Z Hr'). rewrite inject_Z_plus. lra.
Qed.

(** X1, witness: the track of ten cards. *)
Lemma mod_canonical_witness :
  0 < 3480
  /\ exists r, mod_ (Num (-50)) (Num 3480) = Num r /\ 0 <= r < 3480.
Proof.
  assert (HL : 0 < 3480) by reflexivity. split; [exact HL|].
  destruct (mod_canonical (-50) 3480 HL) as (r & E & Hr & _).
  exists r. split; [exact E | exact Hr].
Defined.



Lemma mod_fixed (n L : Q) :
  0 < L -> 0 <= n < L ->
  exists r, mod_ (Num n) (Num L) = Num r /\ r == n /\ 0 <= r < L.
Proof.
  intros HL Hn. destruct (mod_congruent n L HL) as (r & k & E & Hr & Hk).
  exists r. split; [exact E|]. split; [|exact Hr].
  apply (turn_unique L r n (- k)%Z HL Hr Hn).
  rewrite inject_Z_opp. lra.
Qed.

(** ** Layout *)

(** X3.  [measure] does nothing without cards.  With cards and a bounding
    rectangle of positive width [w] it sets the step to [w + 28] and the
    track length to the number of cards times the step (a positive number),
    places card [i] at [i] times the step, hence within the track, gives
    [positions] one entry per card, and leaves offset, velocity and time
    stamp alone; a rectangle of width 0 keeps the card width there was. *)
Theorem measure_layout (w : Q) (height : number) (c : carousel) :
  0 < w ->
  let n := length (items c) in
  let m := Carousel.measure (Num w) height c in
  (items c = [] -> m = c)
  /\ (items c <> [] ->
      STEP m = Num (w + 28)
      /\ TRACK m = Num (inject_Z (Z.of_nat n) * (w + 28))
      /\ 0 < inject_Z (Z.of_nat n) * (w + 28)
      /\ items m
         = map (fun i => Num (inject_Z (Z.of_nat i) * (w + 28))) (seq 0 n)
      /\ Forall (based (inject_Z (Z.of_nat n) * (w + 28))) (items m)
      /\ length (positions m) = n
      /\ SCROLL_X m = SCROLL_X c /\ vX m = vX c /\ lastTime m = lastTime c
      /\ CARD_W (Carousel.measure (Num 0) height c) = CARD_W c).
Proof.
  intros Hw n m. subst n m. split.
  - intros E. unfold Carousel.measure. now rewrite E.
  - intros Hne.
    destruct (measure_based w height c Hw Hne) as (HL & HT & HB & HS & HV & HLT).
    cbv zeta in *. repeat apply conj; try assumption.
    + unfold Carousel.measure. destruct (items c); [congruence|].
      unfold or_else. cbn [truthy]. rewrite (Qeq_bool_false w 0) by lra.
      reflexivity.
    + unfold Carousel.measure. destruct (items c) eqn:E; [congruence|].
      unfold or_else. cbn [truthy]. rewrite (Qeq_bool_false w 0) by lra.
      reflexivity.
    + unfold Carousel.measure. destruct (items c) eqn:E; [congruence|].
      cbn [positions]. apply repeat_length.
    + unfold Carousel.measure. destruct (items c) eqn:E; [congruence|].
      reflexivity.
Qed.

(** X3, witness: ten cards 320 px wide. *)
Lemma measure_layout_witness :
  0 < 320
  /\ TRACK (Carousel.measure (Num 320) (Num 400)
              (FourColour.created 10 (Num 1200)))
     = Num (inject_Z (Z.of_nat 10) * (320 + 28)).
Proof.
  assert (Hw : 0 < 320) by reflexivity. split; [exact Hw|].
  destruct (measure_layout 320 (Num 400) (FourColour.created 10 (Num 1200)) Hw)
    as (_ & H).
  destruct H as (_ & HT & _); [discriminate | exact HT].
Defined.

(** ** Perspective transform *)

Lemma clamp_unit_finite (q : Q) :
  exists n, Carousel.clamp_unit (Num q) = Num n
            /\ -1 <= n <= 1
            /\ (-1 <= q <= 1 -> n == q)
            /\ (1 <= q -> n == 1)
            /\ (q <= -1 -> n == -1).
Proof.
  unfold Carousel.clamp_unit, Math_min, Math_max. cbn [lt].
  destruct (Qltb q 1) eqn:E1; [apply Qltb_lt in E1 | apply Qltb_ge in E1];
    cbn [lt]; qcases; eexists; (split; [reflexivity|]);
    repeat split; intros; lra.
Qed.

(** X4.  For a finite position and a positive half viewport width, with
    [MIN_SCALE = m] and [SCALE_RANGE = r >= 0]: the rotation lies in
    [[-28, 28]], the depth in [[0, 140]] and the scale in [[m, m + r]]; a card
    at the centre has rotation 0, depth 140 and scale [m + r]; a card half a
    viewport or more away has depth 0, scale [m] and rotation 28 or -28,
    turned away from the side it is on. *)
Theorem transform_ranges (m r v x : Q) :
  0 <= r -> 0 < v ->
  exists ry tz sc,
    Carousel.transformForScreenX (Num m) (Num r) (Num v) (Num x)
    = ({| translateX := Num x; translateZ := Num tz;
          rotateY := Num ry; scale := Num sc |}, Num tz)
    /\ (-28 <= ry <= 28) /\ (0 <= tz <= 140) /\ (m <= sc <= m + r)
    /\ (x == 0 -> ry == 0 /\ tz == 140 /\ sc == m + r)
    /\ (v <= x -> ry == -28 /\ tz == 0 /\ sc == m)
    /\ (x <= - v -> ry == 28 /\ tz == 0 /\ sc == m).
Proof.
  intros Hr Hv. unfold Carousel.transformForScreenX. cbn [div].
  rewrite (Qeq_bool_false v 0) by lra.
  destruct (clamp_unit_finite (x / v)) as (n & -> & Hn & Hmid & Hhi & Hlo).
  cbn [Math_abs sub mul add neg MAX_ROTATION MAX_DEPTH].
  eexists _, _, _. split; [reflexivity|].
  assert (Ha : 0 <= Qabs n <= 1).
  { split; [apply Qabs_nonneg|]. apply Qabs_Qle_condition. lra. }
  split; [nra|]. split; [nra|]. split; [nra|].
  assert (Hxv : x == x / v * v) by (field; lra).
  split; [|split].
  - intros Hx. assert (E : n == 0).
    { rewrite Hmid; [rewrite Hx; field; lra|].
      rewrite Hx. setoid_replace (0 / v) with 0 by (field; lra). lra. }
    rewrite E. change (Qabs 0) with 0. repeat split; ring.
  - intros Hx. assert (E : n == 1).
    { apply Hhi. apply Qle_shift_div_l; lra. }
    rewrite E. change (Qabs 1) with 1. repeat split; ring.
  - intros Hx. assert (E : n == -1).
    { apply Hlo. apply Qle_shift_div_r; lra. }
    rewrite E. change (Qabs (-1)) with 1. repeat split; ring.
Qed.

(** X4, witness: the four-colour constants, a card 348 px right of the
    centre of a window 1200 px wide. *)
Lemma transform_ranges_witness :
  (0 <= 0.20 /\ 0 < 600)
  /\ exists ry tz sc,
       Carousel.transformForScreenX FourColour.MIN_SCALE FourColour.SCALE_RANGE
         (Num 600) (Num 348)
       = ({| translateX := Num 348; translateZ := Num tz;
             rotateY := Num ry; scale := Num sc |}, Num tz)
       /\ (0.8 <= sc <= 0.8 + 0.20).
Proof.
  assert (Hr : 0 <= 0.20) by discriminate.
  assert (Hv : 0 < 600) by reflexivity.
  split; [split; assumption|].
  destruct (transform_ranges 0.8 0.20 600 348 Hr Hv)
    as (ry & tz & sc & E & _ & _ & Hs & _).
  exists ry, tz, sc. split; [exact E | exact Hs].
Defined.

(** The normalised position of a finite screen position, by cases. *)
Lemma clamp_unit_cases (q : Q) :
  exists n, Carousel.clamp_unit (Num q) = Num n
            /\ ((q <= -1 /\ n == -1) \/ (-1 <= q <= 1 /\ n == q)
                \/ (1 <= q /\ n == 1)).
Proof.
  destruct (clamp_unit_finite q) as (n & E & _ & Hmid & Hhi & Hlo).
  exists n. split; [exact E|].
  destruct (Qlt_le_dec q (-1)) as [H|H]; [left; split; [lra | apply Hlo; lra]|].
  destruct (Qlt_le_dec 1 q) as [H'|H'];
    [right; right; split; [lra | apply Hhi; lra]|].
  right; left. split; [lra | apply Hmid; lra].
Qed.

Lemma transform_closed (m r v x : Q) :
  0 < v ->
  exists n,
    Carousel.clamp_unit (Num (x / v)) = Num n
    /\ Carousel.transformForScreenX (Num m) (Num r) (Num v) (Num x)
       = ({| translateX := Num x;
             translateZ := Num ((1 - Qabs n) * 140);
             rotateY := Num (- n * 28);
             scale := Num (m + (1 - Qabs n) * r) |},
          Num ((1 - Qabs n) * 140)).
Proof.
  intros Hv. destruct (clamp_unit_finite (x / v)) as (n & E & _).
  exists n. split; [exact E|].
  unfold Carousel.transformForScreenX. cbn [div].
  rewrite (Qeq_bool_false v 0) by lra. rewrite E. reflexivity.
Qed.

(** The clamped, normalised position grows in magnitude with the distance
    from the centre. *)
Lemma clamp_abs_mono (v x y nx ny : Q) :
  0 < v ->
  Carousel.clamp_unit (Num (x / v)) = Num nx ->
  Carousel.clamp_unit (Num (y / v)) = Num ny ->
  Qabs x <= Qabs y -> Qabs nx <= Qabs ny.
Proof.
  intros Hv Ex Ey Hxy.
  destruct (clamp_unit_cases (x / v)) as (a & Ea & Ca).
  destruct (clamp_unit_cases (y / v)) as (b & Eb & Cb).
  rewrite Ex in Ea. rewrite Ey in Eb.
  injection Ea as <-. injection Eb as <-.
  assert (Hx : x == x / v * v) by (field; lra).
  assert (Hy : y == y / v * v) by (field; lra).
  set (p := x / v) in *. set (q := y / v) in *.
  assert (Hpq : Qabs p <= Qabs q).
  { assert (Hp : Qabs x == Qabs p * v).
    { rewrite Hx at 1. rewrite Qabs_Qmult, (Qabs_pos v) by lra. reflexivity. }
    assert (Hq : Qabs y == Qabs q * v).
    { rewrite Hy at 1. rewrite Qabs_Qmult, (Qabs_pos v) by lra. reflexivity. }
    rewrite Hp, Hq in Hxy. nra. }
  revert Hpq. clear - Ca Cb.
  destruct Ca as [[H E]|[[H E]|[H E]]], Cb as [[H' E']|[[H' E']|[H' E']]];
    rewrite E, E';
    repeat (apply Qabs_case; intros ?);
    try (change (Qabs 1) with 1); try (change (Qabs (-1)) with 1);
    intros; try lra;
    revert H1; repeat (apply Qabs_case; intros ?); intros; lra.
Qed.

(** X5.  The transform is mirror symmetric: the card at [-x] has the depth
    and the scale of the card at [x] and the opposite rotation.  And it falls
    off away from the centre: of two cards, the one farther from the centre
    is never nearer to the viewer nor larger. *)
Theorem transform_mirror_falloff (m r v x y : Q) :
  0 <= r -> 0 < v ->
  let T z :=
    fst (Carousel.transformForScreenX (Num m) (Num r) (Num v) (Num z)) in
  (translateZ (T (- x)%Q) === translateZ (T x))%js = true
  /\ (scale (T (- x)%Q) === scale (T x))%js = true
  /\ (rotateY (T (- x)%Q) === - rotateY (T x))%js = true
  /\ (Qabs x <= Qabs y ->
      (translateZ (T x) <? translateZ (T y))%js = false
      /\ (scale (T x) <? scale (T y))%js = false).
Proof.
  intros Hr Hv T. subst T. cbv beta.
  destruct (transform_closed m r v x Hv) as (nx & Ex & ->).
  destruct (transform_closed m r v (- x) Hv) as (nx' & Ex' & ->).
  destruct (transform_closed m r v y Hv) as (ny & Ey & ->).
  cbn [fst translateZ scale rotateY neg strict_eq lt].
  destruct (clamp_unit_cases (x / v)) as (a & Ea & Ca).
  destruct (clamp_unit_cases (- x / v)) as (a' & Ea' & Ca').
  destruct (clamp_unit_cases (y / v)) as (b & Eb & Cb).
  rewrite Ex in Ea. rewrite Ex' in Ea'. rewrite Ey in Eb.
  injection Ea as <-. injection Ea' as <-. injection Eb as <-.
  assert (Hneg : - x / v == - (x / v)) by (field; lra).
  assert (Hx : x == x / v * v) by (field; lra).
  assert (Hy : y == y / v * v) by (field; lra).
  set (p := x / v) in *. set (q := y / v) in *. set (p' := - x / v) in *.
  assert (Hopp : nx' == - nx).
  { destruct Ca as [[H E]|[[H E]|[H E]]], Ca' as [[H' E']|[[H' E']|[H' E']]];
      rewrite E, E'; lra. }
  assert (Habs : Qabs nx' == Qabs nx) by (rewrite Hopp; apply Qabs_opp).
  repeat apply conj.
  - apply Qeq_eq_bool. rewrite Habs. reflexivity.
  - apply Qeq_eq_bool. rewrite Habs. reflexivity.
  - apply Qeq_eq_bool. rewrite Hopp. ring.
  - intros Hxy.
    assert (Hn : Qabs nx <= Qabs ny)
      by exact (clamp_abs_mono v x y nx ny Hv Ex Ey Hxy).
    split; apply Qltb_ge; nra.
Qed.

(** X5, witness: the four-colour constants, cards 348 and 696 px off centre. *)
Lemma transform_mirror_falloff_witness :
  (0 <= 0.20 /\ 0 < 600)
  /\ (translateZ (fst (Carousel.transformForScreenX (Num 0.8) (Num 0.20)
                         (Num 600) (Num (- 348))))
      === translateZ (fst (Carousel.transformForScreenX (Num 0.8) (Num 0.20)
                             (Num 600) (Num 348))))%js = true.
Proof.
  assert (Hr : 0 <= 0.20) by discriminate.
  assert (Hv : 0 < 600) by reflexivity.
  split; [split; assumption|].
  destruct (transform_mirror_falloff 0.8 0.20 600 348 696 Hr Hv) as (H & _).
  exact H.
Defined.

(** ** Frames, resize, resume and warm-up *)

Section FrameFacts.

Variable Math_pow : number -> number -> number.
Variables MIN_SCALE SCALE_RANGE BLUR_COEF : number.
Variable isCore : Z -> Z -> number -> number -> bool.
Variable gradient : Type.
Variable activeIndex : gradient -> Z.
Variable setActiveGradient : number -> nat -> Z -> gradient -> gradient.

#[local] Abbreviation update :=
  (Carousel.updateCarouselTransforms Math_pow MIN_SCALE SCALE_RANGE BLUR_COEF
     isCore gradient activeIndex setActiveGradient).
#[local] Abbreviation tick :=
  (Carousel.tick Math_pow MIN_SCALE SCALE_RANGE BLUR_COEF
     isCore gradient activeIndex setActiveGradient).
#[local] Abbreviation onResize :=
  (Carousel.onResize Math_pow MIN_SCALE SCALE_RANGE BLUR_COEF
     isCore gradient activeIndex setActiveGradient).
#[local] Abbreviation warmLoop :=
  (warmupLoop Math_pow MIN_SCALE SCALE_RANGE BLUR_COEF
     isCore gradient activeIndex setActiveGradient).
#[local] Abbreviation warmup :=
  (warmupCompositing Math_pow MIN_SCALE SCALE_RANGE BLUR_COEF
     isCore gradient activeIndex setActiveGradient).
#[local] Abbreviation update_fields :=
  (update_carousel Math_pow MIN_SCALE SCALE_RANGE BLUR_COEF
     isCore gradient activeIndex setActiveGradient).
#[local] Abbreviation tick_fields :=
  (tick_carousel Math_pow MIN_SCALE SCALE_RANGE BLUR_COEF
     isCore gradient activeIndex setActiveGradient).

(** The carousel a frame leaves depends on the inputs only: not on the old
    positions and styles, the gradient state or the clock. *)
Lemma update_sameInputs now now' c1 c2 g1 g2 :
  sameInputs c1 c2 -> fst (update now c1 g1) = fst (update now' c2 g2).
Proof.
  intros (EI & EL & EV & EW & EH & ES & ET & EX & EVX).
  unfold Carousel.updateCarouselTransforms.
  rewrite EI, EL, EV, EW, EH, ES, ET, EX, EVX.
  destruct (Carousel.wrapLoop _ _ _ _ _) as [ps [k d]]. reflexivity.
Qed.

Lemma update_keeps now c g : sameInputs (fst (update now c g)) c.
Proof.
  unfold Carousel.updateCarouselTransforms.
  destruct (Carousel.wrapLoop _ _ _ _ _) as [ps [k d]].
  cbn [fst]. repeat split.
Qed.

Lemma sameInputs_refl c : sameInputs c c.
Proof. repeat split. Qed.

Lemma sameInputs_trans c1 c2 c3 :
  sameInputs c1 c2 -> sameInputs c2 c3 -> sameInputs c1 c3.
Proof.
  unfold sameInputs. intros H1 H2.
  repeat match goal with H : _ /\ _ |- _ => destruct H end.
  repeat split; congruence.
Qed.




(** The gradient state a frame leaves. *)
Lemma update_gradient now c g :
  snd (update now c g)
  = if (Carousel.closestIdx_of c =? activeIndex g)%Z then g
    else setActiveGradient now (length (items c)) (Carousel.closestIdx_of c) g.
Proof.
  unfold Carousel.updateCarouselTransforms, Carousel.closestIdx_of.
  destruct (Carousel.wrapLoop _ _ _ _ _) as [ps [k d]]. reflexivity.
Qed.

Lemma closestIdx_sameInputs c1 c2 :
  sameInputs c1 c2 -> Carousel.closestIdx_of c1 = Carousel.closestIdx_of c2.
Proof.
  intros (EI & _ & _ & _ & _ & _ & ET & EX & _).
  unfold Carousel.closestIdx_of. now rewrite EI, ET, EX.
Qed.

(** Updating twice in a row is updating once, for a retarget that does
    nothing the second time. *)
Lemma update_twice now now' c g :
  (forall t t' len idx g0,
     setActiveGradient t' len idx (setActiveGradient t len idx g0)
     = setActiveGradient t len idx g0) ->
  update now' (fst (update now c g)) (snd (update now c g)) = update now c g.
Proof.
  intros Htwice.
  pose proof (update_keeps now c g) as K.
  rewrite (surjective_pairing (update now' _ _)),
          (surjective_pairing (update now c g)).
  f_equal.
  - cbn [fst snd]. apply update_sameInputs. exact K.
  - cbn [fst snd]. rewrite !update_gradient.
    rewrite (closestIdx_sameInputs _ _ K).
    destruct K as (EI & _). rewrite EI.
    set (k := Carousel.closestIdx_of c). set (len := length (items c)).
    destruct (k =? activeIndex g)%Z eqn:E.
    + now rewrite E.
    + destruct (k =? activeIndex (setActiveGradient now len k g))%Z;
        [reflexivity | apply Htwice].
Qed.

Lemma warmupLoop_keeps n :
  forall i o st now c g x,
    sameInputs (withScroll (fst (warmLoop n i o st now c g)) x)
               (withScroll c x).
Proof.
  induction n as [|n IH]; intros i o st now c g x; cbn [warmupLoop].
  - apply sameInputs_refl.
  - match goal with
    | |- context [update now ?c1 g] =>
        pose proof (update_keeps now c1 g) as K;
        destruct (update now c1 g) as [c2 g2]
    end.
    cbn [fst] in K. eapply sameInputs_trans; [apply IH|].
    destruct K as (EI & EL & EV & EW & EH & ES & ET & _ & EVX).
    cbn [withScroll items lastTime VW_HALF CARD_W CARD_H STEP TRACK vX] in *.
    repeat split; assumption.
Qed.


End FrameFacts.





(** X11.  In both variants [updateCarouselTransforms] is idempotent: called
    again on the state it left, at any later time, it writes the same
    positions and styles and leaves the gradient state alone. *)
Theorem update_idempotent (Math_pow : number -> number -> number) now now' c :
  (forall g,
     ScriptEntry.updateCarouselTransforms Math_pow now'
       (fst (ScriptEntry.updateCarouselTransforms Math_pow now c g))
       (snd (ScriptEntry.updateCarouselTransforms Math_pow now c g))
     = ScriptEntry.updateCarouselTransforms Math_pow now c g)
  /\ (forall g,
        FourColour.updateCarouselTransforms Math_pow now'
          (fst (FourColour.updateCarouselTransforms Math_pow now c g))
          (snd (FourColour.updateCarouselTransforms Math_pow now c g))
        = FourColour.updateCarouselTransforms Math_pow now c g).
Proof.
  split; intros g.
  - apply update_twice. intros t t' len idx g0.
    apply two_colour_retarget_twice.
  - apply update_twice. intros t t' len idx g0.
    apply four_colour_retarget_twice.
Qed.

(** ** Colour conversions *)

Lemma Qrem_small (x m : Q) : 0 < m -> 0 <= x < m -> Qrem x m == x.
Proof.
  intros Hm Hx. destruct (Qrem_congruent x m) as (k & E).
  destruct (Qrem_nonneg x m Hm) as [A B]; [lra|].
  apply (turn_unique m (Qrem x m) x (- k)%Z Hm); [lra | exact Hx|].
  rewrite inject_Z_opp. lra.
Qed.

(** The hue [hslToRgb] works with: a number of [[0, 1)], the same for [h]
    and for [h] plus any whole number of turns. *)
Lemma hue_normal (h : Q) :
  let u := Qrem (Qrem h 360 + 360) 360 / 360 in
  0 <= u < 1
  /\ forall k : Z,
       Qrem (Qrem (h + inject_Z k * 360) 360 + 360) 360 == Qrem (Qrem h 360 + 360) 360.
Proof.
  assert (H360 : 0 < 360) by reflexivity.
  destruct (mod_congruent h 360 H360) as (r & k0 & E & Hr & Hk).
  unfold mod_ in E. cbn in E. injection E as E.
  cbv zeta. rewrite E. split.
  - split; [apply Qle_shift_div_l | apply Qlt_shift_div_r]; lra.
  - intros k.
    destruct (mod_congruent (h + inject_Z k * 360) 360 H360)
      as (r' & k' & E' & Hr' & Hk').
    unfold mod_ in E'. cbn in E'. injection E' as E'. rewrite E'.
    apply (turn_unique 360 r' r (k0 + k - k')%Z H360 Hr' Hr).
    unfold Z.sub. rewrite !inject_Z_plus, inject_Z_opp. lra.
Qed.

Lemma hue2rgb_between (p q t : Q) :
  p <= q -> - (1 # 3) <= t <= 4 # 3 ->
  p <= hue2rgb p q t /\ hue2rgb p q t <= q.
Proof.
  intros Hpq Ht. unfold hue2rgb.
  qcases; qinv_consts; split;
    first [ nra | assert (Hd : 0 <= q - p) by lra; nra ].
Qed.

Lemma Qltb_comp (a a' b b' : Q) :
  a == a' -> b == b' -> Qltb a b = Qltb a' b'.
Proof.
  intros Ea Eb. unfold Qltb. now rewrite (Qleb_comp b b' Eb a a' Ea).
Qed.

Lemma hue2rgb_comp (p q t t' : Q) :
  t == t' -> hue2rgb p q t == hue2rgb p q t'.
Proof.
  intros E. unfold hue2rgb.
  rewrite (Qltb_comp t t' 0 0 E (Qeq_refl 0)).
  set (t1 := if Qltb t' 0 then t + 1 else t).
  set (t1' := if Qltb t' 0 then t' + 1 else t').
  assert (E1 : t1 == t1').
  { unfold t1, t1'. destruct (Qltb t' 0); now rewrite E. }
  rewrite (Qltb_comp 1 1 t1 t1' (Qeq_refl 1) E1).
  set (t2 := if Qltb 1 t1' then t1 - 1 else t1).
  set (t2' := if Qltb 1 t1' then t1' - 1 else t1').
  assert (E2 : t2 == t2').
  { unfold t2, t2'. destruct (Qltb 1 t1'); now rewrite E1. }
  rewrite (Qltb_comp t2 t2' _ _ E2 (Qeq_refl (1 / 6))).
  rewrite (Qltb_comp t2 t2' _ _ E2 (Qeq_refl (1 / 2))).
  rewrite (Qltb_comp t2 t2' _ _ E2 (Qeq_refl (2 / 3))).
  destruct (Qltb t2' (1 / 6)); [now rewrite E2|].
  destruct (Qltb t2' (1 / 2)); [reflexivity|].
  destruct (Qltb t2' (2 / 3)); [now rewrite E2 | reflexivity].
Qed.

Lemma round_comp (a b : Q) :
  a == b -> Qround_half_up (a * 255) = Qround_half_up (b * 255).
Proof.
  intros E. unfold Qround_half_up. apply Qfloor_comp. now rewrite E.
Qed.

Lemma round_channel (x : Q) :
  0 <= x <= 1 -> (0 <= Qround_half_up (x * 255) <= 255)%Z.
Proof.
  intros Hx. unfold Qround_half_up.
  assert (H0 : (Qfloor 0 <= Qfloor (x * 255 + 0.5))%Z)
    by (apply Qfloor_resp_le; lra).
  assert (H1 : (Qfloor (x * 255 + 0.5) <= Qfloor 255.5)%Z)
    by (apply Qfloor_resp_le; lra).
  change (Qfloor 0) with 0%Z in H0. change (Qfloor 255.5) with 255%Z in H1.
  split; assumption.
Qed.

(** The light and dark ends of [hslToRgb]'s interpolation. *)
Lemma hsl_ends (s l : Q) :
  0 <= s <= 1 -> 0 <= l <= 1 ->
  let q := if Qltb l 0.5 then l * (1 + s) else l + s - l * s in
  let p := 2 * l - q in
  0 <= p /\ p <= q /\ q <= 1.
Proof.
  intros Hs Hl. cbv zeta. qcases; repeat split; nra.
Qed.

Lemma hslToRgb_byte (h s l : Q) :
  0 <= s <= 1 -> 0 <= l <= 1 -> byteColour (hslToRgb h s l).
Proof.
  intros Hs Hl.
  destruct (hue_normal h) as (Hu & _). cbv zeta in Hu.
  unfold hslToRgb, byteColour.
  set (u := Qrem (Qrem h 360 + 360) 360 / 360) in *.
  destruct (Qeq_bool s 0).
  - cbn [red green blue fst snd]. repeat split; apply round_channel; lra.
  - destruct (hsl_ends s l Hs Hl) as (Hp & Hpq & Hq). cbv zeta in *.
    set (q := if Qltb l 0.5 then l * (1 + s) else l + s - l * s) in *.
    set (p := 2 * l - q) in *.
    cbn [red green blue fst snd].
    assert (B : forall t, - (1 # 3) <= t <= 4 # 3 ->
                          0 <= hue2rgb p q t <= 1).
    { intros t Ht. destruct (hue2rgb_between p q t Hpq Ht). lra. }
    repeat split; apply round_channel; apply B; qlra.
Qed.

(** X10.  For a saturation and a lightness of [[0, 1]] and any hue,
    [hslToRgb] returns three integers of [[0, 255]]; the result is the same
    for [h] and [h] plus any whole number of turns; saturation 0 gives the
    gray of the lightness, lightness 0 black and lightness 1 white. *)
Theorem hslToRgb_channels (h s l : Q) :
  0 <= s <= 1 -> 0 <= l <= 1 ->
  byteColour (hslToRgb h s l)
  /\ (forall k : Z, hslToRgb (h + inject_Z k * 360) s l = hslToRgb h s l)
  /\ hslToRgb h 0 l
     = (Qround_half_up (l * 255), Qround_half_up (l * 255),
        Qround_half_up (l * 255))
  /\ hslToRgb h s 0 = (0, 0, 0)%Z
  /\ hslToRgb h s 1 = (255, 255, 255)%Z.
Proof.
  intros Hs Hl.
  destruct (hue_normal h) as (Hu & Hper). cbv zeta in Hu.
  split; [|split; [|split; [|split]]].
  - now apply hslToRgb_byte.
  - intros k. unfold hslToRgb.
    assert (E : Qrem (Qrem (h + inject_Z k * 360) 360 + 360) 360 / 360
                == Qrem (Qrem h 360 + 360) 360 / 360).
    { rewrite (Hper k). reflexivity. }
    set (u' := Qrem (Qrem (h + inject_Z k * 360) 360 + 360) 360 / 360) in *.
    set (u := Qrem (Qrem h 360 + 360) 360 / 360) in *.
    destruct (Qeq_bool s 0); [reflexivity|].
    set (q := if Qltb l 0.5 then l * (1 + s) else l + s - l * s).
    set (p := 2 * l - q).
    assert (H2 : forall a, hue2rgb p q (u' + a) == hue2rgb p q (u + a)).
    { intros a. apply hue2rgb_comp. now rewrite E. }
    assert (E0 : hue2rgb p q u' == hue2rgb p q u).
    { now apply hue2rgb_comp. }
    unfold Qminus.
    rewrite (round_comp _ _ (H2 (1 / 3))), (round_comp _ _ E0),
      (round_comp _ _ (H2 (- (1 / 3)))).
    reflexivity.
  - reflexivity.
  - unfold hslToRgb. destruct (Qeq_bool s 0); [reflexivity|].
    cbn [Qltb Qle_bool negb]. change (Qltb 0 0.5) with true. cbv iota.
    set (u := Qrem (Qrem h 360 + 360) 360 / 360).
    assert (Z0 : forall t, hue2rgb (2 * 0 - 0 * (1 + s)) (0 * (1 + s)) t == 0).
    { intros t. unfold hue2rgb. qcases; ring. }
    rewrite !(round_comp _ _ (Z0 _)). reflexivity.
  - unfold hslToRgb. destruct (Qeq_bool s 0); [reflexivity|].
    change (Qltb 1 0.5) with false. cbv iota.
    set (u := Qrem (Qrem h 360 + 360) 360 / 360).
    assert (Z1 : forall t,
               hue2rgb (2 * 1 - (1 + s - 1 * s)) (1 + s - 1 * s) t == 1).
    { intros t. unfold hue2rgb. qcases; ring. }
    rewrite !(round_comp _ _ (Z1 _)). reflexivity.
Qed.

(** X10, witness: the fallback colour of card 1. *)
Lemma hslToRgb_channels_witness :
  ((0 <= 0.65 <= 1) /\ (0 <= 0.52 <= 1))
  /\ byteColour (hslToRgb 37 0.65 0.52).
Proof.
  assert (Hs : 0 <= 0.65 <= 1) by (split; discriminate).
  assert (Hl : 0 <= 0.52 <= 1) by (split; discriminate).
  split; [split; assumption|].
  destruct (hslToRgb_channels 37 0.65 0.52 Hs Hl) as (H & _). exact H.
Defined.

Lemma max3_spec (a b c : Q) :
  a <= Qmax3 a b c /\ b <= Qmax3 a b c /\ c <= Qmax3 a b c
  /\ (Qmax3 a b c == a \/ Qmax3 a b c == b \/ Qmax3 a b c == c).
Proof.
  unfold Qmax3.
  destruct (Q.max_spec a b) as [[H E]|[H E]],
           (Q.max_spec (Qmax a b) c) as [[H' E']|[H' E']];
    (split; [lra|]); (split; [lra|]); (split; [lra|]);
    first [ left; lra | right; left; lra | right; right; lra ].
Qed.

Lemma min3_spec (a b c : Q) :
  Qmin3 a b c <= a /\ Qmin3 a b c <= b /\ Qmin3 a b c <= c
  /\ (Qmin3 a b c == a \/ Qmin3 a b c == b \/ Qmin3 a b c == c).
Proof.
  unfold Qmin3.
  destruct (Q.min_spec a b) as [[H E]|[H E]],
           (Q.min_spec (Qmin a b) c) as [[H' E']|[H' E']];
    (split; [lra|]); (split; [lra|]); (split; [lra|]);
    first [ left; lra | right; left; lra | right; right; lra ].
Qed.

Lemma Qdiv_between (n d lo hi : Q) :
  0 < d -> lo * d <= n <= hi * d -> lo <= n / d <= hi.
Proof.
  intros Hd [H1 H2]. split.
  - apply Qle_shift_div_l; assumption.
  - apply Qle_shift_div_r; assumption.
Qed.

Lemma Qdiv_times (n d : Q) : 0 < d -> n / d * d == n.
Proof. intros Hd. field. lra. Qed.

(** What [rgbToHsl] returns on channels of [[0, 255]], by the branch it
    takes: with [M] and [m] the largest and the smallest channel over 255,
    the lightness is their mean; a gray has hue and saturation 0; otherwise
    the saturation is positive, at most 1, and the hue, in sixths of a turn,
    lies in the sector of the largest channel. *)
Lemma rgbToHsl_cases (r g b : Q) :
  0 <= r <= 255 -> 0 <= g <= 255 -> 0 <= b <= 255 ->
  let R := r / 255 in
  let G := g / 255 in
  let B := b / 255 in
  let M := Qmax3 R G B in
  let m := Qmin3 R G B in
  (M == m /\ rgbToHsl r g b = (0 * 360, 0, (M + m) / 2))
  \/ (m < M
      /\ exists h6 s,
           rgbToHsl r g b = (h6 / 6 * 360, s, (M + m) / 2)
           /\ 0 < s <= 1
           /\ (Qltb 0.5 ((M + m) / 2) = true -> s * (2 - M - m) == M - m)
           /\ (Qltb 0.5 ((M + m) / 2) = false -> s * (M + m) == M - m)
           /\ ((M == R /\ B <= G /\ h6 * (M - m) == G - B /\ 0 <= h6 <= 1)
               \/ (M == R /\ G < B /\ (h6 - 6) * (M - m) == G - B
                   /\ 5 <= h6 < 6)
               \/ (M == G /\ R < G /\ (h6 - 2) * (M - m) == B - R
                   /\ 1 <= h6 <= 3)
               \/ (M == B /\ R < B /\ G < B /\ (h6 - 4) * (M - m) == R - G
                   /\ 3 <= h6 <= 5))).
Proof.
  intros Hr Hg Hb R G B M m. unfold rgbToHsl. cbv zeta.
  fold R G B. fold M m.
  assert (HR : 0 <= R <= 1) by (unfold R; split; qlra).
  assert (HG : 0 <= G <= 1) by (unfold G; split; qlra).
  assert (HB : 0 <= B <= 1) by (unfold B; split; qlra).
  destruct (max3_spec R G B) as (M1 & M2 & M3 & M4).
  destruct (min3_spec R G B) as (m1 & m2 & m3 & m4).
  fold M in M1, M2, M3, M4. fold m in m1, m2, m3, m4.
  clearbody M m. clearbody R G B.
  destruct (Qeq_bool M m) eqn:Egray.
  { left. apply Qeq_bool_iff in Egray. split; [exact Egray | reflexivity]. }
  right. apply Qeq_bool_neq in Egray.
  assert (Hd : 0 < M - m) by lra.
  split; [lra|].
  eexists _, _. split; [reflexivity|].
  split; [|split; [|split]].
  - destruct (Qltb 0.5 ((M + m) / 2)) eqn:El;
      [apply Qltb_lt in El | apply Qltb_ge in El].
    + assert (Hp : 0 < 2 - M - m) by lra.
      split; [apply Qlt_shift_div_l; lra | apply Qle_shift_div_r; lra].
    + assert (Hp : 0 < M + m) by lra.
      split; [apply Qlt_shift_div_l; lra | apply Qle_shift_div_r; lra].
  - intros El. rewrite El. apply Qltb_lt in El.
    apply Qdiv_times. qlra.
  - intros El. rewrite El. apply Qltb_ge in El.
    apply Qdiv_times. lra.
  - destruct (Qeq_bool M R) eqn:ER.
    + apply Qeq_bool_iff in ER.
      destruct (Qltb G B) eqn:EGB;
        [apply Qltb_lt in EGB | apply Qltb_ge in EGB].
      * right; left. split; [exact ER|]. split; [exact EGB|].
        pose proof (Qdiv_times (G - B) (M - m) Hd) as Ex.
        destruct (Qdiv_between (G - B) (M - m) (-1) 0 Hd) as [X1 X2]; [lra|].
        set (x := (G - B) / (M - m)) in *.
        assert (Hx : x < 0) by nra.
        split; [|lra]. ring_simplify. lra.
      * left. split; [exact ER|]. split; [exact EGB|].
        pose proof (Qdiv_times (G - B) (M - m) Hd) as Ex.
        destruct (Qdiv_between (G - B) (M - m) 0 1 Hd) as [X1 X2]; [lra|].
        set (x := (G - B) / (M - m)) in *.
        split; [|lra]. ring_simplify. lra.
    + apply Qeq_bool_neq in ER.
      destruct (Qeq_bool M G) eqn:EG.
      * apply Qeq_bool_iff in EG. right; right; left.
        split; [exact EG|]. split; [lra|].
        pose proof (Qdiv_times (B - R) (M - m) Hd) as Ex.
        destruct (Qdiv_between (B - R) (M - m) (-1) 1 Hd) as [X1 X2]; [lra|].
        set (x := (B - R) / (M - m)) in *.
        split; [|lra]. ring_simplify. lra.
      * apply Qeq_bool_neq in EG. right; right; right.
        assert (EB : M == B) by (destruct M4 as [H|[H|H]]; [lra | lra | exact H]).
        split; [exact EB|]. split; [lra|]. split; [lra|].
        pose proof (Qdiv_times (R - G) (M - m) Hd) as Ex.
        destruct (Qdiv_between (R - G) (M - m) (-1) 1 Hd) as [X1 X2]; [lra|].
        set (x := (R - G) / (M - m)) in *.
        split; [|lra]. ring_simplify. lra.
Qed.

(** X12.  On channels of [[0, 255]] [rgbToHsl] returns a hue of
    [[0, 360)], a saturation and a lightness of [[0, 1]]; the saturation is 0
    exactly for the grays, and then the hue is 0 too. *)
Theorem rgbToHsl_ranges (r g b : Q) :
  0 <= r <= 255 -> 0 <= g <= 255 -> 0 <= b <= 255 ->
  let '(h, s, l) := rgbToHsl r g b in
  0 <= h < 360 /\ 0 <= s <= 1 /\ 0 <= l <= 1
  /\ (s == 0 <-> r == g /\ g == b)
  /\ (s == 0 -> h == 0).
Proof.
  intros Hr Hg Hb.
  pose proof (rgbToHsl_cases r g b Hr Hg Hb) as C. cbv zeta in C.
  destruct (max3_spec (r / 255) (g / 255) (b / 255)) as (M1 & M2 & M3 & M4).
  destruct (min3_spec (r / 255) (g / 255) (b / 255)) as (m1 & m2 & m3 & m4).
  set (M := Qmax3 (r / 255) (g / 255) (b / 255)) in *.
  set (m := Qmin3 (r / 255) (g / 255) (b / 255)) in *.
  assert (HR : 0 <= r / 255 <= 1) by (split; qlra).
  assert (HG : 0 <= g / 255 <= 1) by (split; qlra).
  assert (HB : 0 <= b / 255 <= 1) by (split; qlra).
  assert (Er : r == r / 255 * 255) by (field; discriminate).
  assert (Eg : g == g / 255 * 255) by (field; discriminate).
  assert (Eb : b == b / 255 * 255) by (field; discriminate).
  set (R := r / 255) in *. set (G := g / 255) in *. set (B := b / 255) in *.
  clearbody M m R G B.
  destruct C as [[E ->]|(Hlt & h6 & s & -> & Hs & _ & _ & Hsec)].
  - split; [split; [discriminate | reflexivity]|].
    split; [split; discriminate|]. split; [split; qlra|].
    split; [|intros _; reflexivity].
    split; [intros _; split; lra | intros _; reflexivity].
  - assert (Hh : 0 <= h6 < 6).
    { destruct Hsec as [H|[H|[H|H]]];
        repeat match goal with H : _ /\ _ |- _ => destruct H end; split; lra. }
    split; [split; qlra|]. split; [split; lra|]. split; [split; qlra|].
    split; [|intros E; lra].
    split; [intros E; lra|].
    intros [E1 E2]. exfalso. nra.
Qed.

(** X12, witness: the orange of the samples. *)
Lemma rgbToHsl_ranges_witness :
  ((0 <= 255 <= 255) /\ (0 <= 128 <= 255) /\ (0 <= 0 <= 255))
  /\ 0 <= fst (fst (rgbToHsl 255 128 0)) < 360.
Proof.
  assert (Hr : 0 <= 255 <= 255) by (split; discriminate).
  assert (Hg : 0 <= 128 <= 255) by (split; discriminate).
  assert (Hb : 0 <= 0 <= 255) by (split; discriminate).
  split; [repeat split; assumption || apply Hr || apply Hg || apply Hb|].
  pose proof (rgbToHsl_ranges 255 128 0 Hr Hg Hb) as H.
  destruct (rgbToHsl 255 128 0) as [[h s] l]. destruct H as (H & _). exact H.
Defined.

Lemma round_byte (x : Q) (z : Z) :
  x == inject_Z z / 255 -> Qround_half_up (x * 255) = z.
Proof.
  intros E. unfold Qround_half_up.
  assert (Ex : x * 255 + 0.5 == inject_Z z + 0.5) by (rewrite E; field).
  rewrite (Qfloor_comp _ _ Ex).
  pose proof (Qfloor_le (inject_Z z + 0.5)) as H1.
  pose proof (Qlt_floor (inject_Z z + 0.5)) as H2.
  set (f := Qfloor (inject_Z z + 0.5)) in *.
  rewrite inject_Z_plus in H2. change (inject_Z 1) with 1 in H2.
  assert (A : (f < z + 1)%Z).
  { rewrite Zlt_Qlt, inject_Z_plus. change (inject_Z 1) with 1. lra. }
  assert (C : (z < f + 1)%Z).
  { rewrite Zlt_Qlt, inject_Z_plus. change (inject_Z 1) with 1. lra. }
  lia.
Qed.

Lemma hue2rgb_comp3 (p p' q q' t t' : Q) :
  p == p' -> q == q' -> t == t' -> hue2rgb p q t == hue2rgb p' q' t'.
Proof.
  intros Ep Eq E. rewrite (hue2rgb_comp p q t t' E). unfold hue2rgb.
  destruct (Qltb _ (1 / 6)); [now rewrite Ep, Eq|].
  destruct (Qltb _ (1 / 2)); [exact Eq|].
  destruct (Qltb _ (2 / 3)); [now rewrite Ep, Eq | exact Ep].
Qed.

(** The three calls of [hue2rgb] in [hslToRgb], at the smallest and the
    largest channel and a hue in the sector [rgbToHsl] computes, give the
    three channels back. *)
Lemma hue2rgb_sector (R G B M m h6 : Q) :
  R <= M -> G <= M -> B <= M -> m <= R -> m <= G -> m <= B -> m < M ->
  (m == R \/ m == G \/ m == B) ->
  (M == R /\ B <= G /\ h6 * (M - m) == G - B /\ 0 <= h6 <= 1)
  \/ (M == R /\ G < B /\ (h6 - 6) * (M - m) == G - B /\ 5 <= h6 < 6)
  \/ (M == G /\ R < G /\ (h6 - 2) * (M - m) == B - R /\ 1 <= h6 <= 3)
  \/ (M == B /\ R < B /\ G < B /\ (h6 - 4) * (M - m) == R - G
      /\ 3 <= h6 <= 5) ->
  hue2rgb m M (h6 / 6 + 1 / 3) == R
  /\ hue2rgb m M (h6 / 6) == G
  /\ hue2rgb m M (h6 / 6 - 1 / 3) == B.
Proof.
  intros M1 M2 M3 m1 m2 m3 Hlt m4 Hsec.
  destruct Hsec as [H|[H|[H|H]]];
    repeat match goal with H : _ /\ _ |- _ => destruct H end;
    destruct m4 as [Em|[Em|Em]];
    (split; [|split]); unfold hue2rgb; qcases; qinv_consts;
    first [ lra | nra ].
Qed.

Lemma hue_of_turn (x : Q) :
  0 <= x < 360 -> Qrem (Qrem x 360 + 360) 360 == x.
Proof.
  intros Hx. assert (H360 : 0 < 360) by reflexivity.
  destruct (mod_fixed x 360 H360 Hx) as (r & E & Er & _).
  unfold mod_ in E. cbn in E. injection E as E. now rewrite E.
Qed.

(** X13.  Converting a colour with integer channels of [[0, 255]] to hue,
    saturation and lightness and back gives the colour again. *)
Theorem hsl_round_trip (r g b : Z) :
  (0 <= r <= 255)%Z -> (0 <= g <= 255)%Z -> (0 <= b <= 255)%Z ->
  let '(h, s, l) := rgbToHsl (inject_Z r) (inject_Z g) (inject_Z b) in
  hslToRgb h s l = (r, g, b).
Proof.
  intros Hr Hg Hb.
  assert (Hr' : 0 <= inject_Z r <= 255).
  { change 0 with (inject_Z 0). change 255 with (inject_Z 255).
    rewrite <- !Zle_Qle. exact Hr. }
  assert (Hg' : 0 <= inject_Z g <= 255).
  { change 0 with (inject_Z 0). change 255 with (inject_Z 255).
    rewrite <- !Zle_Qle. exact Hg. }
  assert (Hb' : 0 <= inject_Z b <= 255).
  { change 0 with (inject_Z 0). change 255 with (inject_Z 255).
    rewrite <- !Zle_Qle. exact Hb. }
  pose proof (rgbToHsl_cases _ _ _ Hr' Hg' Hb') as C. cbv zeta in C.
  destruct (max3_spec (inject_Z r / 255) (inject_Z g / 255) (inject_Z b / 255))
    as (M1 & M2 & M3 & M4).
  destruct (min3_spec (inject_Z r / 255) (inject_Z g / 255) (inject_Z b / 255))
    as (m1 & m2 & m3 & m4).
  set (M := Qmax3 _ _ _) in *. set (m := Qmin3 _ _ _) in *.
  set (R := inject_Z r / 255) in *. set (G := inject_Z g / 255) in *.
  set (B := inject_Z b / 255) in *.
  destruct C as [[E ->]|(Hlt & h6 & s & -> & Hs & Hs1 & Hs2 & Hsec)].
  - unfold hslToRgb. change (Qeq_bool 0 0) with true. cbv iota beta zeta.
    f_equal; [f_equal|]; apply round_byte; fold R G B; qlra.
  - unfold hslToRgb. rewrite (Qeq_bool_false s 0) by lra.
    cbv iota beta zeta.
    set (l := (M + m) / 2) in *.
    set (q := if Qltb l 0.5 then l * (1 + s) else l + s - l * s).
    set (p := 2 * l - q).
    set (u := Qrem (Qrem (h6 / 6 * 360) 360 + 360) 360 / 360).
    assert (Hh : 0 <= h6 < 6).
    { destruct Hsec as [H|[H|[H|H]]];
        repeat match goal with H : _ /\ _ |- _ => destruct H end; split; lra. }
    assert (Eu : u == h6 / 6).
    { unfold u. rewrite hue_of_turn by (split; qlra). field. }
    assert (El : l == (M + m) / 2) by reflexivity.
    assert (Eq : q == M).
    { unfold q. clearbody l.
      destruct (Qltb 0.5 l) eqn:E1;
        [ pose proof (Hs1 eq_refl) as Es; apply Qltb_lt in E1
        | pose proof (Hs2 eq_refl) as Es; apply Qltb_ge in E1 ];
        destruct (Qltb l 0.5) eqn:E2;
        [apply Qltb_lt in E2 | apply Qltb_ge in E2
        |apply Qltb_lt in E2 | apply Qltb_ge in E2]; qinv_consts; nra. }
    assert (Ep : p == m) by (unfold p; rewrite Eq; clearbody l; qlra).
    destruct (hue2rgb_sector R G B M m h6 M1 M2 M3 m1 m2 m3 Hlt m4 Hsec)
      as (SR & SG & SB).
    f_equal; [f_equal|]; apply round_byte; fold R G B.
    + rewrite <- SR. apply hue2rgb_comp3; [exact Ep | exact Eq | now rewrite Eu].
    + rewrite <- SG. apply hue2rgb_comp3; [exact Ep | exact Eq | exact Eu].
    + rewrite <- SB. apply hue2rgb_comp3; [exact Ep | exact Eq | now rewrite Eu].
Qed.

(** X13, witness: the orange of the samples. *)
Lemma hsl_round_trip_witness :
  ((0 <= 255 <= 255)%Z /\ (0 <= 128 <= 255)%Z /\ (0 <= 0 <= 255)%Z)
  /\ hslToRgb (fst (fst (rgbToHsl 255 128 0))) (snd (fst (rgbToHsl 255 128 0)))
       (snd (rgbToHsl 255 128 0))
     = (255, 128, 0)%Z.
Proof.
  assert (Hr : (0 <= 255 <= 255)%Z) by lia.
  assert (Hg : (0 <= 128 <= 255)%Z) by lia.
  assert (Hb : (0 <= 0 <= 255)%Z) by lia.
  split; [repeat split; lia|].
  pose proof (hsl_round_trip 255 128 0 Hr Hg Hb) as H.
  change (inject_Z 255) with 255 in H. change (inject_Z 128) with 128 in H.
  change (inject_Z 0) with 0 in H.
  destruct (rgbToHsl 255 128 0) as [[h s] l]. exact H.
Defined.

(** ** The histogram *)

Lemma add_at_length (k : nat) (v : Q) (arr : list Q) :
  length (add_at k v arr) = length arr.
Proof.
  revert k. induction arr as [|x rest IH]; intros [|k]; cbn; auto.
Qed.

Lemma nth_add_at (arr : list Q) :
  forall n k v,
    nth n (add_at k v arr) 0
    = if ((n =? k) && (k <? length arr))%nat then nth n arr 0 + v
      else nth n arr 0.
Proof.
  induction arr as [|x rest IH]; intros n k v.
  - destruct k, n; cbn; try reflexivity; now rewrite andb_false_r.
  - destruct k as [|k], n as [|n]; cbn [add_at nth]; try reflexivity.
    rewrite IH. reflexivity.
Qed.

Lemma byteQ_range (x : byte) : 0 <= byteQ x <= 255.
Proof.
  unfold byteQ. pose proof (Byte.to_N_bounded x) as H.
  change 0 with (inject_Z 0). change 255 with (inject_Z 255).
  rewrite <- !Zle_Qle. lia.
Qed.

(** What [addPixel] does: nothing for a skipped pixel; for any other it adds
    a positive weight, and the channels times that weight, at one and the
    same index within the arrays. *)
Lemma addPixel_cases r g b a acc :
  (skipped r g b a = true /\ addPixel r g b a acc = acc)
  \/ (skipped r g b a = false
      /\ exists (k : nat) (w : Q),
           (k < Z.to_nat SIZE)%nat /\ 0 < w
           /\ addPixel r g b a acc
              = {| wSum := add_at k w (wSum acc);
                   rSum := add_at k (byteQ r * w) (rSum acc);
                   gSum := add_at k (byteQ g * w) (gSum acc);
                   bSum := add_at k (byteQ b * w) (bSum acc) |}).
Proof.
  unfold skipped, addPixel.
  destruct (Qltb (byteQ a / 255) 0.05) eqn:Ea; [left; now split|].
  apply Qltb_ge in Ea.
  destruct (rgbToHsl (byteQ r) (byteQ g) (byteQ b)) as [[h s] l].
  destruct (Qltb l 0.10 || Qltb 0.92 l || Qltb s 0.08) eqn:Esk;
    [left; now split|].
  right. split; [reflexivity|].
  apply orb_false_iff in Esk as [Esk Es].
  apply orb_false_iff in Esk as [El1 El2].
  apply Qltb_ge in Es, El1, El2.
  eexists _, _. split; [|split; [|reflexivity]].
  - unfold SIZE, H_BINS, S_BINS.
    change (inject_Z 36) with 36. change (inject_Z 5) with 5.
    set (x := Qfloor (h / 360 * 36)). set (y := Qfloor (s * 5)). lia.
  - assert (Hab : Qabs (l - 0.5) <= 0.42) by (apply Qabs_Qle_condition; lra).
    set (d := Qabs (l - 0.5)) in *.
    assert (Hs2 : 0 < s * s) by nra.
    assert (Ha : 0 < byteQ a / 255) by lra.
    set (al := byteQ a / 255) in *.
    assert (H1 : 0 < al * (s * s)) by nra.
    assert (H2 : 0 < 1 - d * 0.6) by lra.
    nra.
Qed.

Lemma emptyBins_histogram : histogram emptyBins.
Proof.
  repeat split; try reflexivity; unfold emptyBins, at_, zeros;
    cbn [wSum rSum gSum bSum]; rewrite nth_repeat; lra.
Qed.

Lemma addPixel_histogram r g b a acc :
  histogram acc -> histogram (addPixel r g b a acc).
Proof.
  intros H.
  destruct (addPixel_cases r g b a acc)
    as [[_ ->]|(_ & k & w & Hk & Hw & ->)]; [exact H|].
  destruct H as (Lw & Lr & Lg & Lb & H).
  unfold histogram. cbn [wSum rSum gSum bSum].
  rewrite !add_at_length.
  split; [exact Lw|]. split; [exact Lr|]. split; [exact Lg|].
  split; [exact Lb|].
  intros i. unfold at_. rewrite !nth_add_at. rewrite Lw, Lr, Lg, Lb.
  specialize (H i). unfold at_ in H.
  pose proof (byteQ_range r). pose proof (byteQ_range g).
  pose proof (byteQ_range b).
  destruct ((Z.to_nat i =? k) && (k <? Z.to_nat SIZE))%nat; [|exact H].
  repeat match goal with H : _ /\ _ |- _ => destruct H end.
  repeat split; nra.
Qed.

Lemma sample_histogram_from data :
  forall acc, histogram acc -> histogram (sample data acc).
Proof.
  induction data as [data Hshort | r g b a rest IH] using pixels_ind;
    intros acc H.
  - now rewrite sample_short.
  - cbn [sample]. apply IH. now apply addPixel_histogram.
Qed.

Lemma round_range (y : Q) :
  0 <= y <= 255 -> (0 <= Qround_half_up y <= 255)%Z.
Proof.
  intros Hy. unfold Qround_half_up.
  assert (H0 : (Qfloor 0 <= Qfloor (y + 0.5))%Z)
    by (apply Qfloor_resp_le; lra).
  assert (H1 : (Qfloor (y + 0.5) <= Qfloor 255.5)%Z)
    by (apply Qfloor_resp_le; lra).
  change (Qfloor 0) with 0%Z in H0. change (Qfloor 255.5) with 255%Z in H1.
  split; assumption.
Qed.

Lemma avgRGB_byte acc i : histogram acc -> byteColour (avgRGB acc i).
Proof.
  intros (_ & _ & _ & _ & H). specialize (H i).
  destruct H as (Hw & Hr & Hg & Hb).
  unfold avgRGB, byteColour. cbn [red green blue fst snd].
  destruct (Qeq_bool (at_ (wSum acc) i) 0) eqn:E.
  - apply Qeq_bool_iff in E.
    assert (B : forall x, 0 <= x <= 255 * at_ (wSum acc) i ->
                          0 <= x / 1e-6 <= 255).
    { intros x Hx. assert (Ex : x == 0) by (rewrite E in Hx; lra).
      rewrite Ex. split; discriminate. }
    repeat split; apply round_range; now apply B.
  - apply Qeq_bool_neq in E.
    assert (Hpos : 0 < at_ (wSum acc) i) by lra.
    assert (B : forall x, 0 <= x <= 255 * at_ (wSum acc) i ->
                          0 <= x / at_ (wSum acc) i <= 255).
    { intros x Hx. apply Qdiv_between; [exact Hpos | lra]. }
    repeat split; apply round_range; now apply B.
Qed.

(** X14.  Whatever the image data, the sampling loop leaves four arrays of
    180 entries with no negative weight and, in every bin, channel sums
    between 0 and 255 times the weight of the bin; so the weighted-average
    colour of every bin has its three channels in [[0, 255]]. *)
Theorem sample_histogram (data : list byte) :
  histogram (sample data emptyBins)
  /\ forall i, byteColour (avgRGB (sample data emptyBins) i).
Proof.
  assert (H : histogram (sample data emptyBins))
    by apply sample_histogram_from, emptyBins_histogram.
  split; [exact H|]. intros i. now apply avgRGB_byte.
Qed.

(** ** The primary bin *)

Lemma indices_sorted (n a : nat) :
  StronglySorted Z.lt (map Z.of_nat (seq a n)).
Proof.
  revert a. induction n as [|n IH]; intros a; cbn; constructor.
  - apply IH.
  - apply Forall_forall. intros x Hx.
    apply in_map_iff in Hx as (y & <- & Hy). apply in_seq in Hy. lia.
Qed.

Lemma binIndices_sorted : StronglySorted Z.lt binIndices.
Proof. apply indices_sorted. Qed.

Lemma binIndices_In (i : Z) : In i binIndices <-> (0 <= i < SIZE)%Z.
Proof.
  unfold binIndices. rewrite in_map_iff. split.
  - intros (y & <- & Hy). apply in_seq in Hy.
    change (Z.to_nat SIZE) with 180%nat in Hy. change SIZE with 180%Z. lia.
  - intros Hi. exists (Z.to_nat i). split; [lia|]. apply in_seq.
    change (Z.to_nat SIZE) with 180%nat. change SIZE with 180%Z in Hi. lia.
Qed.

Lemma filter_sorted {A} (R : A -> A -> Prop) (p : A -> bool) l :
  StronglySorted R l -> StronglySorted R (filter p l).
Proof.
  induction 1 as [|a l Hs IH Ha]; cbn; [constructor|].
  destruct (p a); [|exact IH]. constructor; [exact IH|].
  rewrite Forall_forall in *. intros x Hx. apply filter_In in Hx as [Hx _].
  now apply Ha.
Qed.

(** The scan keeps the lowest index of greatest weight, over bins visited in
    increasing order. *)
Lemma primary_scan (f : Z -> Q) (l : list Z) :
  forall seen best,
    leader f seen best ->
    (forall j i, In j seen -> In i l -> (j < i)%Z) ->
    StronglySorted Z.lt l ->
    leader f (seen ++ l)
      (fold_left
         (fun best i => if Qltb (snd best) (f i) then (i, f i) else best)
         l best).
Proof.
  induction l as [|i rest IH]; intros seen best Hb Hlt Hs.
  - now rewrite app_nil_r.
  - cbn [fold_left].
    replace (seen ++ i :: rest) with ((seen ++ [i]) ++ rest)
      by (now rewrite <- app_assoc).
    apply StronglySorted_inv in Hs as [Hs Hi]. rewrite Forall_forall in Hi.
    apply IH; [| |exact Hs].
    + destruct (Qltb (snd best) (f i)) eqn:E;
        [apply Qltb_lt in E | apply Qltb_ge in E].
      * right. cbn [fst snd].
        split; [apply in_or_app; right; now left|].
        split; [reflexivity|].
        assert (Hpos : 0 < f i /\ forall j, In j seen -> f j < f i).
        { destruct Hb as [[-> Hb]|(_ & _ & Hp & Hb & _)]; cbn [snd] in *.
          - split; [exact E|]. intros j Hj. specialize (Hb j Hj). lra.
          - split; [lra|]. intros j Hj. specialize (Hb j Hj). lra. }
        destruct Hpos as [Hpos Hseen]. split; [exact Hpos|]. split.
        -- intros j Hj. apply in_app_or in Hj as [Hj|[<-|[]]]; [|lra].
           specialize (Hseen j Hj). lra.
        -- intros j Hj Hji. apply in_app_or in Hj as [Hj|[<-|[]]]; [|lia].
           now apply Hseen.
      * destruct Hb as [[-> Hb]|(Hin & Hw & Hp & Hb & Hlow)]; cbn [snd] in *.
        -- left. split; [reflexivity|]. intros j Hj.
           apply in_app_or in Hj as [Hj|[<-|[]]]; [now apply Hb | exact E].
        -- right. split; [apply in_or_app; now left|].
           split; [exact Hw|]. split; [exact Hp|]. split.
           ++ intros j Hj. apply in_app_or in Hj as [Hj|[<-|[]]];
                [now apply Hb | exact E].
           ++ intros j Hj Hjk. apply in_app_or in Hj as [Hj|[<-|[]]];
                [now apply Hlow|].
              exfalso. specialize (Hlt (fst best) i Hin (or_introl eq_refl)).
              lia.
    + intros j x Hj Hx. apply in_app_or in Hj as [Hj|[<-|[]]].
      * apply Hlt; [exact Hj | now right].
      * now apply Hi.
Qed.

Lemma primary_leader acc :
  leader (at_ (wSum acc)) binIndices (ScriptEntry.primary acc).
Proof.
  unfold ScriptEntry.primary.
  apply (primary_scan (at_ (wSum acc)) binIndices [] ((-1)%Z, 0)).
  - left. split; [reflexivity|]. intros j [].
  - intros j i [].
  - apply binIndices_sorted.
Qed.

(** The head of the stable sort by decreasing weight of bins given in
    increasing order: the lowest index of greatest weight. *)
Lemma sort_head (w : list Q) (l : list Z) :
  StronglySorted Z.lt l -> l <> [] ->
  let h := nth 0 (FourColour.sortByWeight w l) 0%Z in
  In h l
  /\ (forall j, In j l -> at_ w j <= at_ w h)
  /\ (forall j, In j l -> (j < h)%Z -> at_ w j < at_ w h).
Proof.
  induction 1 as [|i rest Hs IH Hi]; intros Hne; [congruence|].
  cbv zeta. cbn [FourColour.sortByWeight fold_right].
  fold (FourColour.sortByWeight w rest).
  rewrite Forall_forall in Hi.
  destruct rest as [|i' rest'].
  - cbn. split; [now left|]. split.
    + intros j [<-|[]]. lra.
    + intros j [<-|[]]. lia.
  - assert (Hne' : i' :: rest' <> []) by discriminate.
    specialize (IH Hne'). cbv zeta in IH.
    set (rest := i' :: rest') in *.
    pose proof (sortByWeight_In w rest) as Hin.
    destruct (FourColour.sortByWeight w rest) as [|j s] eqn:Es.
    { exfalso. apply (Hin i'). now left. }
    cbn [nth] in IH. destruct IH as (Hj & Hmax & Hlow).
    cbn [FourColour.insert].
    destruct (Qltb (at_ w i) (at_ w j)) eqn:E;
      [apply Qltb_lt in E | apply Qltb_ge in E]; cbn [nth].
    + split; [now right|]. split.
      * intros x [<-|Hx]; [lra | now apply Hmax].
      * intros x [<-|Hx] Hxj; [exact E | now apply Hlow].
    + split; [now left|]. split.
      * intros x [<-|Hx]; [lra|]. specialize (Hmax x Hx). lra.
      * intros x [<-|Hx] Hxi; [lia|]. specialize (Hi x Hx). lia.
Qed.

Lemma nonEmpty_In acc i :
  In i (FourColour.nonEmpty acc)
  <-> In i binIndices /\ 0 < at_ (wSum acc) i.
Proof.
  unfold FourColour.nonEmpty. rewrite filter_In, Qltb_lt. reflexivity.
Qed.

Lemma nonEmpty_nil acc :
  FourColour.nonEmpty acc = []
  <-> forall i, In i binIndices -> at_ (wSum acc) i <= 0.
Proof.
  split.
  - intros E i Hi. apply Qnot_lt_le. intros Hpos.
    assert (H : In i (FourColour.nonEmpty acc)) by (apply nonEmpty_In; now split).
    now rewrite E in H.
  - intros H. destruct (FourColour.nonEmpty acc) as [|i rest] eqn:E;
      [reflexivity|].
    assert (Hi : In i (FourColour.nonEmpty acc)) by (rewrite E; now left).
    apply nonEmpty_In in Hi as [Hi Hpos]. specialize (H i Hi). lra.
Qed.

(** X16.  The primary bin of the two-colour variant is the bin of greatest
    weight, the one of lowest index when several weigh the same, and [pW] is
    its weight; without a bin of positive weight the scan ends on
    [(-1, 0)].  The bin the four-colour variant sorts to the front, and picks
    first, is the same bin. *)
Theorem primary_bin (acc : bins) :
  let w := wSum acc in
  let pIdx := fst (ScriptEntry.primary acc) in
  let pW := snd (ScriptEntry.primary acc) in
  (FourColour.nonEmpty acc = [] -> ScriptEntry.primary acc = ((-1)%Z, 0))
  /\ (FourColour.nonEmpty acc <> [] ->
      In pIdx binIndices /\ pW = at_ w pIdx /\ 0 < pW
      /\ (forall j, In j binIndices -> at_ w j <= pW)
      /\ (forall j, In j binIndices -> (j < pIdx)%Z -> at_ w j < pW)
      /\ nth 0 (FourColour.sortByWeight w (FourColour.nonEmpty acc)) 0%Z = pIdx
      /\ exists more, FourColour.picksOf acc = pIdx :: more).
Proof.
  cbv zeta. pose proof (primary_leader acc) as L. split.
  - intros E. rewrite nonEmpty_nil in E.
    destruct L as [[L _]|(Hin & Hw & Hp & _)]; [exact L|].
    specialize (E _ Hin). rewrite <- Hw in E. lra.
  - intros Hne.
    destruct L as [[_ L]|(Hin & Hw & Hp & Hmax & Hlow)].
    { exfalso. apply Hne. now apply nonEmpty_nil. }
    split; [exact Hin|]. split; [exact Hw|]. split; [exact Hp|].
    split; [exact Hmax|]. split; [exact Hlow|].
    assert (Hs : StronglySorted Z.lt (FourColour.nonEmpty acc))
      by apply filter_sorted, binIndices_sorted.
    destruct (sort_head (wSum acc) _ Hs Hne) as (Hh & Hhmax & Hhlow).
    assert (Ehead : nth 0 (FourColour.sortByWeight (wSum acc)
                             (FourColour.nonEmpty acc)) 0%Z
                    = fst (ScriptEntry.primary acc)).
    { set (h := nth 0 _ 0%Z) in *.
      set (k := fst (ScriptEntry.primary acc)) in *.
      apply nonEmpty_In in Hh as [Hh Hhp].
      assert (Hk : In k (FourColour.nonEmpty acc)).
      { apply nonEmpty_In. split; [exact Hin|]. rewrite <- Hw. exact Hp. }
      pose proof (Hmax h Hh) as A1. pose proof (Hhmax k Hk) as A2.
      rewrite Hw in A1.
      destruct (Z.lt_trichotomy h k) as [Hlt|[E|Hlt]]; [|exact E|].
      - specialize (Hlow h Hh Hlt). rewrite Hw in Hlow. lra.
      - specialize (Hhlow k Hk Hlt). lra. }
    split; [exact Ehead|].
    rewrite <- Ehead. now apply picksOf_first.
Qed.

(** ** When extraction falls back *)

Lemma addPixel_weight_mono r g b a acc (i : Z) :
  at_ (wSum acc) i <= at_ (wSum (addPixel r g b a acc)) i.
Proof.
  destruct (addPixel_cases r g b a acc)
    as [[_ ->]|(_ & k & w & Hk & Hw & ->)]; [lra|].
  cbn [wSum]. unfold at_. rewrite nth_add_at.
  destruct ((Z.to_nat i =? k) && (k <? length (wSum acc)))%nat; lra.
Qed.

Lemma addPixel_positive r g b a acc :
  histogram acc -> skipped r g b a = false ->
  exists i, In i binIndices /\ 0 < at_ (wSum (addPixel r g b a acc)) i.
Proof.
  intros (Lw & _ & _ & _ & H) Hsk.
  destruct (addPixel_cases r g b a acc)
    as [[E _]|(_ & k & w & Hk & Hw & ->)]; [congruence|].
  exists (Z.of_nat k). split.
  - apply binIndices_In. change (Z.to_nat SIZE) with 180%nat in Hk.
    change SIZE with 180%Z. lia.
  - cbn [wSum]. unfold at_. rewrite nth_add_at, Nat2Z.id, Lw, Nat.eqb_refl.
    apply Nat.ltb_lt in Hk. rewrite Hk. cbn [andb].
    specialize (H (Z.of_nat k)). destruct H as (H & _).
    unfold at_ in H. rewrite Nat2Z.id in H. lra.
Qed.

Lemma sample_positive data :
  forall acc,
    histogram acc ->
    (exists i, In i binIndices /\ 0 < at_ (wSum acc) i)
    \/ allSkipped data = false ->
    exists i, In i binIndices /\ 0 < at_ (wSum (sample data acc)) i.
Proof.
  unfold allSkipped.
  induction data as [data Hshort | r g b a rest IH] using pixels_ind;
    intros acc H Hor.
  - rewrite sample_short by exact Hshort.
    destruct Hor as [Hpos|Hsk]; [exact Hpos|].
    destruct data as [|r [|g [|b [|a rest]]]]; cbn in *;
      try discriminate; lia.
  - cbn [sample]. apply IH; [now apply addPixel_histogram|].
    destruct Hor as [(i & Hi & Hpos)|Hsk].
    + left. exists i. split; [exact Hi|].
      pose proof (addPixel_weight_mono r g b a acc i). lra.
    + cbn [allPixels] in Hsk. apply andb_false_iff in Hsk as [Hsk|Hsk].
      * left. now apply addPixel_positive.
      * now right.
Qed.

Lemma nonEmpty_iff_skipped data :
  FourColour.nonEmpty (sample data emptyBins) = [] <-> allSkipped data = true.
Proof.
  split.
  - intros E. destruct (allSkipped data) eqn:Hsk; [reflexivity|]. exfalso.
    destruct (sample_positive data emptyBins emptyBins_histogram
                (or_intror Hsk)) as (i & Hi & Hpos).
    rewrite nonEmpty_nil in E. specialize (E i Hi). lra.
  - intros Hsk. rewrite (sample_allSkipped data Hsk). reflexivity.
Qed.


(** ** The palettes *)

Lemma rendered_byte (c : rgb) (k lo hi L : Q) :
  0 <= lo -> lo <= hi -> hi <= 1 -> 0 <= L <= 1 ->
  byteColour (rendered c k lo hi L).
Proof.
  intros H0 Hlh H1 HL. unfold rendered.
  destruct (rgbQ c) as [[r g] b].
  destruct (rgbToHsl r g b) as [[h s] l].
  destruct (clamp_range (s * k) lo hi Hlh).
  apply hslToRgb_byte; [split; lra | exact HL].
Qed.

Lemma fallback_byte (idx : Z) : bytePalette (fallbackFromIndex idx).
Proof.
  unfold fallbackFromIndex, bytePalette. cbn [c1 c2 c3 c4].
  split; [|split; [|split; discriminate]];
    apply hslToRgb_byte; split; discriminate.
Qed.

Lemma two_colour_byte data idx :
  bytePalette (ScriptEntry.extractColors data idx).
Proof.
  destruct data as [data|]; [|apply fallback_byte].
  unfold ScriptEntry.extractColors.
  destruct (ScriptEntry.primary _) as [pIdx pW].
  destruct ((pIdx <? 0)%Z || Qle_bool pW 0); [apply fallback_byte|].
  destruct (ScriptEntry.secondary _ _) as [sIdx sW].
  destruct (rgbQ (avgRGB _ pIdx)) as [[pr pg] pb].
  destruct (rgbToHsl pr pg pb) as [[h1 s1] l1].
  assert (Hs : forall s k, 0 <= Qmax 0.45 (Qmin 1 (s * k)) <= 1).
  { intros s k. destruct (clamp_range (s * k) 0.45 1); [lra|].
    unfold clamp in *. lra. }
  unfold bytePalette. cbn [c1 c2 c3 c4].
  split; [|split; [|split; discriminate]].
  - apply hslToRgb_byte; [apply Hs | split; discriminate].
  - destruct ((sIdx >=? 0)%Z && Qle_bool (pW * 0.6) sW).
    + destruct (rgbQ (avgRGB _ sIdx)) as [[sr sg] sb].
      destruct (rgbToHsl sr sg sb) as [[h2 s2] l2].
      apply hslToRgb_byte; [apply Hs | split; discriminate].
    + apply hslToRgb_byte; [apply Hs | split; discriminate].
Qed.

Lemma slot_byte acc i (L : Q) :
  0 <= L <= 1 -> byteColour (FourColour.toRGBFromIdx acc i L).
Proof.
  intros HL. rewrite four_colour_slot.
  apply rendered_byte; [discriminate | discriminate | discriminate | exact HL].
Qed.

Lemma four_colour_byte data idx :
  bytePalette (FourColour.extractColors data idx).
Proof.
  destruct data as [data|]; [|apply fallback_byte].
  unfold FourColour.extractColors.
  destruct (FourColour.nonEmpty _); [apply fallback_byte|].
  destruct (FourColour.picksOf _) as [|p more]; [apply fallback_byte|].
  unfold bytePalette. cbn [c1 c2 c3 c4].
  split; [|split; [|split]].
  - apply slot_byte. split; discriminate.
  - apply slot_byte. split; discriminate.
  - intros c [= <-]. apply slot_byte. split; discriminate.
  - intros c [= <-]. apply slot_byte. split; discriminate.
Qed.

Lemma mixW_byte (c : Z) (t : Q) :
  (0 <= c <= 255)%Z -> 0 <= t <= 1 -> (0 <= FourColour.mixW c t <= 255)%Z.
Proof.
  intros Hc Ht. unfold FourColour.mixW. apply round_range.
  assert (Hq : 0 <= inject_Z c <= 255).
  { change 0 with (inject_Z 0). change 255 with (inject_Z 255).
    rewrite <- !Zle_Qle. exact Hc. }
  split; nra.
Qed.

Lemma mixRGB_byte (c : rgb) (t : Q) :
  byteColour c -> 0 <= t <= 1 -> byteColour (FourColour.mixRGB c t).
Proof.
  intros (Hr & Hg & Hb) Ht. unfold FourColour.mixRGB, byteColour.
  cbn [red green blue fst snd]. repeat split; now apply mixW_byte.
Qed.

(** X17.  Whatever the images, both variants build one palette per image
    and every colour of every palette has its three channels in
    [[0, 255]]; the palettes of the four-colour variant all have a third
    and a fourth colour. *)
Theorem palettes_are_colours (imgs : list (option (list byte))) :
  length (ScriptEntry.buildPalette imgs) = length imgs
  /\ Forall bytePalette (ScriptEntry.buildPalette imgs)
  /\ length (FourColour.buildPalette imgs) = length imgs
  /\ Forall (fun p => bytePalette p
                      /\ exists a b, c3 p = Some a /\ c4 p = Some b)
       (FourColour.buildPalette imgs).
Proof.
  assert (Hlen : length (combine (seq 0 (length imgs)) imgs) = length imgs).
  { rewrite length_combine, length_seq. apply Nat.min_id. }
  split; [|split; [|split]].
  - unfold ScriptEntry.buildPalette. now rewrite length_map.
  - unfold ScriptEntry.buildPalette. apply Forall_forall. intros p Hp.
    apply in_map_iff in Hp as ([i img] & <- & _). apply two_colour_byte.
  - unfold FourColour.buildPalette. now rewrite length_map.
  - unfold FourColour.buildPalette. apply Forall_forall. intros p Hp.
    apply in_map_iff in Hp as ([i img] & <- & _).
    pose proof (four_colour_byte img (Z.of_nat i)) as BP.
    pose proof BP as (B1 & B2 & _ & _).
    assert (Hmixed :
              bytePalette
                {| c1 := c1 (FourColour.extractColors img (Z.of_nat i));
                   c2 := c2 (FourColour.extractColors img (Z.of_nat i));
                   c3 := Some (FourColour.mixRGB
                                 (c1 (FourColour.extractColors img (Z.of_nat i)))
                                 0.10);
                   c4 := Some (FourColour.mixRGB
                                 (c2 (FourColour.extractColors img (Z.of_nat i)))
                                 0.15) |}
              /\ exists a b,
                   Some (FourColour.mixRGB
                           (c1 (FourColour.extractColors img (Z.of_nat i)))
                           0.10) = Some a
                   /\ Some (FourColour.mixRGB
                              (c2 (FourColour.extractColors img (Z.of_nat i)))
                              0.15) = Some b).
    { split; [|eexists _, _; split; reflexivity].
      unfold bytePalette. cbn [c1 c2 c3 c4].
      split; [exact B1|]. split; [exact B2|]. split.
      - intros c [= <-]. apply mixRGB_byte; [exact B1 | split; discriminate].
      - intros c [= <-]. apply mixRGB_byte; [exact B2 | split; discriminate]. }
    destruct (c3 (FourColour.extractColors img (Z.of_nat i))) as [a|] eqn:E3;
      [|exact Hmixed].
    destruct (c4 (FourColour.extractColors img (Z.of_nat i))) as [b|] eqn:E4;
      [|exact Hmixed].
    split; [exact BP | exists a, b; now split].
Qed.

(** ** Hue steps *)

Lemma hueOf_step (i : Z) : hueOf i == inject_Z (10 * (i / 5)).
Proof.
  unfold hueOf, H_BINS, S_BINS.
  assert (E : Qfloor (inject_Z i / inject_Z 5) = (i / 5)%Z).
  { unfold Qfloor, Qdiv, Qmult, Qinv, inject_Z. cbn.
    now rewrite Z.mul_1_r. }
  rewrite E, inject_Z_mult. change (inject_Z 10) with 10.
  change (inject_Z 36) with 36. field.
Qed.

Lemma hueDist_step (p q : Z) :
  exists n : Z, hueDist (hueOf p) (hueOf q) == inject_Z (10 * n).
Proof.
  unfold hueDist.
  pose proof (hueOf_step p) as Ea. pose proof (hueOf_step q) as Eb.
  set (a := hueOf p) in *. set (b := hueOf q) in *.
  set (x := (p / 5)%Z) in *. set (y := (q / 5)%Z) in *.
  assert (Ed : Qabs (a - b) == inject_Z (10 * Z.abs (x - y))).
  { rewrite Ea, Eb. rewrite !inject_Z_mult. change (inject_Z 10) with 10.
    destruct (Z.abs_spec (x - y)) as [[H ->]|[H ->]].
    - rewrite Qabs_pos.
      + unfold Z.sub. rewrite inject_Z_plus, inject_Z_opp. ring.
      + rewrite Zle_Qle in H. unfold Z.sub in H.
        rewrite inject_Z_plus, inject_Z_opp in H.
        change (inject_Z 0) with 0 in H. lra.
    - rewrite Qabs_neg.
      + rewrite inject_Z_opp. unfold Z.sub.
        rewrite inject_Z_plus, inject_Z_opp. ring.
      + rewrite Zlt_Qlt in H. unfold Z.sub in H.
        rewrite inject_Z_plus, inject_Z_opp in H.
        change (inject_Z 0) with 0 in H. lra. }
  set (k := Z.abs (x - y)) in *.
  destruct (Q.min_spec (Qabs (a - b)) (360 - Qabs (a - b)))
    as [[_ E]|[_ E]].
  - exists k. now rewrite E.
  - exists (36 - k)%Z. rewrite E, Ed. rewrite !inject_Z_mult.
    unfold Z.sub. rewrite inject_Z_plus, inject_Z_opp.
    change (inject_Z 10) with 10. change (inject_Z 36) with 36. ring.
Qed.

Lemma hueDist_round_up (p q : Z) (lo : Z) (b : Q) :
  inject_Z (10 * (lo - 1)) < b -> b <= hueDist (hueOf p) (hueOf q) ->
  inject_Z (10 * lo) <= hueDist (hueOf p) (hueOf q).
Proof.
  intros Hb H. destruct (hueDist_step p q) as (n & E). rewrite E in *.
  rewrite <- Zle_Qle. assert (Hlt : (10 * (lo - 1) < 10 * n)%Z).
  { rewrite Zlt_Qlt. lra. }
  lia.
Qed.

Lemma fold_left_invariant_In {A B} (P : A -> Prop) (f : A -> B -> A) l :
  (forall a b, In b l -> P a -> P (f a b)) ->
  forall a, P a -> P (fold_left f l a).
Proof.
  induction l as [|b rest IH]; intros Hf a Ha; cbn; [exact Ha|].
  apply IH.
  - intros a' b' Hb'. apply Hf. now right.
  - apply Hf; [now left | exact Ha].
Qed.

(** X18.  The hue of a bin is a multiple of 10 degrees, so the circular
    distance between two bin hues is one too: two picks of the four-colour
    variant, kept at least 32 degrees apart, are in fact at least 40 degrees
    apart, and the secondary bin of the two-colour variant, at least 25
    degrees from the primary bin, is at least 30 degrees from it. *)
Theorem hue_steps (acc : bins) :
  (forall p q, exists n : Z,
      hueOf p == inject_Z (10 * (p / 5))
      /\ hueDist (hueOf p) (hueOf q) == inject_Z (10 * n))
  /\ (forall p q,
        In p (FourColour.picksOf acc) -> In q (FourColour.picksOf acc) ->
        p <> q -> 40 <= hueDist (hueOf p) (hueOf q))
  /\ (let pIdx := fst (ScriptEntry.primary acc) in
      let sIdx := fst (ScriptEntry.secondary acc (hueOf pIdx)) in
      (0 <= sIdx)%Z -> 30 <= hueDist (hueOf sIdx) (hueOf pIdx)).
Proof.
  split; [|split].
  - intros p q. destruct (hueDist_step p q) as (n & E).
    exists n. split; [apply hueOf_step | exact E].
  - intros p q Hp Hq Hneq.
    destruct (picksOf_wellPicked acc) as (Hpairs & _). cbv zeta in Hpairs.
    assert (H : apart p q).
    { destruct (ForallOrdPairs_In Hpairs p q Hp Hq) as [E|[H|H]];
        [contradiction | exact H | exact (apart_sym _ _ H)]. }
    unfold apart, FourColour.minHueGap in H.
    apply (hueDist_round_up p q 4 32); [reflexivity | exact H].
  - cbv zeta. intros Hs.
    destruct (secondary_spec acc (hueOf (fst (ScriptEntry.primary acc))) Hs)
      as (H & _).
    apply (hueDist_round_up _ _ 3 25); [reflexivity | exact H].
Qed.

(** ** The gradient along a run of retargets *)

Section Retargets.

Variable channels : Type.
Variable set : number -> nat -> Z -> gradient channels -> gradient channels.
Variable target : palette -> channels.
Variable default : palette.
Variable dur : Q.

Hypothesis set_shape : forall now len idx g,
  set now len idx g
  = if retargetRefused len idx g then g
    else
      let to := target (paletteAt (gradPalette g) idx default) in
      if gsap g then
        {| bgCtx := bgCtx g; gsap := gsap g; activeIndex := idx;
           gradPalette := gradPalette g; gradCurrent := gradCurrent g;
           bgFastUntil := (now + Num 800)%js;
           tweens := tweens g ++ [mkTween to dur] |}
      else
        {| bgCtx := bgCtx g; gsap := gsap g; activeIndex := idx;
           gradPalette := gradPalette g; gradCurrent := to;
           bgFastUntil := bgFastUntil g; tweens := tweens g |}.

Lemma refused_false len idx (g : gradient channels) :
  retargetRefused len idx g = false ->
  bgCtx g = true /\ (0 <= idx < Z.of_nat len)%Z /\ idx <> activeIndex g.
Proof.
  unfold retargetRefused. intros H.
  apply orb_false_iff in H as [H H4]. apply orb_false_iff in H as [H H3].
  apply orb_false_iff in H as [H1 H2].
  apply negb_false_iff in H1. apply Z.ltb_ge in H2.
  apply Z.eqb_neq in H4.
  assert (H3' : (idx < Z.of_nat len)%Z).
  { destruct (Z.lt_ge_cases idx (Z.of_nat len)) as [Hlt|Hge]; [exact Hlt|].
    apply Z.geb_le in Hge. congruence. }
  repeat split; assumption.
Qed.

Lemma follows_step len g0 g now idx :
  follows target default dur len g0 g ->
  follows target default dur len g0 (set now len idx g).
Proof.
  intros F. rewrite set_shape.
  destruct (retargetRefused len idx g) eqn:R; [exact F|].
  apply refused_false in R as (Hctx & Hidx & _).
  destruct F as (E1 & E2 & E3 & F). cbv zeta.
  unfold follows.
  destruct (gsap g) eqn:Eg; cbn [bgCtx gsap gradPalette activeIndex
                                 gradCurrent tweens bgFastUntil].
  - split; [exact E1|]. split; [congruence|]. split; [exact E3|].
    right. split; [congruence|]. split; [exact Hidx|].
    cbv zeta. rewrite <- E2, E3.
    destruct F as [->|(_ & _ & F)].
    + split; [reflexivity|]. now exists [].
    + cbv zeta in F. rewrite <- E2 in F.
      destruct F as (Ec & earlier & Et). split; [exact Ec|].
      rewrite Et.
      exists (earlier
              ++ [mkTween
                    (target (paletteAt (gradPalette g0) (activeIndex g)
                               default)) dur]).
      now rewrite <- !app_assoc.
  - split; [exact E1|]. split; [congruence|]. split; [exact E3|].
    right. split; [congruence|]. split; [exact Hidx|].
    cbv zeta. rewrite <- E2, E3.
    destruct F as [->|(_ & _ & F)].
    + repeat split.
    + cbv zeta in F. rewrite <- E2 in F.
      destruct F as (_ & Et & Ef). repeat split; assumption.
Qed.

Lemma follows_run len g0 calls :
  follows target default dur len g0 (retargets set len calls g0).
Proof.
  unfold retargets.
  apply (fold_left_invariant (follows target default dur len g0)).
  - intros g [now idx] F. now apply follows_step.
  - unfold follows. repeat split. now left.
Qed.

End Retargets.

Lemma two_colour_shape now len idx g :
  ScriptEntry.setActiveGradient now len idx g
  = if retargetRefused len idx g then g
    else
      let to :=
        twoColourTarget
          (paletteAt (gradPalette g) idx ScriptEntry.defaultPalette) in
      if gsap g then
        {| bgCtx := bgCtx g; gsap := gsap g; activeIndex := idx;
           gradPalette := gradPalette g; gradCurrent := gradCurrent g;
           bgFastUntil := (now + Num 800)%js;
           tweens := tweens g ++ [mkTween to 0.45] |}
      else
        {| bgCtx := bgCtx g; gsap := gsap g; activeIndex := idx;
           gradPalette := gradPalette g; gradCurrent := to;
           bgFastUntil := bgFastUntil g; tweens := tweens g |}.
Proof. reflexivity. Qed.

Lemma four_colour_shape now len idx g :
  FourColour.setActiveGradient now len idx g
  = if retargetRefused len idx g then g
    else
      let to :=
        fourColourTarget
          (paletteAt (gradPalette g) idx FourColour.defaultPalette) in
      if gsap g then
        {| bgCtx := bgCtx g; gsap := gsap g; activeIndex := idx;
           gradPalette := gradPalette g; gradCurrent := gradCurrent g;
           bgFastUntil := (now + Num 800)%js;
           tweens := tweens g ++ [mkTween to 0.55] |}
      else
        {| bgCtx := bgCtx g; gsap := gsap g; activeIndex := idx;
           gradPalette := gradPalette g; gradCurrent := to;
           bgFastUntil := bgFastUntil g; tweens := tweens g |}.
Proof. reflexivity. Qed.

(** X19.  Along any run of retargets, from any state, in both variants: the
    canvas context, the tweening library and the palettes stay what they
    were; and once a retarget has been accepted the active index is the
    index of a card, and the colours of that card's palette are the
    channels of the background (without the tweening library, which then
    starts no tween and leaves the fast-redraw deadline alone) or the target
    of the last tween started (with it, the code itself never writing the
    channels). *)
Theorem gradient_follows_active (len : nat) (calls : list (number * Z)) :
  (forall g0,
     follows twoColourTarget ScriptEntry.defaultPalette 0.45 len g0
       (retargets ScriptEntry.setActiveGradient len calls g0))
  /\ (forall g0,
        follows fourColourTarget FourColour.defaultPalette 0.55 len g0
          (retargets FourColour.setActiveGradient len calls g0)).
Proof.
  split; intros g0.
  - apply follows_run. exact two_colour_shape.
  - apply follows_run. exact four_colour_shape.
Qed.

(** ** The first retarget of [init] *)

Lemma wrapLoop_first track s x rest (d : Q) (k0 k1 : Z) :
  Math_abs (Carousel.wrap track s x) = Num d ->
  Carousel.wrapLoop track s (x :: rest) 0%Z (k0, Infinity)
  = Carousel.wrapLoop track s (x :: rest) 0%Z (k1, Infinity).
Proof.
  intros E. cbn [Carousel.wrapLoop]. rewrite E. reflexivity.
Qed.

(** A best distance of 0 is never beaten. *)
Lemma wrapLoop_zero_best track s its :
  forall i k (z : Q),
    z == 0 -> snd (Carousel.wrapLoop track s its i (k, Num z)) = (k, Num z).
Proof.
  induction its as [|x rest IH]; intros i k z Hz; [reflexivity|].
  cbn [Carousel.wrapLoop snd].
  assert (E : (Math_abs (Carousel.wrap track s x) <? Num z)%js = false).
  { destruct (Carousel.wrap track s x) as [q| | |]; cbn; try reflexivity.
    apply Qltb_ge. rewrite Hz. apply Qabs_nonneg. }
  rewrite E. specialize (IH (i + 1)%Z k z Hz).
  destruct (Carousel.wrapLoop track s rest (i + 1)%Z (k, Num z)) as [ps r].
  exact IH.
Qed.

Lemma refused_withPalette {channels} len idx (g : gradient channels) pals :
  retargetRefused len idx (withPalette g pals) = retargetRefused len idx g.
Proof. reflexivity. Qed.

Section InitFacts.

Variable Math_pow : number -> number -> number.
Variables MIN_SCALE SCALE_RANGE BLUR_COEF : number.
Variable isCore : Z -> Z -> number -> number -> bool.
Variable channels : Type.
Variable set : number -> nat -> Z -> gradient channels -> gradient channels.

Hypothesis set_refused : forall now len idx g,
  retargetRefused len idx g = true -> set now len idx g = g.
Hypothesis set_accepted : forall now len idx g,
  retargetRefused len idx g = false -> activeIndex (set now len idx g) = idx.

#[local] Abbreviation update :=
  (Carousel.updateCarouselTransforms Math_pow MIN_SCALE SCALE_RANGE BLUR_COEF
     isCore (gradient channels) activeIndex set).

(** The index a frame has just reported is refused when it comes again,
    with or without new palettes. *)
Lemma reported_then_refused now c g pals :
  retargetRefused (length (items c)) (Carousel.closestIdx_of c)
    (withPalette (snd (update now c g)) pals) = true.
Proof.
  rewrite refused_withPalette.
  rewrite (update_gradient Math_pow MIN_SCALE SCALE_RANGE BLUR_COEF isCore
             (gradient channels) activeIndex set now c g).
  set (k := Carousel.closestIdx_of c). set (len := length (items c)).
  destruct (k =? activeIndex g)%Z eqn:E.
  - apply refused_at_active. apply Z.eqb_eq in E. now symmetry.
  - destruct (retargetRefused len k g) eqn:R.
    + now rewrite set_refused.
    + apply refused_at_active. now apply set_accepted.
Qed.

(** On a carousel without cards, or whose first card is at a finite
    distance from the centre, the retarget that ends the start-up sequence
    is refused. *)
Lemma init_refused width height now now' pals c g :
  let m := Carousel.measure width height c in
  items m = []
  \/ (exists x rest d, items m = x :: rest
        /\ Math_abs (Carousel.wrap (TRACK m) (SCROLL_X m) x) = Num d) ->
  init Math_pow MIN_SCALE SCALE_RANGE BLUR_COEF isCore channels set
    width height now now' pals c g
  = (fst (update now m g), withPalette (snd (update now m g)) pals).
Proof.
  intros m Hm. unfold init. fold m.
  pose proof (update_carousel Math_pow MIN_SCALE SCALE_RANGE BLUR_COEF isCore
                (gradient channels) activeIndex set now m g) as U.
  pose proof (reported_then_refused now m g pals) as R.
  destruct (update now m g) as [c1 g1]. cbn [fst snd] in *.
  destruct U as (EI & _ & ET & EX & _). f_equal.
  apply set_refused. rewrite EI.
  destruct Hm as [Hm|(x & rest & d & Hm & Hd)].
  - unfold initClosest. rewrite EI, Hm. cbn.
    unfold retargetRefused. cbn. now rewrite !orb_true_r.
  - replace (initClosest c1) with (Carousel.closestIdx_of m); [exact R|].
    unfold initClosest, Carousel.closestIdx_of. rewrite EI, ET, EX, Hm.
    now rewrite (wrapLoop_first _ _ _ _ d (-1) 0 Hd).
Qed.

End InitFacts.

(** The carousel [measure] leaves on the cards just created. *)
Lemma measure_created (n : nat) (w : Q) height card_w innerWidth :
  0 < w ->
  let m := Carousel.measure (Num w) height
             (Carousel.created (S n) card_w innerWidth) in
  exists rest,
    items m = Num (inject_Z 0 * (w + 28)) :: rest
    /\ TRACK m = Num (inject_Z (Z.of_nat (S n)) * (w + 28))
    /\ SCROLL_X m = Num 0
    /\ Carousel.closestIdx_of m = 0%Z.
Proof.
  intros Hw m.
  assert (Em : m = Carousel.measure (Num w) height
                     (Carousel.created (S n) card_w innerWidth))
    by reflexivity.
  unfold Carousel.measure, Carousel.created in Em.
  cbn [items repeat] in Em. unfold or_else in Em. cbn [truthy] in Em.
  rewrite (Qeq_bool_false w 0) in Em by lra. cbn [negb] in Em.
  unfold Carousel.layout, length_of in Em. cbn [length] in Em.
  rewrite !repeat_length in Em. cbn [seq map] in Em.
  cbn [GAP add mul of_Z CARD_W CARD_H SCROLL_X vX lastTime VW_HALF
       styles] in Em.
  clearbody m. subst m.
  eexists. split; [reflexivity|]. split; [reflexivity|].
  split; [reflexivity|].
  unfold Carousel.closestIdx_of. cbn [items TRACK SCROLL_X].
  cbn [Carousel.wrapLoop].
  rewrite wrap_finite. cbn [Math_abs snd lt].
  set (L := inject_Z (Z.of_nat (S n)) * (w + 28)).
  set (z := Qabs (wrapQ L 0 _)).
  assert (Hz : z == 0).
  { unfold z, wrapQ. cbv zeta.
    assert (HL : 0 < L).
    { unfold L. assert (H1 : 1 <= inject_Z (Z.of_nat (S n))).
      { change 1 with (inject_Z 1). rewrite <- Zle_Qle. lia. }
      nra. }
    clearbody L. change (inject_Z (Z.of_nat 0)) with 0.
    qcases; try (exfalso; qlra);
      (setoid_replace (0 * (w + 28) - 0) with 0 by ring); reflexivity. }
  match goal with
  | |- context [Carousel.wrapLoop ?t ?s ?its ?i (?k, Num z)] =>
      pose proof (wrapLoop_zero_best t s its i k z Hz) as B;
      destruct (Carousel.wrapLoop t s its i (k, Num z)) as [ps r]
  end.
  cbn [snd] in B. now rewrite B.
Qed.

Lemma init_two_colour (Math_pow : number -> number -> number) (n : nat)
  (w : Q) height innerWidth now now' pals ctx tweening :
  0 < w ->
  let c0 := ScriptEntry.created n innerWidth in
  let g0 := ScriptEntry.initialGradient ctx tweening in
  let first :=
    ScriptEntry.updateCarouselTransforms Math_pow now
      (ScriptEntry.measure (Num w) height c0) g0 in
  init Math_pow ScriptEntry.MIN_SCALE ScriptEntry.SCALE_RANGE
    ScriptEntry.BLUR_COEF ScriptEntry.isCore ScriptEntry.channels
    ScriptEntry.setActiveGradient (Num w) height now now' pals c0 g0
  = (fst first, withPalette (snd first) pals)
  /\ activeIndex (snd first) = (if ctx && (0 <? n)%nat then 0 else -1)%Z
  /\ gradCurrent (snd first) = ScriptEntry.initialChannels.
Proof.
  intros Hw c0 g0 first. subst first.
  unfold ScriptEntry.updateCarouselTransforms, ScriptEntry.measure.
  destruct n as [|n].
  - split.
    + apply init_refused;
        [exact two_colour_refused | exact two_colour_accepted | now left].
    + rewrite update_gradient. cbn. rewrite andb_false_r.
      split; reflexivity.
  - destruct (measure_created n w height ScriptEntry.CARD_W0 innerWidth Hw)
      as (rest & EI & ET & ES & EC).
    cbv zeta in *. fold (ScriptEntry.created (S n) innerWidth) in *.
    fold c0 in EI, ET, ES, EC |- *.
    split.
    + apply init_refused;
        [exact two_colour_refused | exact two_colour_accepted |].
      right. eexists _, rest, _. split; [exact EI|].
      rewrite ET, ES, wrap_finite. reflexivity.
    + rewrite update_gradient, EC, EI. subst g0.
      destruct ctx, tweening; cbn; split; reflexivity.
Qed.

Lemma init_four_colour (Math_pow : number -> number -> number) (n : nat)
  (w : Q) height innerWidth now now' pals ctx tweening :
  0 < w ->
  let c0 := FourColour.created n innerWidth in
  let g0 := FourColour.initialGradient ctx tweening in
  let first :=
    FourColour.updateCarouselTransforms Math_pow now
      (FourColour.measure (Num w) height c0) g0 in
  init Math_pow FourColour.MIN_SCALE FourColour.SCALE_RANGE
    FourColour.BLUR_COEF FourColour.isCore FourColour.channels
    FourColour.setActiveGradient (Num w) height now now' pals c0 g0
  = (fst first, withPalette (snd first) pals)
  /\ activeIndex (snd first) = (if ctx && (0 <? n)%nat then 0 else -1)%Z
  /\ gradCurrent (snd first) = FourColour.initialChannels.
Proof.
  intros Hw c0 g0 first. subst first.
  unfold FourColour.updateCarouselTransforms, FourColour.measure.
  destruct n as [|n].
  - split.
    + apply init_refused;
        [exact four_colour_refused | exact four_colour_accepted | now left].
    + rewrite update_gradient. cbn. rewrite andb_false_r.
      split; reflexivity.
  - destruct (measure_created n w height FourColour.CARD_W0 innerWidth Hw)
      as (rest & EI & ET & ES & EC).
    cbv zeta in *. fold (FourColour.created (S n) innerWidth) in *.
    fold c0 in EI, ET, ES, EC |- *.
    split.
    + apply init_refused;
        [exact four_colour_refused | exact four_colour_accepted |].
      right. eexists _, rest, _. split; [exact EI|].
      rewrite ET, ES, wrap_finite. reflexivity.
    + rewrite update_gradient, EC, EI. subst g0.
      destruct ctx, tweening; cbn; split; reflexivity.
Qed.

(** X20.  In both variants, for any number of cards of positive width and
    whatever palettes [buildPalette] extracted: the first update of [init]
    has already made card 0 the active one (with a canvas context and at
    least one card), from the palettes still empty, so the retarget
    [init] makes once the palettes are built is refused and changes
    nothing; the channels are still the initial grays. *)
Theorem init_retarget_refused (Math_pow : number -> number -> number)
  (n : nat) (w : Q) height innerWidth now now' pals ctx tweening :
  0 < w ->
  (let c0 := ScriptEntry.created n innerWidth in
   let g0 := ScriptEntry.initialGradient ctx tweening in
   let first :=
     ScriptEntry.updateCarouselTransforms Math_pow now
       (ScriptEntry.measure (Num w) height c0) g0 in
   init Math_pow ScriptEntry.MIN_SCALE ScriptEntry.SCALE_RANGE
     ScriptEntry.BLUR_COEF ScriptEntry.isCore ScriptEntry.channels
     ScriptEntry.setActiveGradient (Num w) height now now' pals c0 g0
   = (fst first, withPalette (snd first) pals)
   /\ activeIndex (snd first) = (if ctx && (0 <? n)%nat then 0 else -1)%Z
   /\ gradCurrent (snd first) = ScriptEntry.initialChannels)
  /\ (let c0 := FourColour.created n innerWidth in
      let g0 := FourColour.initialGradient ctx tweening in
      let first :=
        FourColour.updateCarouselTransforms Math_pow now
          (FourColour.measure (Num w) height c0) g0 in
      init Math_pow FourColour.MIN_SCALE FourColour.SCALE_RANGE
        FourColour.BLUR_COEF FourColour.isCore FourColour.channels
        FourColour.setActiveGradient (Num w) height now now' pals c0 g0
      = (fst first, withPalette (snd first) pals)
      /\ activeIndex (snd first) = (if ctx && (0 <? n)%nat then 0 else -1)%Z
      /\ gradCurrent (snd first) = FourColour.initialChannels).
Proof.
  intros Hw. split.
  - now apply init_two_colour.
  - now apply init_four_colour.
Qed.

(** X20, witness: ten cards 320 px wide, their images unreadable. *)
Lemma init_retarget_refused_witness :
  0 < 320
  /\ snd (init powCeil FourColour.MIN_SCALE FourColour.SCALE_RANGE
            FourColour.BLUR_COEF FourColour.isCore FourColour.channels
            FourColour.setActiveGradient (Num 320) (Num 400) (Num 0) (Num 5)
            (FourColour.buildPalette (repeat None 10))
            (FourColour.created 10 (Num 1200))
            (FourColour.initialGradient true false))
     = withPalette
         (snd (FourColour.updateCarouselTransforms powCeil (Num 0)
                 (FourColour.measure (Num 320) (Num 400)
                    (FourColour.created 10 (Num 1200)))
                 (FourColour.initialGradient true false)))
         (FourColour.buildPalette (repeat None 10)).
Proof.
  assert (Hw : 0 < 320) by reflexivity. split; [exact Hw|].
  destruct (init_retarget_refused powCeil 10 320 (Num 400) (Num 1200) (Num 0)
              (Num 5) (FourColour.buildPalette (repeat None 10)) true false Hw)
    as (_ & E & _).
  cbv zeta in E. now rewrite E.
Defined.

(** ** Input *)

Lemma handle_entering W e p c :
  isEntering p = true -> dragging p = false -> handle W e (p, c) = (p, c).
Proof.
  intros He Hd. destruct e; cbn [handle fst snd];
    unfold Input.onWheel, Input.onPointerDown, Input.onPointerMove,
      Input.onPointerUp; rewrite ?He, ?Hd; reflexivity.
Qed.

Lemma handle_isEntering W e st :
  isEntering (fst (handle W e st)) = isEntering (fst st).
Proof.
  destruct st as [p c].
  destruct e; cbn [handle fst snd];
    unfold Input.onPointerDown, Input.onPointerMove, Input.onPointerUp;
    try reflexivity.
  - now destruct (isEntering p) eqn:E.
  - now destruct (dragging p).
  - now destruct (dragging p).
Qed.

(** X21.  While the entry animation runs ([isEntering] set, no drag under
    way, as when the script starts) no run of wheel and pointer events
    changes the carousel or the drag state; and no listener ever changes
    [isEntering]. *)
Theorem entry_blocks_input (W : number) (events : list event) (p : pointer)
  (c : carousel) :
  isEntering p = true -> dragging p = false ->
  handleAll W events (p, c) = (p, c)
  /\ forall st, isEntering (fst (handleAll W events st)) = isEntering (fst st).
Proof.
  intros He Hd. split.
  - unfold handleAll. induction events as [|e rest IH]; [reflexivity|].
    cbn [fold_left]. now rewrite handle_entering.
  - unfold handleAll. induction events as [|e rest IH]; intros st;
      [reflexivity|].
    cbn [fold_left]. rewrite IH. apply handle_isEntering.
Qed.

(** X21, witness: a wheel turn and a drag on the ten cards before the entry
    animation has ended. *)
Lemma entry_blocks_input_witness :
  (isEntering initialPointer = true /\ dragging initialPointer = false)
  /\ handleAll Input.WHEEL_SENS_four
       [Wheel (Num 0) (Num 120); PointerDown (Num 300) (Num 10);
        PointerMove (Num 250) (Num 26); PointerUp]
       (initialPointer, tenCards)
     = (initialPointer, tenCards).
Proof.
  split; [split; reflexivity|].
  destruct (entry_blocks_input Input.WHEEL_SENS_four
              [Wheel (Num 0) (Num 120); PointerDown (Num 300) (Num 10);
               PointerMove (Num 250) (Num 26); PointerUp]
              initialPointer tenCards eq_refl eq_refl) as (E & _).
  exact E.
Defined.

Lemma last_cons {A} (a d : A) (l : list A) : last (a :: l) d = last l a.
Proof.
  revert a d. induction l as [|b rest IH]; intros a d; [reflexivity|].
  change (last (a :: b :: rest) d) with (last (b :: rest) d).
  now rewrite (IH b d), (IH b a).
Qed.

(** The moves of a drag under way: the offset follows the pointer. *)
Lemma moves_follow (W : number) (L : Q) (moves : list (Q * number)) :
  0 < L ->
  forall p c (x s : Q),
    dragging p = true -> lastX p = Num x ->
    TRACK c = Num L -> SCROLL_X c = Num s -> 0 <= s < L ->
    let st :=
      handleAll W (map (fun '(x, t) => PointerMove (Num x) t) moves) (p, c) in
    exists s' k,
      SCROLL_X (snd st) = Num s' /\ 0 <= s' < L
      /\ s' + inject_Z k * L == s - (last (map fst moves) x - x)
      /\ lastX (fst st) = Num (last (map fst moves) x)
      /\ dragging (fst st) = true
      /\ isEntering (fst st) = isEntering p
      /\ TRACK (snd st) = Num L /\ vX (snd st) = vX c.
Proof.
  intros HL. unfold handleAll.
  induction moves as [|[x1 t1] rest IH]; intros p c x s Hd Hx HT HS Hs.
  - cbn. exists s, 0%Z. repeat split; try assumption; try apply Hs.
    change (inject_Z 0) with 0. ring.
  - cbn [map fold_left handle fst snd]. unfold Input.onPointerMove.
    rewrite Hd, Hx, HS, HT. cbn [negb sub mul DRAG_SENS].
    destruct (mod_congruent (s - (x1 - x) * 1.0) L HL) as (r & k & E & Hr & Hk).
    rewrite E.
    match goal with
    | |- context [fold_left _ _ (?p1, ?c1)] =>
        destruct (IH p1 c1 x1 r) as (s' & k' & A1 & A2 & A3 & A4 & A5 & A6 & A7 & A8);
          [reflexivity | reflexivity | exact HT | reflexivity | exact Hr |]
    end.
    cbv zeta in *. exists s', (k' + k)%Z.
    rewrite last_cons.
    split; [exact A1|]. split; [exact A2|].
    split; [rewrite inject_Z_plus; lra|].
    split; [exact A4|]. split; [exact A5|]. split; [exact A6|].
    split; [exact A7 | exact A8].
Qed.



(** X23.  The velocity a release hands to the animation loop, after a move
    of [dx] pixels: the elapsed time is taken as at least one millisecond,
    so the velocity is finite whatever the two clock readings, of magnitude
    at most [1000 |dx|], and directed against [dx], the way the drag was
    moving the offset; it is [- dx] over the elapsed seconds when at least a
    millisecond has passed.  A press released without a move gives velocity
    zero. *)
Theorem release_velocity (x x1 t0 t1 : Q) (p : pointer) (c : carousel) :
  dragging p = true -> lastX p = Num x -> lastT p = Num t0 ->
  let moved := Input.onPointerMove (Num x1) (Num t1) p c in
  let released := Input.onPointerUp (fst moved) (snd moved) in
  (exists v,
     vX (snd released) = Num v
     /\ Qabs v <= 1000 * Qabs (x1 - x)
     /\ v * (x1 - x) <= 0
     /\ (1 <= t1 - t0 -> v == - ((x1 - x) / ((t1 - t0) / 1000))))
  /\ dragging (fst released) = false
  /\ exists v0,
       vX (snd (Input.onPointerUp
                  (Input.onPointerDown (Num x1) (Num t1)
                     {| isEntering := false; dragging := false;
                        lastX := lastX p; lastT := lastT p;
                        lastDelta := lastDelta p |}) c)) = Num v0
       /\ v0 == 0.
Proof.
  intros Hd Hx Ht moved released. subst released moved.
  unfold Input.onPointerMove, Input.onPointerUp. rewrite Hd, Hx, Ht.
  cbn [negb fst snd dragging lastDelta sub].
  split; [|split; [reflexivity|]].
  - set (dx := x1 - x).
    assert (Hm : exists m, 1 <= m
                 /\ (1 <= t1 - t0 -> m == t1 - t0)
                 /\ (Math_max (Num 1) (Num (t1 - t0)) / Num 1000)%js
                    = Num (m / 1000)).
    { unfold Math_max. cbn [lt].
      destruct (Qltb 1 (t1 - t0)) eqn:E;
        [apply Qltb_lt in E | apply Qltb_ge in E].
      - exists (t1 - t0). split; [lra|]. split; [reflexivity | reflexivity].
      - exists 1. split; [lra|]. split; [intros H; lra | reflexivity]. }
    destruct Hm as (m & Hm1 & Hm2 & ->). cbn [div].
    assert (Hpos : 0 < m / 1000) by (apply Qlt_shift_div_l; lra).
    rewrite (Qeq_bool_false (m / 1000) 0) by lra.
    cbn [withVelocity vX neg mul DRAG_SENS].
    eexists. split; [reflexivity|].
    pose proof (Qdiv_times dx (m / 1000) Hpos) as Ey.
    set (y := dx / (m / 1000)) in *.
    assert (Ey' : y * m == 1000 * dx).
    { rewrite <- Ey. field. }
    split; [|split].
    + apply Qabs_Qle_condition.
      destruct (Qlt_le_dec dx 0) as [Hneg|Hnn].
      * rewrite (Qabs_neg dx) by lra. split; nra.
      * rewrite (Qabs_pos dx) by lra. split; nra.
    + destruct (Qlt_le_dec dx 0) as [Hneg|Hnn]; nra.
    + intros H1. rewrite <- (Hm2 H1). unfold y. ring.
  - unfold Input.onPointerDown. cbn [isEntering dragging negb lastDelta].
    cbn [withVelocity vX neg mul DRAG_SENS].
    eexists. split; [reflexivity | reflexivity].
Qed.

(** X23, witness: a move of 30 px to the left in 16 ms, then the release. *)
Lemma release_velocity_witness :
  exists v,
    vX (snd (Input.onPointerUp
               (fst (Input.onPointerMove (Num 250) (Num 26)
                       {| isEntering := false; dragging := true;
                          lastX := Num 280; lastT := Num 10;
                          lastDelta := Num 0 |} tenCards))
               (snd (Input.onPointerMove (Num 250) (Num 26)
                       {| isEntering := false; dragging := true;
                          lastX := Num 280; lastT := Num 10;
                          lastDelta := Num 0 |} tenCards)))) = Num v
    /\ Qabs v <= 1000 * Qabs (250 - 280).
Proof.
  destruct (release_velocity 280 250 10 26
              {| isEntering := false; dragging := true; lastX := Num 280;
                 lastT := Num 10; lastDelta := Num 0 |}
              tenCards eq_refl eq_refl eq_refl) as ((v & E & Hv & _) & _).
  exists v. split; [exact E | exact Hv].
Defined.

Lemma withVelocity_twice c a b :
  withVelocity (withVelocity c a) b = withVelocity c b.
Proof. reflexivity. Qed.

Lemma withVelocity_same c : withVelocity c (vX c) = c.
Proof. now destruct c. Qed.

Lemma onWheel_step (wq v dx dy : Q) p c :
  isEntering p = false -> vX c = Num v ->
  Input.onWheel (Num wq) (Num dx) (Num dy) p c
  = withVelocity c
      (Num (v + (if Qltb (Qabs dy) (Qabs dx) then dx else dy) * wq * 20)).
Proof.
  intros He Hv. unfold Input.onWheel. rewrite He, Hv. cbn [Math_abs lt].
  now destruct (Qltb (Qabs dy) (Qabs dx)).
Qed.

(** A run of wheel events, once the entry animation has ended, only
    changes the velocity: each event adds 20 times the wheel sensitivity
    times its dominant delta, the one of larger magnitude, the vertical one
    when the two are equal.  So the velocity after the run is the velocity
    before plus that factor times the sum of the dominant deltas, in
    whatever order the events came. *)
Lemma wheel_accumulates (wq v : Q) (ws : list (Q * Q)) (p : pointer)
  (c : carousel) :
  isEntering p = false -> vX c = Num v ->
  let dominant (d : Q * Q) :=
    if Qltb (Qabs (snd d)) (Qabs (fst d)) then fst d else snd d in
  let st :=
    handleAll (Num wq) (map (fun d => Wheel (Num (fst d)) (Num (snd d))) ws)
      (p, c) in
  (forall d, Qabs (dominant d) == Qmax (Qabs (fst d)) (Qabs (snd d)))
  /\ fst st = p
  /\ exists v',
       snd st = withVelocity c (Num v')
       /\ v' == v + 20 * wq * fold_right (fun d acc => dominant d + acc) 0 ws.
Proof.
  intros He Hv dominant st. subst st. split; [|].
  - intros [dx dy]. unfold dominant. cbn [fst snd].
    destruct (Qltb (Qabs dy) (Qabs dx)) eqn:E;
      [apply Qltb_lt in E | apply Qltb_ge in E].
    + destruct (Q.max_spec (Qabs dx) (Qabs dy)) as [[H ->]|[H ->]];
        [lra | reflexivity].
    + destruct (Q.max_spec (Qabs dx) (Qabs dy)) as [[H ->]|[H ->]];
        [reflexivity | lra].
  - unfold handleAll. revert c v Hv.
    induction ws as [|[dx dy] rest IH]; intros c v Hv.
    + cbn. split; [reflexivity|]. exists v.
      split; [rewrite <- Hv; now rewrite withVelocity_same | ring].
    + cbn [map fold_left handle fst snd].
      rewrite (onWheel_step wq v dx dy p c He Hv).
      match goal with
      | |- context [fold_left _ _ (p, withVelocity c (Num ?v1))] =>
          destruct (IH (withVelocity c (Num v1)) v1 eq_refl)
            as (E1 & v' & E2 & E3)
      end.
      split; [exact E1|]. exists v'.
      split; [now rewrite E2, withVelocity_twice|].
      rewrite E3. cbn [fold_right]. unfold dominant at 2. cbn [fst snd].
      destruct (Qltb (Qabs dy) (Qabs dx)); ring.
Qed.

(** Two wheel events on the ten cards at rest. *)
Example wheel_twice :
  exists v',
    snd (handleAll (Num 0.6)
           (map (fun d => Wheel (Num (fst d)) (Num (snd d)))
              [(0, 120); (- 40, 10)])
           ({| isEntering := false; dragging := false; lastX := Num 0;
               lastT := Num 0; lastDelta := Num 0 |}, tenCards))
    = withVelocity tenCards (Num v').
Proof.
  destruct (wheel_accumulates 0.6 0 [(0, 120); (- 40, 10)]
              {| isEntering := false; dragging := false; lastX := Num 0;
                 lastT := Num 0; lastDelta := Num 0 |}
              tenCards eq_refl eq_refl) as (_ & _ & v' & E & _).
  exists v'. exact E.
Qed.

(** ** The background canvas *)

Lemma pixelRatio_range (d : number) :
  exists q, pixelRatio d = Num q /\ 1 <= q <= 2.
Proof.
  unfold pixelRatio, or_else.
  destruct d as [x| | |]; cbn [truthy].
  - destruct (Qeq_bool x 0); cbn [negb].
    + exists 1. split; [reflexivity | lra].
    + unfold Math_min, Math_max. cbn [lt].
      destruct (Qltb x 2) eqn:E2;
        [apply Qltb_lt in E2 | apply Qltb_ge in E2]; cbn [lt].
      * destruct (Qltb 1 x) eqn:E1;
          [apply Qltb_lt in E1 | apply Qltb_ge in E1].
        -- exists x. split; [reflexivity | lra].
        -- exists 1. split; [reflexivity | lra].
      * exists 2. split; [reflexivity | lra].
  - exists 2. split; [reflexivity | lra].
  - exists 1. split; [reflexivity | lra].
  - exists 1. split; [reflexivity | lra].
Qed.

Lemma strict_eq_refl (q : Q) : (Num q === Num q)%js = true.
Proof. cbn. apply Qeq_bool_iff. reflexivity. Qed.

(** X25.  Whatever [window.devicePixelRatio] holds (a number, an infinity,
    NaN, 0), the ratio [resizeBG] uses is a number of [[1, 2]].  For a finite
    logical size the backing store gets whole non-negative dimensions, more
    than the logical size less one pixel and at most twice the logical size;
    and a second call on the same size changes nothing. *)
Theorem canvas_sizing (d : number) (a b : Q) (cv : canvas) :
  0 <= a -> 0 <= b ->
  (exists q, pixelRatio d = Num q /\ 1 <= q <= 2)
  /\ (let cv' := resizeBG d (Num a) (Num b) cv in
      exists (m n : Z) (x y : Q),
        width cv' = Num x /\ x == inject_Z m
        /\ height cv' = Num y /\ y == inject_Z n
        /\ a - 1 < x <= 2 * a /\ b - 1 < y <= 2 * b
        /\ resizeBG d (Num a) (Num b) cv' = cv').
Proof.
  intros Ha Hb. split; [apply pixelRatio_range|].
  cbv zeta. unfold resizeBG.
  destruct (pixelRatio_range d) as (q & -> & Hq).
  cbn [mul Math_floor]. unfold of_Z.
  set (m := Qfloor (a * q)). set (n := Qfloor (b * q)).
  assert (Hm : a - 1 < inject_Z m <= 2 * a).
  { pose proof (Qfloor_le (a * q)) as H1.
    pose proof (Qlt_floor (a * q)) as H2. fold m in H1, H2.
    rewrite inject_Z_plus in H2. change (inject_Z 1) with 1 in H2.
    split; nra. }
  assert (Hn : b - 1 < inject_Z n <= 2 * b).
  { pose proof (Qfloor_le (b * q)) as H1.
    pose proof (Qlt_floor (b * q)) as H2. fold n in H1, H2.
    rewrite inject_Z_plus in H2. change (inject_Z 1) with 1 in H2.
    split; nra. }
  destruct (negb (width cv === Num (inject_Z m))%js
            || negb (height cv === Num (inject_Z n))%js) eqn:E.
  - exists m, n, (inject_Z m), (inject_Z n). cbn [width height].
    rewrite !strict_eq_refl. cbn [negb orb].
    repeat split; try reflexivity; try apply Hm; try apply Hn.
  - rewrite E. apply orb_false_iff in E as [E1 E2].
    apply negb_false_iff in E1, E2.
    destruct (width cv) as [x| | |]; try discriminate.
    destruct (height cv) as [y| | |]; try discriminate.
    cbn [strict_eq] in E1, E2. apply Qeq_bool_iff in E1, E2.
    exists m, n, x, y.
    split; [reflexivity|]. split; [exact E1|].
    split; [reflexivity|]. split; [exact E2|].
    rewrite E1, E2. split; [exact Hm|]. split; [exact Hn | reflexivity].
Qed.

(** X25, witness: a window of 1200 by 800 pixels on a display of ratio 3. *)
Lemma canvas_sizing_witness :
  (0 <= 1200 /\ 0 <= 800)
  /\ exists q, pixelRatio (Num 3) = Num q /\ 1 <= q <= 2.
Proof.
  assert (Ha : 0 <= 1200) by discriminate.
  assert (Hb : 0 <= 800) by discriminate.
  split; [split; assumption|].
  destruct (canvas_sizing (Num 3) 1200 800
              {| width := Num 300; height := Num 150; ratio := Num 1 |}
              Ha Hb) as (H & _).
  exact H.
Defined.

(** ** The background throttle *)

Lemma minInterval_cases (t : Q) fastUntil :
  (minInterval (Num t) fastUntil = Num 16
   /\ (Num t <? fastUntil)%js = true)
  \/ (minInterval (Num t) fastUntil = Num 33
      /\ (Num t <? fastUntil)%js = false).
Proof.
  unfold minInterval. destruct (Num t <? fastUntil)%js; [left | right];
    now split.
Qed.

Lemma background_paced (calls : list (Q * number)) :
  forall t0 : Q,
    exists ts : list Q,
      backgroundRun (finiteCalls calls) (Num t0) = map Num ts
      /\ paced 16 t0 ts
      /\ incl ts (map fst calls)
      /\ (Forall (fun call => (Num (fst call) <? snd call)%js = false) calls ->
          paced 33 t0 ts)
      /\ 16 * inject_Z (Z.of_nat (length ts)) <= last ts t0 - t0.
Proof.
  induction calls as [|[t f] rest IH]; intros t0.
  - exists []. split; [reflexivity|]. split; [exact I|].
    split; [intros x []|]. split; [intros _; exact I|].
    cbn [length last]. change (inject_Z (Z.of_nat 0)) with 0. lra.
  - cbn [finiteCalls map backgroundRun]. unfold drawBackground.
    destruct (minInterval_cases t f) as [[-> Hf]|[-> Hf]]; cbn [sub lt].
    + destruct (Qltb (t - t0) 16) eqn:E;
        [apply Qltb_lt in E | apply Qltb_ge in E].
      * destruct (IH t0) as (ts & E1 & E2 & E3 & E4 & E5).
        exists ts. split; [exact E1|]. split; [exact E2|].
        split; [intros x Hx; right; now apply E3|].
        split; [|exact E5].
        intros Hall.
        assert (H1 : (Num t <? f)%js = false) by exact (Forall_inv Hall).
        congruence.
      * destruct (IH t) as (ts & E1 & E2 & E3 & E4 & E5).
        exists (t :: ts). fold (finiteCalls rest). rewrite E1.
        split; [reflexivity|]. split; [split; [exact E | exact E2]|].
        split; [intros x [<-|Hx]; [now left | right; now apply E3]|].
        split.
        -- intros Hall.
           assert (H1 : (Num t <? f)%js = false) by exact (Forall_inv Hall).
           congruence.
        -- rewrite last_cons. cbn [length]. rewrite Nat2Z.inj_succ.
           unfold Z.succ. rewrite inject_Z_plus.
           change (inject_Z 1) with 1. lra.
    + destruct (Qltb (t - t0) 33) eqn:E;
        [apply Qltb_lt in E | apply Qltb_ge in E].
      * destruct (IH t0) as (ts & E1 & E2 & E3 & E4 & E5).
        exists ts. split; [exact E1|]. split; [exact E2|].
        split; [intros x Hx; right; now apply E3|].
        split; [|exact E5].
        intros Hall. apply E4. exact (Forall_inv_tail Hall).
      * destruct (IH t) as (ts & E1 & E2 & E3 & E4 & E5).
        exists (t :: ts). fold (finiteCalls rest). rewrite E1.
        split; [reflexivity|]. split; [split; [lra | exact E2]|].
        split; [intros x [<-|Hx]; [now left | right; now apply E3]|].
        split.
        -- intros Hall. split; [exact E|]. apply E4.
           exact (Forall_inv_tail Hall).
        -- rewrite last_cons. cbn [length]. rewrite Nat2Z.inj_succ.
           unfold Z.succ. rewrite inject_Z_plus.
           change (inject_Z 1) with 1. lra.
Qed.

(** X26.  The background loop paints at most once every 16 ms, at most once
    every 33 ms while no colour transition is under way ([now] not before
    [bgFastUntil] at any call): from any finite last paint time and along
    any run of calls at finite clock readings, every paint is at the reading
    of one of the calls, each paint comes at least that long after the one
    before, so [k] paints take at least [16 k] ms; and a call 33 ms or more
    after the last paint always paints. *)
Theorem background_throttle (calls : list (Q * number)) (t0 : Q) :
  (exists ts : list Q,
     backgroundRun (finiteCalls calls) (Num t0) = map Num ts
     /\ paced 16 t0 ts
     /\ incl ts (map fst calls)
     /\ (Forall (fun call => (Num (fst call) <? snd call)%js = false) calls ->
         paced 33 t0 ts)
     /\ 16 * inject_Z (Z.of_nat (length ts)) <= last ts t0 - t0)
  /\ (forall t fastUntil,
        33 <= t - t0 ->
        backgroundRun (finiteCalls ((t, fastUntil) :: calls)) (Num t0)
        = Num t :: backgroundRun (finiteCalls calls) (Num t)).
Proof.
  split; [apply background_paced|].
  intros t f Ht. cbn [finiteCalls map backgroundRun]. unfold drawBackground.
  destruct (minInterval_cases t f) as [[-> _]|[-> _]]; cbn [sub lt].
  - rewrite (proj2 (Qltb_ge (t - t0) 16)) by lra. reflexivity.
  - rewrite (proj2 (Qltb_ge (t - t0) 33)) by lra. reflexivity.
Qed.

(** ** The sampling canvas *)

Lemma round_bounds (y : Q) (lo hi : Z) :
  inject_Z lo <= y <= inject_Z hi -> (lo <= Qround_half_up y <= hi)%Z.
Proof.
  intros [Hlo Hhi]. unfold Qround_half_up. split.
  - rewrite <- (Qfloor_Z lo). apply Qfloor_resp_le. lra.
  - pose proof (Qfloor_le (y + 0.5)) as H.
    assert (Hlt : (Qfloor (y + 0.5) < hi + 1)%Z).
    { rewrite Zlt_Qlt, inject_Z_plus. change (inject_Z 1) with 1. lra. }
    lia.
Qed.

Lemma max16 (z : Z) : Math_max (Num 16) (of_Z z) = of_Z (Z.max 16 z).
Proof.
  unfold Math_max, of_Z. cbn [lt].
  destruct (Qltb 16 (inject_Z z)) eqn:E;
    [apply Qltb_lt in E | apply Qltb_ge in E].
  - change 16 with (inject_Z 16) in E. rewrite <- Zlt_Qlt in E.
    now rewrite Z.max_r by lia.
  - change 16 with (inject_Z 16) in E. rewrite <- Zle_Qle in E.
    now rewrite Z.max_l by lia.
Qed.

(** X27.  The canvas [extractColors] samples an image on is between 16 and
    48 pixels on each side, and 48 pixels on the longer side; it is 48 by 48
    for a square image and for an image that reports a zero width or
    height. *)
Theorem sample_size (nw nh : Q) :
  0 <= nw -> 0 <= nh ->
  exists tw th : Z,
    sampleSize (Num nw) (Num nh) = (of_Z tw, of_Z th)
    /\ (16 <= tw <= 48)%Z /\ (16 <= th <= 48)%Z
    /\ (nw == 0 \/ nh == 0 \/ nw == nh -> tw = 48%Z /\ th = 48%Z)
    /\ (nh <= nw -> tw = 48%Z)
    /\ (nw <= nh -> th = 48%Z).
Proof.
  intros Hw Hh. unfold sampleSize. cbn [truthy].
  destruct (Qeq_bool nw 0) eqn:Ew.
  { cbn [negb andb ge lt]. change (Qltb 1 1) with false. cbn [negb].
    exists 48%Z, 48%Z. apply Qeq_bool_iff in Ew.
    split; [reflexivity|]. repeat split; lia. }
  destruct (Qeq_bool nh 0) eqn:Eh.
  { cbn [negb andb ge lt]. change (Qltb 1 1) with false. cbn [negb].
    exists 48%Z, 48%Z. apply Qeq_bool_iff in Eh.
    split; [reflexivity|]. repeat split; lia. }
  apply Qeq_bool_neq in Ew, Eh. cbn [negb andb div].
  rewrite (Qeq_bool_false nh 0) by exact Eh.
  assert (Hr : nw / nh * nh == nw) by (apply Qdiv_times; lra).
  assert (Hpos : 0 < nw / nh) by (apply Qlt_shift_div_l; lra).
  set (r := nw / nh) in *. unfold ge. cbn [lt].
  destruct (Qltb r 1) eqn:E; [apply Qltb_lt in E | apply Qltb_ge in E];
    cbn [negb mul div Math_round].
  - rewrite max16. exists (Z.max 16 (Qround_half_up (48 * r))), 48%Z.
    split; [reflexivity|].
    assert (B : (0 <= Qround_half_up (48 * r) <= 48)%Z).
    { apply round_bounds. change (inject_Z 0) with 0.
      change (inject_Z 48) with 48. split; lra. }
    split; [lia|]. split; [lia|]. split; [|split].
    + intros [H|[H|H]]; [lra | lra | exfalso; nra].
    + intros H. exfalso. nra.
    + intros _. reflexivity.
  - rewrite (Qeq_bool_false r 0) by lra. cbn [Math_round]. rewrite max16.
    exists 48%Z, (Z.max 16 (Qround_half_up (48 / r))).
    split; [reflexivity|].
    assert (Hq : 48 / r * r == 48) by (apply Qdiv_times; lra).
    assert (Hq0 : 0 < 48 / r) by (apply Qlt_shift_div_l; lra).
    set (q := 48 / r) in *.
    assert (B : (0 <= Qround_half_up q <= 48)%Z).
    { apply round_bounds. change (inject_Z 0) with 0.
      change (inject_Z 48) with 48. split; nra. }
    split; [lia|]. split; [lia|]. split; [|split].
    + intros [H|[H|H]]; [lra | lra |]. split; [reflexivity|].
      assert (Er : r == 1) by nra.
      assert (Eq : q == 48) by nra.
      unfold Qround_half_up.
      assert (E48 : q + 0.5 == 48.5) by lra.
      rewrite (Qfloor_comp _ _ E48). reflexivity.
    + intros _. reflexivity.
    + intros H.
      assert (Er : r == 1) by nra.
      assert (Eq : q == 48) by nra.
      unfold Qround_half_up.
      assert (E48 : q + 0.5 == 48.5) by lra.
      rewrite (Qfloor_comp _ _ E48). reflexivity.
Qed.

(** X27, witness: an image of 1200 by 800 pixels. *)
Lemma sample_size_witness :
  (0 <= 1200 /\ 0 <= 800)
  /\ exists tw th : Z,
       sampleSize (Num 1200) (Num 800) = (of_Z tw, of_Z th)
       /\ (16 <= th <= 48)%Z.
Proof.
  assert (Ha : 0 <= 1200) by discriminate.
  assert (Hb : 0 <= 800) by discriminate.
  split; [split; assumption|].
  destruct (sample_size 1200 800 Ha Hb) as (tw & th & E & _ & H & _).
  exists tw, th. split; [exact E | exact H].
Defined.

(** ** The active card *)

Lemma wrapLoop_index track s its :
  forall i best,
    let r := snd (Carousel.wrapLoop track s its i best) in
    fst r = fst best \/ (i <= fst r < i + Z.of_nat (length its))%Z.
Proof.
  induction its as [|x rest IH]; intros i best; cbv zeta.
  - now left.
  - cbn [Carousel.wrapLoop].
    match goal with
    | |- context [Carousel.wrapLoop track s rest (i + 1)%Z ?b] =>
        specialize (IH (i + 1)%Z b); set (b' := b) in *
    end.
    cbv zeta in IH.
    destruct (Carousel.wrapLoop track s rest (i + 1)%Z b') as [ps r].
    cbn [snd] in *. cbn [length]. rewrite Nat2Z.inj_succ.
    destruct IH as [IH|IH]; [|right; lia].
    rewrite IH. subst b'.
    destruct (Math_abs (Carousel.wrap track s x) <? snd best)%js;
      cbn [fst]; [right; lia | now left].
Qed.

Lemma closest_range c :
  Carousel.closestIdx_of c = (-1)%Z
  \/ (0 <= Carousel.closestIdx_of c < Z.of_nat (length (items c)))%Z.
Proof.
  unfold Carousel.closestIdx_of.
  destruct (wrapLoop_index (TRACK c) (SCROLL_X c) (items c) 0%Z
              ((-1)%Z, Infinity)) as [H|H]; [left | right]; exact H.
Qed.

Section NearestFacts.

Variable Math_pow : number -> number -> number.
Variables MIN_SCALE SCALE_RANGE BLUR_COEF : number.
Variable isCore : Z -> Z -> number -> number -> bool.
Variable channels : Type.
Variable set : number -> nat -> Z -> gradient channels -> gradient channels.

Hypothesis set_refused : forall now len idx g,
  retargetRefused len idx g = true -> set now len idx g = g.
Hypothesis set_accepted : forall now len idx g,
  retargetRefused len idx g = false -> activeIndex (set now len idx g) = idx.

#[local] Abbreviation update :=
  (Carousel.updateCarouselTransforms Math_pow MIN_SCALE SCALE_RANGE BLUR_COEF
     isCore (gradient channels) activeIndex set).

Lemma update_tracks now c g : tracksNearest g (update now c g).
Proof.
  unfold tracksNearest. cbv zeta.
  pose proof (update_keeps Math_pow MIN_SCALE SCALE_RANGE BLUR_COEF isCore
                (gradient channels) activeIndex set now c g) as K.
  rewrite (closestIdx_sameInputs _ _ K).
  destruct K as (EI & _). rewrite EI.
  rewrite (update_gradient Math_pow MIN_SCALE SCALE_RANGE BLUR_COEF isCore
             (gradient channels) activeIndex set now c g).
  pose proof (closest_range c) as R.
  set (k := Carousel.closestIdx_of c) in *.
  set (len := length (items c)) in *.
  assert (Hsame : bgCtx g = false \/ k = (-1)%Z \/ k = activeIndex g ->
                  (if (k =? activeIndex g)%Z then g
                   else set now len k g) = g).
  { intros Hno. destruct (k =? activeIndex g)%Z eqn:E; [reflexivity|].
    apply set_refused. unfold retargetRefused.
    destruct Hno as [Hctx|[Hk|Hk]].
    - now rewrite Hctx.
    - rewrite Hk. cbn. now rewrite orb_true_r.
    - apply Z.eqb_neq in E. contradiction. }
  split; [exact R|]. split; [|split; [exact Hsame|]].
  - intros Hctx Hk.
    destruct (k =? activeIndex g)%Z eqn:E;
      [apply Z.eqb_eq in E; now symmetry|].
    apply set_accepted. unfold retargetRefused. rewrite Hctx, E.
    destruct R as [R|R]; [lia|].
    rewrite (proj2 (Z.ltb_ge k 0)) by lia.
    assert (Hge : (k >=? Z.of_nat len)%Z = false).
    { destruct (k >=? Z.of_nat len)%Z eqn:G; [|reflexivity].
      apply Z.geb_le in G. lia. }
    now rewrite Hge.
  - intros Hone Hactive. apply Hsame. right.
    destruct R as [R|R]; [now left | right; lia].
Qed.

Lemma tick_tracks t now c g :
  tracksNearest g
    (Carousel.tick Math_pow MIN_SCALE SCALE_RANGE BLUR_COEF isCore
       (gradient channels) activeIndex set t now c g).
Proof. unfold Carousel.tick. apply update_tracks. Qed.

Lemma onResize_tracks width height innerWidth now c g :
  tracksNearest g
    (Carousel.onResize Math_pow MIN_SCALE SCALE_RANGE BLUR_COEF isCore
       (gradient channels) activeIndex set width height innerWidth now c g).
Proof. unfold Carousel.onResize. apply update_tracks. Qed.

End NearestFacts.

(** X28.  In both variants, after every update, every animation frame and
    every resize: the card reported nearest the centre is none or one of the
    cards; with a canvas context it is the active card of the gradient state
    whenever there is one; without a context, without a nearest card, or
    when the nearest card is the active one already, the gradient state is
    left as it was.  So with a single card, once it is active, nothing ever
    retargets the gradient again. *)
Theorem active_is_nearest (Math_pow : number -> number -> number)
  (t now width height innerWidth : number) (c : carousel) :
  (forall g,
     tracksNearest g (ScriptEntry.updateCarouselTransforms Math_pow now c g)
     /\ tracksNearest g (ScriptEntry.tick Math_pow t now c g)
     /\ tracksNearest g
          (ScriptEntry.onResize Math_pow width height innerWidth now c g))
  /\ (forall g,
        tracksNearest g (FourColour.updateCarouselTransforms Math_pow now c g)
        /\ tracksNearest g (FourColour.tick Math_pow t now c g)
        /\ tracksNearest g
             (FourColour.onResize Math_pow width height innerWidth now c g)).
Proof.
  split; intros g.
  - split; [|split].
    + apply update_tracks;
        [exact two_colour_refused | exact two_colour_accepted].
    + apply tick_tracks;
        [exact two_colour_refused | exact two_colour_accepted].
    + apply onResize_tracks;
        [exact two_colour_refused | exact two_colour_accepted].
  - split; [|split].
    + apply update_tracks;
        [exact four_colour_refused | exact four_colour_accepted].
    + apply tick_tracks;
        [exact four_colour_refused | exact four_colour_accepted].
    + apply onResize_tracks;
        [exact four_colour_refused | exact four_colour_accepted].
Qed.

(** ** What the background paints *)

Lemma unit_times (c m : Q) : -1 <= c <= 1 -> 0 <= m -> - m <= c * m <= m.
Proof. intros Hc Hm. split; nra. Qed.

Lemma unitCos_range (q : Q) :
  exists c, unitCos (Num q) = Num c /\ -1 <= c <= 1.
Proof.
  eexists. split; [reflexivity|].
  assert (Hd : 0 < 1 + q * q) by nra.
  assert (H0 : 0 <= q * q) by nra.
  apply Qdiv_between; [exact Hd|]. split.
  - lra.
  - lra.
Qed.

Lemma unitSin_range (q : Q) :
  exists c, unitSin (Num q) = Num c /\ -1 <= c <= 1.
Proof.
  eexists. split; [reflexivity|].
  assert (Hd : 0 < 1 + q * q) by nra.
  assert (H1 : 0 <= (1 + q) * (1 + q)) by (set (x := 1 + q); nra).
  assert (H2 : 0 <= (1 - q) * (1 - q)) by (set (x := 1 - q); nra).
  apply Qdiv_between; [exact Hd|]. split.
  - lra.
  - lra.
Qed.

Section PaintFacts.

Variables Math_cos Math_sin : number -> number.

Hypothesis cos_range :
  forall q, exists c, Math_cos (Num q) = Num c /\ -1 <= c <= 1.
Hypothesis sin_range :
  forall q, exists c, Math_sin (Num q) = Num c /\ -1 <= c <= 1.

(** Names every cosine and sine in the goal, with its bounds and the bounds
    of its products with [w] and [h]. *)
Ltac name_waves w h Hw Hh :=
  repeat match goal with
  | |- context [Math_cos (Num ?q)] =>
      let c := fresh "c" in
      let E := fresh "E" in
      let Hc := fresh "Hc" in
      destruct (cos_range q) as (c & E & Hc); rewrite !E; clear E;
      pose proof (unit_times c w Hc Hw); pose proof (unit_times c h Hc Hh)
  | |- context [Math_sin (Num ?q)] =>
      let c := fresh "s" in
      let E := fresh "E" in
      let Hc := fresh "Hs" in
      destruct (sin_range q) as (c & E & Hc); rewrite !E; clear E;
      pose proof (unit_times c w Hc Hw); pose proof (unit_times c h Hc Hh)
  end.

Ltac on_canvas :=
  unfold onCanvas; cbn [centreX centreY radius mul add sub neg];
  eexists _, _, _;
  split; [reflexivity|]; split; [reflexivity|]; split; [reflexivity|];
  repeat split; lra.

Lemma two_colour_blobs (now w h : Q) :
  0 <= w -> 0 <= h ->
  Forall (onCanvas w h)
    (twoColourBlobs Math_cos Math_sin (Num now) (Num w) (Num h)).
Proof.
  intros Hw Hh. unfold twoColourBlobs. cbv zeta.
  unfold Math_min, Math_max. cbn [lt].
  destruct (Q.max_spec w h) as [[Hm Em]|[Hm Em]];
    destruct (Qltb h w) eqn:E1;
    [apply Qltb_lt in E1 | apply Qltb_ge in E1
    |apply Qltb_lt in E1 | apply Qltb_ge in E1];
    destruct (Qltb w h) eqn:E2;
    [apply Qltb_lt in E2 | apply Qltb_ge in E2
    |apply Qltb_lt in E2 | apply Qltb_ge in E2
    |apply Qltb_lt in E2 | apply Qltb_ge in E2
    |apply Qltb_lt in E2 | apply Qltb_ge in E2];
    try (exfalso; lra);
    cbn [mul add sub neg]; name_waves w h Hw Hh;
    repeat (constructor; [on_canvas|]); constructor.
Qed.

Lemma four_colour_blobs (now w h : Q) :
  0 <= w -> 0 <= h ->
  Forall (onCanvas w h)
    (fourColourBlobs Math_cos Math_sin (Num now) (Num w) (Num h)).
Proof.
  intros Hw Hh. unfold fourColourBlobs. cbv zeta.
  unfold Math_min, Math_max. cbn [lt].
  destruct (Q.max_spec w h) as [[Hm Em]|[Hm Em]];
    destruct (Qltb h w) eqn:E1;
    [apply Qltb_lt in E1 | apply Qltb_ge in E1
    |apply Qltb_lt in E1 | apply Qltb_ge in E1];
    destruct (Qltb w h) eqn:E2;
    [apply Qltb_lt in E2 | apply Qltb_ge in E2
    |apply Qltb_lt in E2 | apply Qltb_ge in E2
    |apply Qltb_lt in E2 | apply Qltb_ge in E2
    |apply Qltb_lt in E2 | apply Qltb_ge in E2];
    try (exfalso; lra);
    cbn [mul add sub neg]; name_waves w h Hw Hh;
    repeat (constructor; [on_canvas|]); constructor.
Qed.

(** X29.  Every radial gradient the background paints, in both variants and
    at any finite clock reading, on a canvas of any finite size: the centre
    is a point of the canvas and the radius a number between 0.3 times and
    once the longer side, so no gradient is ever created with a negative or
    a non-finite parameter.  [Math.cos] and [Math.sin] are only assumed to
    return numbers of [[-1, 1]]. *)
Theorem background_on_canvas (now w h : Q) :
  0 <= w -> 0 <= h ->
  Forall (onCanvas w h)
    (twoColourBlobs Math_cos Math_sin (Num now) (Num w) (Num h))
  /\ Forall (onCanvas w h)
       (fourColourBlobs Math_cos Math_sin (Num now) (Num w) (Num h)).
Proof.
  intros Hw Hh. split.
  - now apply two_colour_blobs.
  - now apply four_colour_blobs.
Qed.

End PaintFacts.

(** X29, witness: a canvas of 1200 by 800 pixels after five seconds, with
    the stand-ins for cosine and sine. *)
Lemma background_on_canvas_witness :
  (0 <= 1200 /\ 0 <= 800)
  /\ Forall (onCanvas 1200 800)
       (fourColourBlobs unitCos unitSin (Num 5000) (Num 1200) (Num 800)).
Proof.
  assert (Hw : 0 <= 1200) by discriminate.
  assert (Hh : 0 <= 800) by discriminate.
  split; [split; assumption|].
  destruct (background_on_canvas unitCos unitSin unitCos_range unitSin_range
              5000 1200 800 Hw Hh) as (_ & H).
  exact H.
Defined.


(** ** Fallback hues *)

Lemma fallback_hue (i : Z) :
  (0 <= i)%Z ->
  exists k : Z,
    Qrem (inject_Z i * 37) 360 == inject_Z (37 * i - 360 * k)
    /\ 0 <= Qrem (inject_Z i * 37) 360 < 360.
Proof.
  intros Hi. destruct (Qrem_congruent (inject_Z i * 37) 360) as (k & E).
  assert (H360 : 0 < 360) by reflexivity.
  assert (Hn : 0 <= inject_Z i * 37).
  { assert (H0 : 0 <= inject_Z i).
    { change 0 with (inject_Z 0). now rewrite <- Zle_Qle. }
    lra. }
  destruct (Qrem_nonneg (inject_Z i * 37) 360 H360 Hn) as [A B].
  exists k. split; [|split; assumption].
  rewrite E. unfold Z.sub.
  rewrite inject_Z_plus, inject_Z_opp, !inject_Z_mult.
  change (inject_Z 37) with 37. change (inject_Z 360) with 360. ring.
Qed.

(** X30.  The fallback palette of card [idx] is painted at the hue
    [(idx * 37) % 360], a number of [[0, 360)].  Since 37 and 360 have no
    common factor, 360 consecutive cards get 360 different hues; and the
    hues of two consecutive cards are exactly 37 degrees apart around the
    hue circle. *)
Theorem fallback_hues_distinct (i j : Z) :
  (0 <= i)%Z -> (i < j)%Z -> (j < i + 360)%Z ->
  let hue idx := Qrem (inject_Z idx * 37) 360 in
  fallbackFromIndex i
  = {| c1 := hslToRgb (hue i) 0.65 0.52; c2 := hslToRgb (hue i) 0.65 0.72;
       c3 := None; c4 := None |}
  /\ 0 <= hue i < 360
  /\ ~ hue i == hue j
  /\ hueDist (hue i) (hue (i + 1)%Z) == 37.
Proof.
  intros Hi Hij Hj hue. subst hue. cbv beta.
  split; [reflexivity|].
  destruct (fallback_hue i Hi) as (ki & Ei & Ri).
  split; [exact Ri|]. split.
  - assert (Hj0 : (0 <= j)%Z) by lia.
    destruct (fallback_hue j Hj0) as (kj & Ej & Rj).
    intros E. rewrite Ei, Ej in E.
    apply (proj1 (inject_Z_injective _ _)) in E.
    assert (D : (360 | 37 * (j - i))%Z) by (exists (kj - ki)%Z; lia).
    apply Z.gauss in D; [|reflexivity].
    destruct D as (z & Hz). lia.
  - assert (Hi1 : (0 <= i + 1)%Z) by lia.
    destruct (fallback_hue (i + 1) Hi1) as (kn & En & Rn).
    unfold hueDist.
    set (a := Qrem (inject_Z i * 37) 360) in *.
    set (b := Qrem (inject_Z (i + 1) * 37) 360) in *.
    assert (Ed : a - b == inject_Z (360 * (kn - ki) - 37)).
    { rewrite Ei, En. unfold Z.sub.
      rewrite !inject_Z_plus, !inject_Z_opp, !inject_Z_mult, !inject_Z_plus.
      rewrite !inject_Z_opp.
      change (inject_Z 37) with 37. change (inject_Z 360) with 360.
      change (inject_Z 1) with 1. ring. }
    assert (Hd : (kn - ki = 0 \/ kn - ki = 1)%Z).
    { assert (H1 : (-360 < 360 * (kn - ki) - 37)%Z).
      { rewrite Zlt_Qlt, <- Ed. change (inject_Z (-360)) with (-360). lra. }
      assert (H2 : (360 * (kn - ki) - 37 < 360)%Z).
      { rewrite Zlt_Qlt, <- Ed. change (inject_Z 360) with 360. lra. }
      lia. }
    assert (Ea : Qabs (a - b) == 37 \/ Qabs (a - b) == 323).
    { destruct Hd as [Hd|Hd]; rewrite Hd in Ed.
      - left. rewrite Ed. reflexivity.
      - right. rewrite Ed. reflexivity. }
    destruct (Q.min_spec (Qabs (a - b)) (360 - Qabs (a - b)))
      as [[H E]|[H E]]; rewrite E; destruct Ea as [Ea|Ea]; lra.
Qed.

(** X30, witness: cards 0 and 9. *)
Lemma fallback_hues_distinct_witness :
  ((0 <= 0)%Z /\ (0 < 9)%Z /\ (9 < 0 + 360)%Z)
  /\ ~ Qrem (inject_Z 0 * 37) 360 == Qrem (inject_Z 9 * 37) 360.
Proof.
  split; [lia|].
  destruct (fallback_hues_distinct 0 9) as (_ & _ & H & _); [lia | lia | lia |].
  exact H.
Defined.

(** ** Stacking order *)

Lemma depth_closed (ms sr : number) (v x : Q) :
  0 < v ->
  exists n,
    Carousel.clamp_unit (Num (x / v)) = Num n
    /\ -1 <= n <= 1
    /\ snd (Carousel.transformForScreenX ms sr (Num v) (Num x))
       = Num ((1 - Qabs n) * 140).
Proof.
  intros Hv. destruct (clamp_unit_finite (x / v)) as (n & E & Hn & _).
  exists n. split; [exact E|]. split; [exact Hn|].
  unfold Carousel.transformForScreenX. cbn [div snd].
  rewrite (Qeq_bool_false v 0) by lra. rewrite E. reflexivity.
Qed.

Section StackingFacts.

Variable Math_pow : number -> number -> number.
Variables MIN_SCALE SCALE_RANGE BLUR_COEF : number.
Variable isCore : Z -> Z -> number -> number -> bool.
Variable gradient : Type.
Variable activeIndex : gradient -> Z.
Variable setActiveGradient : number -> nat -> Z -> gradient -> gradient.

#[local] Abbreviation update :=
  (Carousel.updateCarouselTransforms Math_pow MIN_SCALE SCALE_RANGE BLUR_COEF
     isCore gradient activeIndex setActiveGradient).

Lemma styleLoop_zIndex vw k prev next ps :
  forall i,
    map zIndex
      (Carousel.styleLoop Math_pow MIN_SCALE SCALE_RANGE BLUR_COEF isCore
         vw k prev next ps i)
    = map (fun pos =>
             (Num 1000
              + Math_round
                  (snd (Carousel.transformForScreenX MIN_SCALE SCALE_RANGE
                          vw pos)))%js)
          ps.
Proof.
  induction ps as [|pos rest IH]; intros i; cbn [Carousel.styleLoop map];
    [reflexivity|].
  rewrite IH. unfold Carousel.cardStyle.
  destruct (Carousel.transformForScreenX MIN_SCALE SCALE_RANGE vw pos).
  reflexivity.
Qed.

Lemma update_zIndex now c g :
  map zIndex (styles (fst (update now c g)))
  = map (fun pos =>
           (Num 1000
            + Math_round
                (snd (Carousel.transformForScreenX MIN_SCALE SCALE_RANGE
                        (VW_HALF c) pos)))%js)
        (positions (fst (update now c g))).
Proof.
  unfold Carousel.updateCarouselTransforms.
  destruct (Carousel.wrapLoop _ _ _ _ _) as [ps [k d]].
  cbn [fst snd styles positions]. apply styleLoop_zIndex.
Qed.

(** The stacking orders written on cards at finite positions. *)
Lemma zIndex_list (v : Q) (ps : list Q) :
  0 < v ->
  exists zs : list Q,
    map (fun pos =>
           (Num 1000
            + Math_round
                (snd (Carousel.transformForScreenX MIN_SCALE SCALE_RANGE
                        (Num v) pos)))%js)
        (map Num ps)
    = map Num zs
    /\ length zs = length ps
    /\ forall j, (j < length ps)%nat ->
         exists n,
           Carousel.clamp_unit (Num (nth j ps 0 / v)) = Num n
           /\ -1 <= n <= 1
           /\ nth j zs 0
              = 1000 + inject_Z (Qround_half_up ((1 - Qabs n) * 140)).
Proof.
  intros Hv. induction ps as [|p rest IH].
  - exists []. repeat split. intros j Hj. cbn in Hj. lia.
  - destruct IH as (zs & E & Hlen & H).
    destruct (depth_closed MIN_SCALE SCALE_RANGE v p Hv) as (n & En & Hn & Ez).
    exists ((1000 + inject_Z (Qround_half_up ((1 - Qabs n) * 140))) :: zs).
    cbn [map]. rewrite E, Ez. split; [reflexivity|].
    split; [cbn; now rewrite Hlen|].
    intros [|j] Hj; cbn [nth].
    + exists n. repeat split; try assumption; apply Hn.
    + apply H. cbn in Hj. lia.
Qed.

(** X24.  The card nearest the centre is on top: on finite geometry with a
    positive half viewport width, every frame writes on every card a whole
    stacking order between 1000 and 1140, and no card gets a larger one than
    the card the frame reports as nearest the centre. *)
Theorem nearest_on_top (L s v : Q) (xs : list Q) now c g :
  TRACK c = Num L -> SCROLL_X c = Num s -> VW_HALF c = Num v -> 0 < v ->
  items c = map Num xs -> xs <> [] ->
  let k := Z.to_nat (Carousel.closestIdx_of c) in
  exists zs : list Q,
    map zIndex (styles (fst (update now c g))) = map Num zs
    /\ length zs = length xs
    /\ (k < length xs)%nat
    /\ forall j, (j < length xs)%nat ->
         (exists z : Z, nth j zs 0 == inject_Z z)
         /\ 1000 <= nth j zs 0 /\ nth j zs 0 <= nth k zs 0
         /\ nth k zs 0 <= 1140.
Proof.
  intros HT HS HV Hv HI Hne k.
  pose proof (wrapLoop_best L s xs 0%Z (-1)%Z Infinity) as B. cbn zeta in B.
  assert (Hk : exists n, (n < length xs)%nat
                         /\ Carousel.closestIdx_of c = Z.of_nat n
                         /\ forall j, (j < length xs)%nat ->
                              Qabs (wrapQ L s (nth n xs 0))
                              <= Qabs (wrapQ L s (nth j xs 0))).
  { unfold Carousel.closestIdx_of. rewrite HT, HS, HI.
    destruct (Carousel.wrapLoop (Num L) (Num s) (map Num xs) 0%Z _)
      as [ps [k0 d]]. cbn [fst snd] in *.
    destruct B as [[_ Hall] | (n & Hn & Er & _ & _ & Hmin)].
    - exfalso. destruct xs as [|x rest]; [congruence|].
      specialize (Hall 0%nat ltac:(cbn; lia)). cbn in Hall. discriminate.
    - injection Er as -> ->. exists n. split; [exact Hn|].
      split; [reflexivity | exact Hmin]. }
  destruct Hk as (n & Hn & Ek & Hmin).
  assert (Ekn : k = n) by (subst k; rewrite Ek; apply Nat2Z.id).
  rewrite Ekn. clear Ekn k.
  assert (EP : positions (fst (update now c g))
               = map Num (map (wrapQ L s) xs)).
  { destruct (update_carousel Math_pow MIN_SCALE SCALE_RANGE BLUR_COEF isCore
                gradient activeIndex setActiveGradient now c g)
      as (_ & P & _).
    rewrite P, HT, HS, HI, !map_map. apply map_ext. intros x.
    apply wrap_finite. }
  rewrite update_zIndex, HV, EP.
  destruct (zIndex_list v (map (wrapQ L s) xs) Hv) as (zs & E & Hlen & H).
  rewrite length_map in Hlen, H.
  exists zs. split; [exact E|]. split; [exact Hlen|]. split; [exact Hn|].
  intros j Hj.
  destruct (H j Hj) as (nj & Ej & Hnj & Zj).
  destruct (H n Hn) as (nn & Enn & Hnn & Zn).
  rewrite (nth_indep _ 0 (wrapQ L s 0)) in Ej
    by (rewrite length_map; assumption).
  rewrite (nth_indep _ 0 (wrapQ L s 0)) in Enn
    by (rewrite length_map; assumption).
  rewrite map_nth in Ej, Enn.
  pose proof (clamp_abs_mono v _ _ nn nj Hv Enn Ej (Hmin j Hj)) as Hmono.
  rewrite Zj, Zn.
  assert (Aj : 0 <= Qabs nj <= 1).
  { split; [apply Qabs_nonneg | apply Qabs_Qle_condition; lra]. }
  assert (An : 0 <= Qabs nn <= 1).
  { split; [apply Qabs_nonneg | apply Qabs_Qle_condition; lra]. }
  assert (Bj : (0 <= Qround_half_up ((1 - Qabs nj) * 140) <= 140)%Z).
  { apply round_bounds. change (inject_Z 0) with 0.
    change (inject_Z 140) with 140. split; nra. }
  assert (Bn : (0 <= Qround_half_up ((1 - Qabs nn) * 140) <= 140)%Z).
  { apply round_bounds. change (inject_Z 0) with 0.
    change (inject_Z 140) with 140. split; nra. }
  assert (Ble : (Qround_half_up ((1 - Qabs nj) * 140)
                 <= Qround_half_up ((1 - Qabs nn) * 140))%Z).
  { unfold Qround_half_up. apply Qfloor_resp_le. nra. }
  rewrite Zle_Qle in Ble.
  destruct Bj as [Bj1 Bj2]. destruct Bn as [Bn1 Bn2].
  rewrite Zle_Qle in Bj1, Bj2, Bn1, Bn2.
  change (inject_Z 0) with 0 in *. change (inject_Z 140) with 140 in *.
  split.
  - exists (1000 + Qround_half_up ((1 - Qabs nj) * 140))%Z.
    rewrite inject_Z_plus. reflexivity.
  - repeat split; lra.
Qed.

End StackingFacts.

(** X24, witness: the ten cards in a window 1200 px wide. *)
Lemma nearest_on_top_witness :
  (0 < 1200 * 0.5 /\ items tenCards <> [])
  /\ exists zs : list Q,
       map zIndex
         (styles (fst (FourColour.updateCarouselTransforms powCeil (Num 0)
                         tenCards (FourColour.initialGradient true false))))
       = map Num zs
       /\ length zs = 10%nat.
Proof.
  assert (Hv : 0 < 1200 * 0.5) by reflexivity.
  split; [split; [exact Hv | discriminate]|].
  destruct (nearest_on_top powCeil FourColour.MIN_SCALE FourColour.SCALE_RANGE
              FourColour.BLUR_COEF FourColour.isCore _ activeIndex
              FourColour.setActiveGradient 3480 0 (1200 * 0.5)
              [0; 348; 696; 1044; 1392; 1740; 2088; 2436; 2784; 3132]
              (Num 0) tenCards (FourColour.initialGradient true false))
    as (zs & E & Hlen & _);
    [reflexivity | reflexivity | reflexivity | exact Hv | | discriminate |].
  - vm_compute. reflexivity.
  - exists zs. split; [exact E | exact Hlen].
Defined.
